(** * ClaudeMonitor: session bridge, permission table and stream reconciler

    A shallow embedding of the TypeScript sources of the bridge
    (claude-bridge/index.ts, session-manager.ts, permission-handler.ts) and
    of the UI-side thread hooks (useThreads.ts and its reducer), with the
    properties the specification states about them and further
    properties read off the code.

    The first part holds the embedding, one module per source unit; the
    second part holds the properties. *)

From Stdlib Require Import NArith String Ascii.
From stdpp Require Import gmap list.

Open Scope N_scope.
Open Scope nat_scope.

(** ** JavaScript strings

    A JavaScript string is a finite sequence of UTF-16 code units.  The
    methods the sources use ([length], [startsWith], [endsWith], [slice],
    template concatenation, regular expressions without the [u] flag) all
    work on code units, so a string is a list of code units. *)

Module JS.

Abbreviation jsstring := (list N).

(** Literals of the sources, written as Rocq strings. *)
Fixpoint js (s : string) : jsstring :=
  match s with
  | EmptyString => []
  | String c s' => N_of_ascii c :: js s'
  end.

Arguments js : simpl never.

(** [!s] on a value of type string: only the empty string is falsy. *)
Definition isEmpty (s : jsstring) : bool :=
  match s with [] => true | _ => false end.

(** [s.startsWith(p)] *)
Definition startsWith (s p : jsstring) : bool :=
  bool_decide (take (length p) s = p).

(** [s.endsWith(p)] *)
Definition endsWith (s p : jsstring) : bool :=
  bool_decide (drop (length s - length p) s = p).

(** Decimal digits of a number, as a template literal prints it. *)
Fixpoint digits (d : Decimal.uint) : jsstring :=
  match d with
  | Decimal.Nil => []
  | Decimal.D0 d => 48%N :: digits d
  | Decimal.D1 d => 49%N :: digits d
  | Decimal.D2 d => 50%N :: digits d
  | Decimal.D3 d => 51%N :: digits d
  | Decimal.D4 d => 52%N :: digits d
  | Decimal.D5 d => 53%N :: digits d
  | Decimal.D6 d => 54%N :: digits d
  | Decimal.D7 d => 55%N :: digits d
  | Decimal.D8 d => 56%N :: digits d
  | Decimal.D9 d => 57%N :: digits d
  end.

Definition decimal (n : N) : jsstring := digits (N.to_uint n).

End JS.

Import JS.

(** ** Streaming text reconciliation (thread reducer) *)

Module Reconciler.

(** The [for (length = maxOverlap; length > 0; length -= 1)] loop of
    [mergeStreamingText], with the concatenation it falls through to. *)
Fixpoint overlapLoop (existing delta : jsstring) (len : nat) : jsstring :=
  match len with
  | 0 => existing ++ delta
  | S n =>
      if endsWith existing (take len delta)
      then existing ++ drop len delta
      else overlapLoop existing delta n
  end.

Definition mergeStreamingText (existing delta : jsstring) : jsstring :=
  if isEmpty delta then existing
  else if isEmpty existing then delta
  else if bool_decide (delta = existing) then existing
  else if startsWith delta existing then delta
  else if startsWith existing delta then existing
  else overlapLoop existing delta (min (length existing) (length delta)).

(** The reducer applies [mergeStreamingText] to the text of the item and
    each arriving delta in turn. *)
Definition feed (text : jsstring) (deltas : list jsstring) : jsstring :=
  foldl mergeStreamingText text deltas.

End Reconciler.

Import Reconciler.

(** ** Text normalization on ingest (useThreads.ts) *)

Module Normalize.

Definition CR : N := 13.
Definition LF : N := 10.
Definition SPACE : N := 32.
Definition HYPHEN : N := 45.
Definition ASTERISK : N := 42.
Definition FULLSTOP : N := 46.
Definition BACKTICK : N := 96.

(** The class [\s] of a regular expression without the [u] flag: the
    WhiteSpace and LineTerminator code points of ECMAScript. *)
Definition isWhiteSpace (c : N) : bool :=
  ((9 <=? c) && (c <=? 13) || (c =? 32) || (c =? 160) || (c =? 5760)
   || (8192 <=? c) && (c <=? 8202) || (c =? 8232) || (c =? 8233)
   || (c =? 8239) || (c =? 8287) || (c =? 12288) || (c =? 65279))%N.

(** The class [\d]. *)
Definition isDigit (c : N) : bool := ((48 <=? c) && (c <=? 57))%N.

(** [text.replace(/\r\n/g, "\n")]: a left-to-right scan that rewrites
    each match and resumes after it. *)
Fixpoint replaceCRLF (s : jsstring) : jsstring :=
  match s with
  | [] => []
  | [c] => [c]
  | c :: (n :: rest) as s' =>
      if ((c =? CR) && (n =? LF))%N then LF :: replaceCRLF rest
      else c :: replaceCRLF s'
  end.

(** The four negative lookaheads, tried on the text after the newline. *)

(** [(?!\n)] *)
Definition aheadNewline (rest : jsstring) : bool :=
  match rest with c :: _ => (c =? LF)%N | [] => false end.

(** [(?![-*]\s)] *)
Definition aheadBullet (rest : jsstring) : bool :=
  match rest with
  | c :: w :: _ => ((c =? HYPHEN) || (c =? ASTERISK))%N && isWhiteSpace w
  | _ => false
  end.

(** The greedy [\d*]: what is left after the longest run of digits. *)
Fixpoint afterDigits (rest : jsstring) : jsstring :=
  match rest with
  | c :: r => if isDigit c then afterDigits r else rest
  | [] => []
  end.

(** [(?!\d+\.\s)].  The run of digits is matched greedily; giving digits
    back cannot help, since the next pattern character is a full stop and
    no digit is one. *)
Definition aheadOrdered (rest : jsstring) : bool :=
  match rest with
  | c :: r =>
      isDigit c &&
      match afterDigits r with
      | d :: w :: _ => (d =? FULLSTOP)%N && isWhiteSpace w
      | _ => false
      end
  | [] => false
  end.

(** [(?!```)] *)
Definition aheadFence (rest : jsstring) : bool :=
  match rest with
  | a :: b :: c :: _ => ((a =? BACKTICK) && (b =? BACKTICK) && (c =? BACKTICK))%N
  | _ => false
  end.

(** The whole pattern [([^\n])\n(?!\n)(?![-*]\s)(?!\d+\.\s)(?!```)] tried
    at a position whose first two code units are [c] and [n]. *)
Definition matchesAt (c n : N) (rest : jsstring) : bool :=
  negb (c =? LF)%N && (n =? LF)%N
  && negb (aheadNewline rest) && negb (aheadBullet rest)
  && negb (aheadOrdered rest) && negb (aheadFence rest).

(** [unified.replace(/.../g, "$1 ")]: on a match the captured code unit
    and a space are written and the scan resumes after the newline. *)
Fixpoint collapseNewlines (s : jsstring) : jsstring :=
  match s with
  | [] => []
  | [c] => [c]
  | c :: (n :: rest) as s' =>
      if matchesAt c n rest then c :: SPACE :: collapseNewlines rest
      else c :: collapseNewlines s'
  end.

Definition normalizeStreamingText (text : jsstring) : jsstring :=
  if isEmpty text then []
  else
    let unified := replaceCRLF text in
    collapseNewlines unified.

(** Position-wise description used to state what the scan does: the code
    unit at index [i] of [u] is a newline that the pattern matches together
    with the code unit before it. *)
Definition collapsesAt (u : jsstring) (i : nat) : bool :=
  match i with
  | 0 => false
  | S j =>
      match u !! j, drop i u with
      | Some c, n :: rest => matchesAt c n rest
      | _, _ => false
      end
  end.

(** No carriage return is directly followed by a line feed. *)
Fixpoint noCRLF (s : jsstring) : bool :=
  match s with
  | [] => true
  | c :: s' =>
      negb ((c =? CR)%N && match s' with n :: _ => (n =? LF)%N | [] => false end)
      && noCRLF s'
  end.

(** [v] is [u] with some of its line feeds replaced by spaces. *)
Definition softens (u v : jsstring) : Prop :=
  Forall2 (λ x y, x = y ∨ (x = LF ∧ y = SPACE)) u v.

End Normalize.

Import Normalize.

(** ** The session input stream (session-manager.ts, [createInputStream]) *)

Module InputStream.

(** [IteratorResult<SDKUserMessage>]: [{value, done: false}] or
    [{done: true}]. *)
Inductive IteratorResult (Msg : Type) : Type :=
  | Value (m : Msg)
  | Done.
Arguments Value {Msg} m.
Arguments Done {Msg}.

(** What a call of [next()] hands to the consumer: a promise that is
    already resolved, or a promise that stays pending until the stored
    resolver runs.  Pending promises are told apart by the number of the
    [next()] call that made them. *)
Inductive NextResult (Msg : Type) : Type :=
  | Now (r : IteratorResult Msg)
  | Later (promise : nat).
Arguments Now {Msg} r.
Arguments Later {Msg} promise.

(** The variables the three closures share. *)
Record state (Msg : Type) : Type := mkState {
  queue : list Msg;
  resolveNext : option nat;
  closed : bool;
  nextCalls : nat;
}.
Arguments mkState {Msg} _ _ _ _.
Arguments queue {Msg} _.
Arguments resolveNext {Msg} _.
Arguments closed {Msg} _.
Arguments nextCalls {Msg} _.

Section stream.
Context {Msg : Type}.

Definition createInputStream : state Msg :=
  mkState [] None false 0.

(** [push(message)]; the second component is the pending promise the call
    resolves, if any. *)
Definition push (message : Msg) (st : state Msg)
  : state Msg * option (nat * IteratorResult Msg) :=
  if closed st then (st, None)
  else
    match resolveNext st with
    | Some p =>
        (mkState (queue st) None (closed st) (nextCalls st),
         Some (p, Value message))
    | None =>
        (mkState (queue st ++ [message]) None (closed st) (nextCalls st), None)
    end.

(** [close()] *)
Definition close (st : state Msg)
  : state Msg * option (nat * IteratorResult Msg) :=
  match resolveNext st with
  | Some p => (mkState (queue st) None true (nextCalls st), Some (p, Done))
  | None => (mkState (queue st) None true (nextCalls st), None)
  end.

(** [next()] of the iterator. *)
Definition next (st : state Msg) : state Msg * NextResult Msg :=
  match queue st with
  | m :: q =>
      (mkState q (resolveNext st) (closed st) (S (nextCalls st)), Now (Value m))
  | [] =>
      if closed st
      then (mkState [] (resolveNext st) true (S (nextCalls st)), Now Done)
      else (mkState [] (Some (nextCalls st)) false (S (nextCalls st)),
            Later (nextCalls st))
  end.

(** Calls made on one stream, by the producer and by the consumer. *)
Inductive op : Type :=
  | Push (message : Msg)
  | Close
  | Next.

Inductive output : Type :=
  | Settled (s : option (nat * IteratorResult Msg))
  | Returned (r : NextResult Msg).

Definition step (o : op) (st : state Msg) : state Msg * output :=
  match o with
  | Push m => let '(st', s) := push m st in (st', Settled s)
  | Close => let '(st', s) := close st in (st', Settled s)
  | Next => let '(st', r) := next st in (st', Returned r)
  end.

Fixpoint run (ops : list op) (st : state Msg) : list output :=
  match ops with
  | [] => []
  | o :: ops' => let '(st', out) := step o st in out :: run ops' st'
  end.

(** What the calls of [next()] returned, in call order. *)
Fixpoint nextResults (outs : list output) : list (NextResult Msg) :=
  match outs with
  | [] => []
  | Returned r :: outs' => r :: nextResults outs'
  | Settled _ :: outs' => nextResults outs'
  end.

Fixpoint countNext (ops : list op) : nat :=
  match ops with
  | [] => 0
  | Next :: ops' => S (countNext ops')
  | _ :: ops' => countNext ops'
  end.

(** The state the calls leave behind. *)
Fixpoint final (ops : list op) (st : state Msg) : state Msg :=
  match ops with
  | [] => st
  | o :: ops' => final ops' (step o st).1
  end.

(** The messages the consumer was handed, in the order in which it got
    them: by a [next()] that found the queue filled, or by a [push] that
    resolved the promise of a waiting [next()]. *)
Fixpoint delivered (outs : list output) : list Msg :=
  match outs with
  | [] => []
  | Returned (Now (Value m)) :: outs' => m :: delivered outs'
  | Settled (Some (_, Value m)) :: outs' => m :: delivered outs'
  | _ :: outs' => delivered outs'
  end.

(** The messages pushed before the first [close()]. *)
Fixpoint accepted (ops : list op) : list Msg :=
  match ops with
  | [] => []
  | Push m :: ops' => m :: accepted ops'
  | Close :: _ => []
  | Next :: ops' => accepted ops'
  end.

End stream.

End InputStream.

(** ** Pending tool approvals (permission-handler.ts) *)

Module Permission.

(** [PermissionUpdate] is a type of the vendor SDK that the handler hands
    through unchanged; it is kept as its JSON text. *)
Definition PermissionUpdate : Type := jsstring.

Inductive Decision : Type := allow | deny.

(** [PermissionResult] of the vendor SDK, with the fields the handler
    fills in. *)
Inductive PermissionResult : Type :=
  | Allow (updatedPermissions : option (list PermissionUpdate)) (toolUseID : jsstring)
  | Deny (message : jsstring) (toolUseID : jsstring).

(** One call of the [resolve] or [reject] function of the promise that
    [canUseTool] returned. *)
Inductive Settlement : Type :=
  | Resolve (result : PermissionResult)
  | Reject (error : jsstring).

(** [PendingPermission].  The fields [resolve] and [reject] are closures
    over the promise made by one call of the callback and over the abort
    handler of that call; [promise] is the number of that call.  The timer
    returned by [setTimeout] in the [n]-th call is named [n]. *)
Record PendingPermission : Type := mkPending {
  toolUseId : jsstring;
  sessionId : jsstring;
  workspaceId : jsstring;
  promise : nat;
  timeoutId : nat;
}.

(** The [permission/request] event written to stdout. *)
Record PermissionRequest : Type := mkRequest {
  requestSessionId : jsstring;
  requestWorkspaceId : jsstring;
  requestToolName : jsstring;
  requestToolUseId : jsstring;
}.

(** An armed timer: the tool-use id its callback closes over and the
    delay it was armed with. *)
Record Timer : Type := mkTimer {
  timerToolUseID : jsstring;
  delayMs : N;
}.

(** The handler with the runtime objects its closures live in: armed
    timers, registered abort listeners (one per call, keyed like the
    promise) with the tool-use id they close over, and the calls made so
    far on each promise, oldest first. *)
Record handler : Type := mkHandler {
  pending : gmap jsstring PendingPermission;
  timeoutMs : N;
  timers : gmap nat Timer;
  listeners : gmap nat jsstring;
  calls : gmap nat (list Settlement);
  requests : nat;
}.

Definition DEFAULT_PERMISSION_TIMEOUT_MS : N := 5 * 60 * 1000.

(** [new PermissionHandler(timeoutMs)] *)
Definition newPermissionHandler (timeoutMs : N) : handler :=
  mkHandler ∅ timeoutMs ∅ ∅ ∅ 0.

Definition settlements (h : handler) (p : nat) : list Settlement :=
  default [] (calls h !! p).

(** A call of [resolve] or [reject] of promise [p]. *)
Definition settle (p : nat) (s : Settlement) (h : handler) : handler :=
  mkHandler (pending h) (timeoutMs h) (timers h) (listeners h)
    (<[p := settlements h p ++ [s]]> (calls h)) (requests h).

(** [clearTimeout(id)] *)
Definition clearTimeout (t : nat) (h : handler) : handler :=
  mkHandler (pending h) (timeoutMs h) (delete t (timers h)) (listeners h)
    (calls h) (requests h).

(** [signal.removeEventListener("abort", abortHandler)] of call [p]. *)
Definition removeListener (p : nat) (h : handler) : handler :=
  mkHandler (pending h) (timeoutMs h) (timers h) (delete p (listeners h))
    (calls h) (requests h).

(** [this.pending.delete(toolUseId)] *)
Definition deletePending (id : jsstring) (h : handler) : handler :=
  mkHandler (delete id (pending h)) (timeoutMs h) (timers h) (listeners h)
    (calls h) (requests h).

(** The [resolve] and [reject] fields of an entry: unregister the abort
    handler, then call the function of the promise. *)
Definition entrySettle (e : PendingPermission) (s : Settlement) (h : handler)
  : handler :=
  settle (promise e) s (removeListener (promise e) h).

(** The callback made by [createCallback(getSessionId, workspaceId)],
    called by the vendor with a tool name and [options.toolUseID];
    [sessionId] is what [getSessionId()] returns at that moment.  The call
    emits the request, arms the timer, registers the abort handler and
    stores the entry. *)
Definition canUseTool (sessionId workspaceId toolName toolUseID : jsstring)
    (h : handler) : handler * PermissionRequest :=
  let n := requests h in
  (mkHandler
     (<[toolUseID := mkPending toolUseID sessionId workspaceId n n]> (pending h))
     (timeoutMs h)
     (<[n := mkTimer toolUseID (timeoutMs h)]> (timers h))
     (<[n := toolUseID]> (listeners h))
     (calls h)
     (S n),
   mkRequest sessionId workspaceId toolName toolUseID).

(** The timer callback of call [n] runs: nothing happens unless the timer
    is still armed; a timer fires once. *)
Definition timeout (n : nat) (h : handler) : handler :=
  match timers h !! n with
  | None => h
  | Some t =>
      let h := clearTimeout n h in
      let toolUseID := timerToolUseID t in
      match pending h !! toolUseID with
      | Some _ =>
          settle n
            (Resolve (Deny (js "Permission request timed out") toolUseID))
            (deletePending toolUseID h)
      | None => h
      end
  end.

(** The abort signal passed to call [n] fires: [abortHandler] runs if it
    is still registered; it was registered with [once: true]. *)
Definition abort (n : nat) (h : handler) : handler :=
  match listeners h !! n with
  | None => h
  | Some toolUseID =>
      let h := removeListener n h in
      match pending h !! toolUseID with
      | Some p =>
          settle n (Reject (js "Permission request aborted"))
            (deletePending toolUseID (clearTimeout (timeoutId p) h))
      | None => h
      end
  end.

(** [respond(toolUseId, decision, message?, updatedPermissions?)] *)
Definition respond (toolUseId : jsstring) (decision : Decision)
    (message : option jsstring)
    (updatedPermissions : option (list PermissionUpdate))
    (h : handler) : handler * bool :=
  match pending h !! toolUseId with
  | None => (h, false)
  | Some p =>
      let h := deletePending toolUseId (clearTimeout (timeoutId p) h) in
      let result :=
        match decision with
        | allow => Allow updatedPermissions toolUseId
        | deny => Deny (default (js "Permission denied by user") message) toolUseId
        end in
      (entrySettle p (Resolve result) h, true)
  end.

(** [hasPending(toolUseId)] *)
Definition hasPending (toolUseId : jsstring) (h : handler) : bool :=
  bool_decide (is_Some (pending h !! toolUseId)).

(** The body of the loops of [cancelForSession] and [cancelAll] for one
    entry. *)
Definition cancelEntry (error : jsstring) (h : handler)
    (kv : jsstring * PendingPermission) : handler :=
  let '(toolUseId, p) := kv in
  deletePending toolUseId
    (entrySettle p (Reject error) (clearTimeout (timeoutId p) h)).

(** [cancelForSession(sessionId)].  The loop visits the entries of the
    table; entries are visited here in key order, where a [Map] visits them
    in insertion order: the order only decides in which order the
    rejections of different promises happen. *)
Definition cancelForSession (sid : jsstring) (h : handler) : handler :=
  foldl
    (λ h kv, if bool_decide (sessionId kv.2 = sid)
             then cancelEntry (js "Session closed") h kv else h)
    h (map_to_list (pending h)).

(** [cancelAll()] *)
Definition cancelAll (h : handler) : handler :=
  foldl (cancelEntry (js "Bridge shutting down")) h (map_to_list (pending h)).

(** [getPendingForSession(sessionId)]; the values in key order, where a
    [Map] gives them in insertion order. *)
Definition getPendingForSession (sid : jsstring) (h : handler)
  : list PendingPermission :=
  filter (λ p, sessionId p = sid) (map_to_list (pending h)).*2.

(** [pendingCount] *)
Definition pendingCount (h : handler) : nat := size (pending h).

(** What can happen to the handler: calls by the vendor (the callback, an
    abort signal), by the runtime (a timer) and by the command task. *)
Inductive action : Type :=
  | CanUseTool (sessionId workspaceId toolName toolUseID : jsstring)
  | Respond (toolUseId : jsstring) (decision : Decision)
      (message : option jsstring)
      (updatedPermissions : option (list PermissionUpdate))
  | Timeout (n : nat)
  | Abort (n : nat)
  | CancelForSession (sessionId : jsstring)
  | CancelAll.

Definition apply (a : action) (h : handler) : handler :=
  match a with
  | CanUseTool s w t id => (canUseTool s w t id h).1
  | Respond id d m u => (respond id d m u h).1
  | Timeout n => timeout n h
  | Abort n => abort n h
  | CancelForSession s => cancelForSession s h
  | CancelAll => cancelAll h
  end.

Definition applyAll (acts : list action) (h : handler) : handler :=
  foldl (λ h a, apply a h) h acts.

(** The action is a call of the callback for this tool-use id. *)
Definition registers (id : jsstring) (a : action) : bool :=
  match a with
  | CanUseTool _ _ _ id' => bool_decide (id' = id)
  | _ => false
  end.

(** *** Predicates used to state the properties of the table *)

(** The table is consistent with the runtime objects: every entry is
    stored under its own tool-use id, its timer is armed with the
    configured delay, its abort handler is registered and its promise has
    not been called; the objects of calls still to come do not exist. *)
Record wf (h : handler) : Prop := mkWf {
  wf_entry : ∀ id e, pending h !! id = Some e →
    toolUseId e = id ∧ timeoutId e = promise e
    ∧ timers h !! timeoutId e = Some (mkTimer id (timeoutMs h))
    ∧ listeners h !! promise e = Some id
    ∧ settlements h (promise e) = [];
  wf_timer : ∀ n t, timers h !! n = Some t → n < requests h;
  wf_listener : ∀ n id, listeners h !! n = Some id → n < requests h;
  wf_fresh : ∀ n, requests h ≤ n → settlements h n = [];
}.

(** A closure of call [p] that is still reachable closes over [id]. *)
Definition captured (h : handler) (p : nat) (id : jsstring) : Prop :=
  (∃ t, timers h !! p = Some t ∧ timerToolUseID t = id)
  ∨ listeners h !! p = Some id.

(** [h'] is [h] after the entry under [id] was removed and promise [p] was
    called with [s]; only timers and listeners that close over [id] may
    have gone with it. *)
Record removes (id : jsstring) (p : nat) (s : Settlement) (h h' : handler)
  : Prop := mkRemoves {
  rm_entry : is_Some (pending h !! id);
  rm_pending : pending h' = delete id (pending h);
  rm_timeoutMs : timeoutMs h' = timeoutMs h;
  rm_requests : requests h' = requests h;
  rm_timers : ∀ n, timers h' !! n = timers h !! n
    ∨ (timers h' !! n = None ∧ ∃ t, timers h !! n = Some t ∧ timerToolUseID t = id);
  rm_listeners : ∀ n, listeners h' !! n = listeners h !! n
    ∨ (listeners h' !! n = None ∧ listeners h !! n = Some id);
  rm_calls : calls h' = <[p := settlements h p ++ [s]]> (calls h);
  rm_captured : captured h p id;
}.

(** [h'] is [h] without some timers and listeners whose tool-use id has no
    entry. *)
Record drops (h h' : handler) : Prop := mkDrops {
  dr_pending : pending h' = pending h;
  dr_timeoutMs : timeoutMs h' = timeoutMs h;
  dr_requests : requests h' = requests h;
  dr_timers : ∀ n, timers h' !! n = timers h !! n
    ∨ (timers h' !! n = None
       ∧ ∃ t, timers h !! n = Some t ∧ pending h !! timerToolUseID t = None);
  dr_listeners : ∀ n, listeners h' !! n = listeners h !! n
    ∨ (listeners h' !! n = None
       ∧ ∃ id, listeners h !! n = Some id ∧ pending h !! id = None);
  dr_calls : calls h' = calls h;
}.

(** Nothing can call promise [n] any more: its timer is gone, and its
    abort handler is gone or, when [oid] names a tool-use id, closes over
    that id, which has no entry. *)
Definition dead (h : handler) (n : nat) (oid : option jsstring) : Prop :=
  timers h !! n = None ∧ n < requests h
  ∧ (listeners h !! n = None
     ∨ (∃ id, oid = Some id ∧ listeners h !! n = Some id ∧ pending h !! id = None)).

(** The action does not call the callback for the tool-use id, if any. *)
Definition spares (oid : option jsstring) (a : action) : bool :=
  match oid with
  | Some id => negb (registers id a)
  | None => true
  end.

(** The tool-use ids for which the callback is called, in call order. *)
Fixpoint registered (acts : list action) : list jsstring :=
  match acts with
  | [] => []
  | CanUseTool _ _ _ id :: rest => id :: registered rest
  | _ :: rest => registered rest
  end.

(** The action answers the tool-use id [id], fires the timer or the abort
    signal of call [n], cancels the session [sid] or cancels everything. *)
Definition touches (id sid : jsstring) (n : nat) (a : action) : bool :=
  match a with
  | CanUseTool _ _ _ _ => false
  | Respond id' _ _ _ => bool_decide (id' = id)
  | Timeout k => bool_decide (k = n)
  | Abort k => bool_decide (k = n)
  | CancelForSession sid' => bool_decide (sid' = sid)
  | CancelAll => true
  end.

(** The closures that are still reachable close over tool-use ids from
    [used], and a timer or abort handler whose id has an entry belongs to
    that entry. *)
Record owned (h : handler) (used : list jsstring) : Prop := mkOwned {
  own_timer : ∀ n t, timers h !! n = Some t →
    timerToolUseID t ∈ used
    ∧ ∀ e, pending h !! timerToolUseID t = Some e → timeoutId e = n;
  own_listener : ∀ n id, listeners h !! n = Some id →
    id ∈ used ∧ ∀ e, pending h !! id = Some e → promise e = n;
}.

(** With ids that are used once, the runtime objects follow the table:
    an armed timer belongs to an entry; an abort handler belongs to an
    entry or to a promise that timed out; every promise made so far has
    its entry in the table or was called once. *)
Record tidy (h : handler) (used : list jsstring) : Prop := mkTidy {
  tidy_timer : ∀ n t, timers h !! n = Some t →
    ∃ e, pending h !! timerToolUseID t = Some e ∧ timeoutId e = n;
  tidy_listener : ∀ n id, listeners h !! n = Some id →
    id ∈ used
    ∧ ((∃ e, pending h !! id = Some e ∧ promise e = n)
       ∨ (pending h !! id = None ∧ ∃ s, settlements h n = [s]));
  tidy_promise : ∀ n, n < requests h →
    (∃ id e, pending h !! id = Some e ∧ promise e = n)
    ∨ (∃ s, settlements h n = [s]);
  tidy_used : ∀ id e, pending h !! id = Some e → id ∈ used;
}.

(** The handler after the entry [e] under [id] went away and its promise
    was called with [s]; the timeout path keeps the abort handler. *)
Definition removeEntry (keepListener : bool) (id : jsstring)
    (e : PendingPermission) (s : Settlement) (h : handler) : handler :=
  mkHandler (delete id (pending h)) (timeoutMs h)
    (delete (timeoutId e) (timers h))
    (if keepListener then listeners h else delete (promise e) (listeners h))
    (<[promise e := settlements h (promise e) ++ [s]]> (calls h))
    (requests h).

(** The closures that are still reachable and close over [id] all belong
    to calls [k] with [P k]. *)
Definition sole (h : handler) (id : jsstring) (P : nat → Prop) : Prop :=
  (∀ k t, timers h !! k = Some t → timerToolUseID t = id → P k)
  ∧ (∀ k, listeners h !! k = Some id → P k).

End Permission.

(** ** Events written to stdout (event-emitter.ts) *)

Module Events.

(** The event types with the parts of the payload that tell events apart;
    time stamps and the vendor data that is copied through are left out. *)
Inductive Payload : Type :=
  | SessionStarted
  | SessionClosed (reason : jsstring)
  | MessageDelta
  | MessageComplete
  | ToolProgress
  | PermissionRequested (toolName toolUseId : jsstring)
  | ResultEvent (success : bool)
  | ErrorEvent (code message : jsstring) (recoverable : bool).

(** [BridgeEvent]: every event names the session and the workspace it is
    routed to. *)
Record BridgeEvent : Type := mkEvent {
  payload : Payload;
  eventSessionId : jsstring;
  eventWorkspaceId : jsstring;
}.

End Events.

(** ** Sessions (session-manager.ts) *)

Module SessionManager.

Import Events.

Inductive Status : Type := starting | active | closing | closed.

#[global] Instance Status_eq_dec : EqDecision Status.
Proof. solve_decision. Defined.

(** The outcome of a method that may throw. *)
Inductive outcome (A : Type) : Type :=
  | Returns (a : A)
  | Throws (message : jsstring).
Arguments Returns {A} a.
Arguments Throws {A} message.

(** An attached image as [sendMessage] sees it: the lower-cased result of
    [path.extname] and what [fs.readFile] comes to, the bytes in base64 or
    the error it throws. *)
Record Attachment : Type := mkAttachment {
  extension : jsstring;
  fileData : outcome jsstring;
}.

Record ImageBlock : Type := mkImage {
  media_type : jsstring;
  data : jsstring;
}.

Inductive Content : Type :=
  | Text (text : jsstring)
  | Blocks (text : jsstring) (images : list ImageBlock).

(** [SDKUserMessage] *)
Record SDKUserMessage : Type := mkUserMessage {
  content : Content;
  uuid : option jsstring;
  user_session_id : jsstring;
}.

(** [SDKMessage], by its discriminant. *)
Inductive MessageKind : Type :=
  | system (init : bool)
  | stream_event
  | assistant
  | tool_progress
  | result (success : bool)
  | user
  | auth_status (error : option jsstring)
  | unhandled.

Record SDKMessage : Type := mkMessage {
  session_id : option jsstring;
  kind : MessageKind;
}.

(** [SessionState].  [query] is the vendor handle, named by the number of
    the object; [input] is the state of the input stream that the closures
    [pushMessage] and [closeInput] share. *)
Record SessionState : Type := mkSession {
  sessionId : jsstring;
  workspaceId : jsstring;
  cwd : jsstring;
  query : option nat;
  input : InputStream.state SDKUserMessage;
  createdAt : N;
  status : Status;
}.

(** The manager and the objects it shares with its closures.  A
    [SessionState] object is reachable from the table, from the consumer
    loop that [processMessages] runs for it and from the accessor given to
    the permission callback, so the objects live in a store of their own
    and the table holds references.  [consumers] are the loops that have
    not ended; [resumedAs] holds, for an object made by [resumeSession],
    the constant its accessor returns. *)
Record manager : Type := mkManager {
  objects : gmap nat SessionState;
  sessions : gmap jsstring nat;
  workspaceToSession : gmap jsstring jsstring;
  consumers : gset nat;
  resumedAs : gmap nat jsstring;
  permissionHandler : Permission.handler;
  emitted : list BridgeEvent;
  allocated : nat;
}.

Definition newManager (h : Permission.handler) : manager :=
  mkManager ∅ ∅ ∅ ∅ ∅ h [] 0.

(** *** Updates of single parts *)

Definition setObject (o : nat) (s : SessionState) (m : manager) : manager :=
  mkManager (<[o := s]> (objects m)) (sessions m) (workspaceToSession m)
    (consumers m) (resumedAs m) (permissionHandler m) (emitted m) (allocated m).

Definition setSessions (t : gmap jsstring nat) (m : manager) : manager :=
  mkManager (objects m) t (workspaceToSession m) (consumers m) (resumedAs m)
    (permissionHandler m) (emitted m) (allocated m).

Definition setIndex (t : gmap jsstring jsstring) (m : manager) : manager :=
  mkManager (objects m) (sessions m) t (consumers m) (resumedAs m)
    (permissionHandler m) (emitted m) (allocated m).

Definition setPermissionHandler (h : Permission.handler) (m : manager) : manager :=
  mkManager (objects m) (sessions m) (workspaceToSession m) (consumers m)
    (resumedAs m) h (emitted m) (allocated m).

Definition emit (p : Payload) (sid wid : jsstring) (m : manager) : manager :=
  mkManager (objects m) (sessions m) (workspaceToSession m) (consumers m)
    (resumedAs m) (permissionHandler m) (emitted m ++ [mkEvent p sid wid])
    (allocated m).

(** A new object with a running consumer loop. *)
Definition allocate (s : SessionState) (resumed : option jsstring) (m : manager)
  : manager :=
  mkManager (<[allocated m := s]> (objects m)) (sessions m)
    (workspaceToSession m) (consumers m)
    (match resumed with
     | Some id => <[allocated m := id]> (resumedAs m)
     | None => resumedAs m
     end)
    (permissionHandler m) (emitted m) (S (allocated m)).

Definition startConsumer (o : nat) (m : manager) : manager :=
  mkManager (objects m) (sessions m) (workspaceToSession m)
    ({[o]} ∪ consumers m) (resumedAs m) (permissionHandler m) (emitted m)
    (allocated m).

Definition stopConsumer (o : nat) (m : manager) : manager :=
  mkManager (objects m) (sessions m) (workspaceToSession m)
    (consumers m ∖ {[o]}) (resumedAs m) (permissionHandler m) (emitted m)
    (allocated m).

Definition withStatus (st : Status) (s : SessionState) : SessionState :=
  mkSession (sessionId s) (workspaceId s) (cwd s) (query s) (input s)
    (createdAt s) st.

Definition withSessionId (id : jsstring) (s : SessionState) : SessionState :=
  mkSession id (workspaceId s) (cwd s) (query s) (input s) (createdAt s)
    (status s).

Definition withQuery (q : nat) (s : SessionState) : SessionState :=
  mkSession (sessionId s) (workspaceId s) (cwd s) (Some q) (input s)
    (createdAt s) (status s).

Definition withInput (i : InputStream.state SDKUserMessage) (s : SessionState)
  : SessionState :=
  mkSession (sessionId s) (workspaceId s) (cwd s) (query s) i (createdAt s)
    (status s).

(** [this.sessions.get(sessionId)], followed to the object. *)
Definition getSession (id : jsstring) (m : manager) : option SessionState :=
  o ← sessions m !! id; objects m !! o.

(** [getSessionForWorkspace] *)
Definition getSessionForWorkspace (wid : jsstring) (m : manager)
  : option jsstring :=
  workspaceToSession m !! wid.

(** [isSessionActive] *)
Definition isSessionActive (id : jsstring) (m : manager) : bool :=
  match getSession id m with
  | Some s => bool_decide (status s = active)
  | None => false
  end.

Definition statusName (st : Status) : jsstring :=
  match st with
  | starting => js "starting"
  | active => js "active"
  | closing => js "closing"
  | closed => js "closed"
  end.

(** [`pending-${Date.now()}`] *)
Definition pendingId (now : N) : jsstring :=
  js "pending-" ++ decimal now.

(** The guard at the head of [startSession]: the session the index names
    for the workspace, when it is in the table with status [active]. *)
Definition activeSessionOf (wid : jsstring) (m : manager) : option jsstring :=
  match workspaceToSession m !! wid with
  | Some existingSessionId =>
      if isEmpty existingSessionId then None
      else
        match getSession existingSessionId m with
        | Some existing =>
            if bool_decide (status existing = active)
            then Some existingSessionId else None
        | None => None
        end
  | None => None
  end.

(** [startSession(workspaceId, cwd, options)] at time [now]; [queryThrows]
    is the error with which the vendor's [query] throws, if it does.  The
    options are handed to the vendor and leave no trace in the manager. *)
Definition startSession (now : N) (wid cwd_ : jsstring)
    (queryThrows : option jsstring) (m : manager) : manager * outcome jsstring :=
  match activeSessionOf wid m with
  | Some existingSessionId =>
      (m, Throws (js "Workspace " ++ wid
                  ++ js " already has an active session: " ++ existingSessionId))
  | None =>
      let tempSessionId := pendingId now in
      let o := allocated m in
      let sessionState :=
        mkSession tempSessionId wid cwd_ None InputStream.createInputStream now
          starting in
      let m := allocate sessionState None m in
      let m := setSessions (<[tempSessionId := o]> (sessions m)) m in
      match queryThrows with
      | Some error =>
          (setSessions (delete tempSessionId (sessions m)) m, Throws error)
      | None =>
          let m := setObject o (withQuery o sessionState) m in
          (startConsumer o m, Returns tempSessionId)
      end
  end.

(** [resumeSession(workspaceId, sessionId, cwd, options)] *)
Definition resumeSession (now : N) (wid sid cwd_ : jsstring)
    (queryThrows : option jsstring) (m : manager) : manager * outcome unit :=
  if isSessionActive sid m
  then (m, Throws (js "Session " ++ sid ++ js " is already active"))
  else
    let o := allocated m in
    let sessionState :=
      mkSession sid wid cwd_ None InputStream.createInputStream now starting in
    let m := allocate sessionState (Some sid) m in
    let m := setSessions (<[sid := o]> (sessions m)) m in
    let m := setIndex (<[wid := sid]> (workspaceToSession m)) m in
    match queryThrows with
    | Some error =>
        let m := setSessions (delete sid (sessions m)) m in
        (setIndex (delete wid (workspaceToSession m)) m, Throws error)
    | None =>
        let m := setObject o (withQuery o sessionState) m in
        (startConsumer o m, Returns ())
    end.

(** The media type [sendMessage] derives from the extension. *)
Definition mediaType (ext : jsstring) : jsstring :=
  if bool_decide (ext = js ".jpg") || bool_decide (ext = js ".jpeg")
  then js "image/jpeg"
  else if bool_decide (ext = js ".gif") then js "image/gif"
  else if bool_decide (ext = js ".webp") then js "image/webp"
  else if bool_decide (ext = js ".bmp") then js "image/bmp"
  else if bool_decide (ext = js ".tif") || bool_decide (ext = js ".tiff")
  then js "image/tiff"
  else js "image/png".

(** The loop over the attachments: the blocks read so far, or the error
    of the first [readFile] that throws. *)
Fixpoint readImages (images : list Attachment) : outcome (list ImageBlock) :=
  match images with
  | [] => Returns []
  | a :: rest =>
      match fileData a with
      | Throws e => Throws e
      | Returns bytes =>
          match readImages rest with
          | Returns blocks => Returns (mkImage (mediaType (extension a)) bytes :: blocks)
          | Throws e => Throws e
          end
      end
  end.

(** [sendMessage(sessionId, message, images?, messageId?)] *)
Definition sendMessage (sid message : jsstring) (images : option (list Attachment))
    (messageId : option jsstring) (m : manager) : manager * outcome unit :=
  match sessions m !! sid with
  | None => (m, Throws (js "Session not found: " ++ sid))
  | Some o =>
      match objects m !! o with
      | None => (m, Throws (js "Session not found: " ++ sid))
      | Some session =>
          if negb (bool_decide (status session = active))
             && negb (bool_decide (status session = starting))
          then (m, Throws (js "Session " ++ sid ++ js " is not active (status: "
                           ++ statusName (status session) ++ js ")"))
          else
            match readImages (default [] images) with
            | Throws e => (m, Throws e)
            | Returns blocks =>
                let userMessage :=
                  mkUserMessage
                    (match blocks with
                     | [] => Text message
                     | _ => Blocks message blocks
                     end)
                    messageId (sessionId session) in
                let '(i, _) := InputStream.push userMessage (input session) in
                (setObject o (withInput i session) m, Returns ())
            end
      end
  end.

(** Text messages without images sent to one session in turn, with what
    each call returned. *)
Fixpoint sendAll (sid : jsstring) (texts : list (jsstring * option jsstring))
    (m : manager) : manager * list (outcome unit) :=
  match texts with
  | [] => (m, [])
  | (message, messageId) :: rest =>
      let '(m1, r) := sendMessage sid message None messageId m in
      let '(m2, rs) := sendAll sid rest m1 in
      (m2, r :: rs)
  end.

(** [closeSession(sessionId)] *)
Definition closeSession (sid : jsstring) (m : manager) : manager :=
  match sessions m !! sid with
  | None => m
  | Some o =>
      match objects m !! o with
      | None => m
      | Some session =>
          let m := setPermissionHandler
                     (Permission.cancelForSession sid (permissionHandler m)) m in
          let '(i, _) := InputStream.close (input session) in
          let m := setObject o (withInput i (withStatus closing session)) m in
          let m := setSessions (delete sid (sessions m)) m in
          let m :=
            if bool_decide (workspaceToSession m !! workspaceId session = Some sid)
            then setIndex (delete (workspaceId session) (workspaceToSession m)) m
            else m in
          emit (SessionClosed (js "user")) sid (workspaceId session) m
      end
  end.

(** [closeAll()]: the keys of the table in turn.  (Key order here,
    insertion order in a [Map].) *)
Definition closeAll (m : manager) : manager :=
  foldl (λ m kv, closeSession kv.1 m) m (map_to_list (sessions m)).

(** The first block of [handleMessage]: a session whose id still has the
    pending form takes the id of the message, and the table and the index
    are re-keyed. *)
Definition promoteId (msg : SDKMessage) (o : nat) (sessionState : SessionState)
    (m : manager) : manager :=
  match session_id msg with
  | Some real =>
      if startsWith (sessionId sessionState) (js "pending-") && negb (isEmpty real)
      then
        let oldId := sessionId sessionState in
        let m := setObject o (withSessionId real sessionState) m in
        let m := setSessions (<[real := o]> (delete oldId (sessions m))) m in
        setIndex (<[workspaceId sessionState := real]> (workspaceToSession m)) m
      else m
  | None => m
  end.

(** The [switch] of [handleMessage]; [sid] is the constant [sessionId]
    computed at the head of the function. *)
Definition routeMessage (msg : SDKMessage) (sid wid : jsstring) (o : nat)
    (m : manager) : manager :=
  match kind msg with
  | system true =>
      let m :=
        match objects m !! o with
        | Some s => setObject o (withStatus active s) m
        | None => m
        end in
      emit SessionStarted sid wid m
  | system false => m
  | stream_event => emit MessageDelta sid wid m
  | assistant => emit MessageComplete sid wid m
  | tool_progress => emit ToolProgress sid wid m
  | result success => emit (ResultEvent success) sid wid m
  | user => m
  | auth_status (Some error) =>
      if isEmpty error then m
      else emit (ErrorEvent (js "AUTH_ERROR") error false) sid wid m
  | auth_status None => m
  | unhandled => m
  end.

(** [handleMessage(msg, sessionState, workspaceId)] for the object [o]. *)
Definition handleMessage (msg : SDKMessage) (o : nat) (m : manager) : manager :=
  match objects m !! o with
  | None => m
  | Some sessionState =>
      let sid := default (sessionId sessionState) (session_id msg) in
      routeMessage msg sid (workspaceId sessionState) o
        (promoteId msg o sessionState m)
  end.

(** The loop of [processMessages] over the messages of one query. *)
Definition consume (msgs : list SDKMessage) (o : nat) (m : manager) : manager :=
  foldl (λ m msg, handleMessage msg o m) m msgs.

Definition idOf (o : nat) (m : manager) : option jsstring :=
  sessionId <$> objects m !! o.

(** How many of the messages changed the id of the object. *)
Fixpoint replacements (msgs : list SDKMessage) (o : nat) (m : manager) : nat :=
  match msgs with
  | [] => 0
  | msg :: rest =>
      let m' := handleMessage msg o m in
      (if bool_decide (idOf o m' = idOf o m) then 0 else 1)
      + replacements rest o m'
  end.

(** The id has the form of a locally made one. *)
Definition isPendingId (id : jsstring) : bool := startsWith id (js "pending-").

(** A message whose id, if it has one, is not of the pending form. *)
Definition vendorAssigned (msg : SDKMessage) : bool :=
  match session_id msg with
  | Some real => negb (isPendingId real)
  | None => true
  end.

(** The end of the loop of [processMessages] for the object [o]: the
    [catch] block when the vendor stream threw [error], then [finally]. *)
Definition endOfMessages (error : option jsstring) (o : nat) (m : manager)
  : manager :=
  match objects m !! o with
  | None => m
  | Some sessionState =>
      let wid := workspaceId sessionState in
      let sid := sessionId sessionState in
      let m := stopConsumer o m in
      let m :=
        match error with
        | Some e => emit (ErrorEvent (js "MESSAGE_PROCESSING_ERROR") e false) sid wid m
        | None => m
        end in
      match sessions m !! sid with
      | None => m
      | Some _ =>
          let m := setObject o (withStatus closed sessionState) m in
          let m := setSessions (delete sid (sessions m)) m in
          let m :=
            if bool_decide (workspaceToSession m !! wid = Some sid)
            then setIndex (delete wid (workspaceToSession m)) m
            else m in
          emit (SessionClosed (js "completed")) sid wid m
      end
  end.

(** What the accessor given to [createCallback] returns for the object. *)
Definition getSessionId (o : nat) (m : manager) : option jsstring :=
  match resumedAs m !! o with
  | Some id => Some id
  | None => sessionId <$> objects m !! o
  end.

(** The vendor calls the permission callback of the object [o]. *)
Definition canUseTool (o : nat) (toolName toolUseID : jsstring) (m : manager)
  : manager :=
  match getSessionId o m, objects m !! o with
  | Some sid, Some s =>
      let '(h, r) :=
        Permission.canUseTool sid (workspaceId s) toolName toolUseID
          (permissionHandler m) in
      emit (PermissionRequested toolName toolUseID) sid (workspaceId s)
        (setPermissionHandler h m)
  | _, _ => m
  end.

(** What one call leaves alone, as seen from the object [o]. *)
Record keeps (o : nat) (m m' : manager) : Prop := mkKeeps {
  keeps_sessions : sessions m' = sessions m;
  keeps_index : workspaceToSession m' = workspaceToSession m;
  keeps_resumed : resumedAs m' = resumedAs m;
  keeps_object : ∀ s, objects m !! o = Some s →
    ∃ s', objects m' !! o = Some s'
          ∧ sessionId s' = sessionId s ∧ workspaceId s' = workspaceId s;
}.

(** The table is keyed by the current id of each session it holds, and
    object numbers are given out once. *)
Record sound (m : manager) : Prop := mkSound {
  sound_table : ∀ sid o, sessions m !! sid = Some o →
    ∃ s, objects m !! o = Some s ∧ sessionId s = sid;
  sound_alloc : ∀ o s, objects m !! o = Some s → o < allocated m;
}.

End SessionManager.

(** ** The command loop (index.ts) *)

Module Bridge.

Import SessionManager.

Record ClientInfo : Type := mkClientInfo {
  name : jsstring;
  version : jsstring;
}.

(** [AnyBridgeCommand]: the method with its parameters.  A method outside
    [CommandMethod] reaches the [default] branch. *)
Inductive Command : Type :=
  | initialize (clientInfo : ClientInfo)
  | session_start (workspaceId cwd : jsstring)
  | session_resume (workspaceId sessionId cwd : jsstring)
  | session_close (sessionId : jsstring)
  | session_rewind (sessionId userMessageId : jsstring) (dryRun : option bool)
  | message_send (sessionId workspaceId message : jsstring)
      (images : option (list Attachment)) (messageId : option jsstring)
  | message_interrupt (sessionId : jsstring)
  | permission_respond (sessionId toolUseId : jsstring)
      (decision : Permission.Decision) (message : option jsstring)
      (updatedPermissions : option (list Permission.PermissionUpdate))
  | model_list (sessionId : jsstring)
  | model_set (sessionId model : jsstring)
  | command_list (sessionId : option jsstring)
  | mcp_status (sessionId : jsstring)
  | mcp_set (sessionId servers : jsstring)
  | other_method (method : jsstring).

(** Calls on the vendor's [Query] handle; what they return, or throw, is
    up to the vendor. *)
Inductive VendorCall : Type :=
  | interrupt (q : nat)
  | supportedModels (q : nat)
  | supportedCommands (q : nat)
  | mcpServerStatus (q : nat)
  | setModel (q : nat) (model : jsstring)
  | rewindFiles (q : nat) (userMessageId : jsstring) (dryRun : option bool)
  | setMcpServers (q : nat) (servers : jsstring).

Inductive ResultValue : Type :=
  | Capabilities (methods : list jsstring)
  | SessionId (sessionId : jsstring)
  | Success (success : bool)
  | Commands (commands : list jsstring).

(** What [handleCommand] comes to: a result, a thrown error (the loop
    answers with [{id, error}]), or whatever the vendor call comes to. *)
Inductive Reply : Type :=
  | Result (r : ResultValue)
  | Error (message : jsstring)
  | Vendor (call : VendorCall).

Definition isError (r : Reply) : bool :=
  match r with Error _ => true | _ => false end.

(** The module state of index.ts with the two singletons it imports;
    [responses] are the response lines written so far. *)
Record bridge : Type := mkBridge {
  initialized : bool;
  clientInfo_ : ClientInfo;
  sessionManager : manager;
  responses : list (N * Reply);
}.

Definition boot : bridge :=
  mkBridge false (mkClientInfo (js "unknown") (js "0.0.0"))
    (newManager (Permission.newPermissionHandler
                   Permission.DEFAULT_PERMISSION_TIMEOUT_MS))
    [].

(** What the environment decides during a command: the clock and whether
    the vendor's [query] throws. *)
Record Env : Type := mkEnv {
  now : N;
  queryThrows : option jsstring;
}.

Definition withManager (m : manager) (b : bridge) : bridge :=
  mkBridge (initialized b) (clientInfo_ b) m (responses b).

Definition capabilities : list jsstring :=
  [js "session/start"; js "session/resume"; js "session/close";
   js "session/rewind"; js "message/send"; js "message/interrupt";
   js "permission/respond"; js "model/list"; js "model/set";
   js "command/list"; js "mcp/status"; js "mcp/set"].

Definition handleInitialize (info : ClientInfo) (b : bridge) : bridge * Reply :=
  if initialized b then (b, Error (js "Bridge already initialized"))
  else (mkBridge true info (sessionManager b) (responses b),
        Result (Capabilities capabilities)).

Definition handleSessionStart (env : Env) (wid cwd_ : jsstring) (b : bridge)
  : bridge * Reply :=
  if negb (initialized b) then (b, Error (js "Bridge not initialized"))
  else
    match startSession (now env) wid cwd_ (queryThrows env) (sessionManager b) with
    | (m, Returns sid) => (withManager m b, Result (SessionId sid))
    | (m, Throws e) => (withManager m b, Error e)
    end.

Definition handleSessionResume (env : Env) (wid sid cwd_ : jsstring) (b : bridge)
  : bridge * Reply :=
  if negb (initialized b) then (b, Error (js "Bridge not initialized"))
  else
    match resumeSession (now env) wid sid cwd_ (queryThrows env) (sessionManager b) with
    | (m, Returns _) => (withManager m b, Result (Success true))
    | (m, Throws e) => (withManager m b, Error e)
    end.

Definition handleSessionClose (sid : jsstring) (b : bridge) : bridge * Reply :=
  (withManager (closeSession sid (sessionManager b)) b, Result (Success true)).

Definition handleMessageSend (sid message : jsstring)
    (images : option (list Attachment)) (messageId : option jsstring)
    (b : bridge) : bridge * Reply :=
  if negb (initialized b) then (b, Error (js "Bridge not initialized"))
  else
    match sendMessage sid message images messageId (sessionManager b) with
    | (m, Returns _) => (withManager m b, Result (Success true))
    | (m, Throws e) => (withManager m b, Error e)
    end.

(** [sessionManager.interrupt(sessionId)] *)
Definition handleMessageInterrupt (sid : jsstring) (b : bridge) : bridge * Reply :=
  match getSession sid (sessionManager b) with
  | None => (b, Error (js "Session not found: " ++ sid))
  | Some session =>
      match query session with
      | None => (b, Error (js "Session " ++ sid ++ js " has no active query"))
      | Some q => (b, Vendor (interrupt q))
      end
  end.

Definition handlePermissionRespond (toolUseId : jsstring)
    (decision : Permission.Decision) (message : option jsstring)
    (updatedPermissions : option (list Permission.PermissionUpdate))
    (b : bridge) : bridge * Reply :=
  let '(h, success) :=
    Permission.respond toolUseId decision message updatedPermissions
      (permissionHandler (sessionManager b)) in
  (withManager (setPermissionHandler h (sessionManager b)) b,
   Result (Success success)).

(** The lookup shared by [listModels], [getMcpStatus], [rewindFiles],
    [setMcpServers] and [handleModelSet]: [session?.query]. *)
Definition queryOf (sid : jsstring) (b : bridge) : option nat :=
  s ← getSession sid (sessionManager b); query s.

Definition handleModelList (sid : jsstring) (b : bridge) : bridge * Reply :=
  if isEmpty sid then (b, Error (js "sessionId required for model listing"))
  else
    match queryOf sid b with
    | None => (b, Error (js "Session not found or inactive: " ++ sid))
    | Some q => (b, Vendor (supportedModels q))
    end.

Definition handleCommandList (sid : option jsstring) (b : bridge) : bridge * Reply :=
  match sid with
  | Some id =>
      if isEmpty id then (b, Result (Commands []))
      else
        match queryOf id b with
        | Some q => (b, Vendor (supportedCommands q))
        | None => (b, Result (Commands []))
        end
  | None => (b, Result (Commands []))
  end.

Definition handleMcpStatus (sid : jsstring) (b : bridge) : bridge * Reply :=
  match queryOf sid b with
  | None => (b, Error (js "Session not found or inactive: " ++ sid))
  | Some q => (b, Vendor (mcpServerStatus q))
  end.

Definition handleModelSet (sid model : jsstring) (b : bridge) : bridge * Reply :=
  match queryOf sid b with
  | None => (b, Error (js "Session not found or not active: " ++ sid))
  | Some q => (b, Vendor (setModel q model))
  end.

Definition handleRewindFiles (sid userMessageId : jsstring) (dryRun : option bool)
    (b : bridge) : bridge * Reply :=
  match queryOf sid b with
  | None => (b, Error (js "Session not found or inactive: " ++ sid))
  | Some q => (b, Vendor (rewindFiles q userMessageId dryRun))
  end.

Definition handleSetMcpServers (sid servers : jsstring) (b : bridge)
  : bridge * Reply :=
  match queryOf sid b with
  | None => (b, Error (js "Session not found or inactive: " ++ sid))
  | Some q => (b, Vendor (setMcpServers q servers))
  end.

Definition handleCommand (env : Env) (c : Command) (b : bridge) : bridge * Reply :=
  match c with
  | initialize info => handleInitialize info b
  | session_start wid cwd_ => handleSessionStart env wid cwd_ b
  | session_resume wid sid cwd_ => handleSessionResume env wid sid cwd_ b
  | session_close sid => handleSessionClose sid b
  | message_send sid _ message images messageId =>
      handleMessageSend sid message images messageId b
  | message_interrupt sid => handleMessageInterrupt sid b
  | permission_respond _ toolUseId decision message updatedPermissions =>
      handlePermissionRespond toolUseId decision message updatedPermissions b
  | model_list sid => handleModelList sid b
  | model_set sid model => handleModelSet sid model b
  | command_list sid => handleCommandList sid b
  | mcp_status sid => handleMcpStatus sid b
  | session_rewind sid userMessageId dryRun =>
      handleRewindFiles sid userMessageId dryRun b
  | mcp_set sid servers => handleSetMcpServers sid servers b
  | other_method method => (b, Error (js "Unknown method: " ++ method))
  end.

(** What reaches the bridge: a command line on stdin, and the calls the
    vendor and the runtime make into the closures the bridge handed out. *)
Inductive input : Type :=
  | CommandLine (id : N) (c : Command) (env : Env)
  | VendorMessage (o : nat) (msg : SDKMessage)
  | VendorEnd (o : nat) (error : option jsstring)
  | VendorCanUseTool (o : nat) (toolName toolUseID : jsstring)
  | TimerFires (n : nat)
  | AbortFires (n : nat).

(** One turn of the loop of [main], or one callback.  A consumer loop
    hands messages on only while it runs. *)
Definition step (i : input) (b : bridge) : bridge :=
  match i with
  | CommandLine id c env =>
      let '(b', reply) := handleCommand env c b in
      mkBridge (initialized b') (clientInfo_ b') (sessionManager b')
        (responses b' ++ [(id, reply)])
  | VendorMessage o msg =>
      if bool_decide (o ∈ consumers (sessionManager b))
      then withManager (handleMessage msg o (sessionManager b)) b else b
  | VendorEnd o error =>
      if bool_decide (o ∈ consumers (sessionManager b))
      then withManager (endOfMessages error o (sessionManager b)) b else b
  | VendorCanUseTool o toolName toolUseID =>
      if bool_decide (o ∈ consumers (sessionManager b))
      then withManager (canUseTool o toolName toolUseID (sessionManager b)) b
      else b
  | TimerFires n =>
      withManager
        (setPermissionHandler
           (Permission.timeout n (permissionHandler (sessionManager b)))
           (sessionManager b)) b
  | AbortFires n =>
      withManager
        (setPermissionHandler
           (Permission.abort n (permissionHandler (sessionManager b)))
           (sessionManager b)) b
  end.

Definition run (inputs : list input) (b : bridge) : bridge :=
  foldl (λ b i, step i b) b inputs.

(** The [shutdown] closure of [main], up to the exit of the process:
    [cancelAll()] on the permissions, then [closeAll()] on the sessions. *)
Definition shutdown (b : bridge) : bridge :=
  withManager
    (closeAll
       (setPermissionHandler
          (Permission.cancelAll (permissionHandler (sessionManager b)))
          (sessionManager b)))
    b.

(** The ids of the command lines among the inputs, in order. *)
Fixpoint commandIds (inputs : list input) : list N :=
  match inputs with
  | [] => []
  | CommandLine id _ _ :: rest => id :: commandIds rest
  | _ :: rest => commandIds rest
  end.

(** The tool-use ids of the permission requests among the inputs, in
    order. *)
Fixpoint toolUseIds (inputs : list input) : list jsstring :=
  match inputs with
  | [] => []
  | VendorCanUseTool _ _ toolUseID :: rest => toolUseID :: toolUseIds rest
  | _ :: rest => toolUseIds rest
  end.

(** The session is in the table, belongs to the workspace and has status
    [starting] or [active]. *)
Definition isLive (wid : jsstring) (m : manager) (id : jsstring) : bool :=
  match getSession id m with
  | Some s =>
      bool_decide (workspaceId s = wid)
      && (bool_decide (status s = starting) || bool_decide (status s = active))
  | None => false
  end.

Definition liveSessions (wid : jsstring) (m : manager) : list jsstring :=
  filter (λ id, isLive wid m id = true) (map_to_list (sessions m)).*1.

(** The manager is as it was when the bridge started. *)
Definition untouched (b : bridge) : Prop :=
  sessionManager b
  = newManager (Permission.newPermissionHandler
                  Permission.DEFAULT_PERMISSION_TIMEOUT_MS).

End Bridge.

(** ** Thread state of the UI (useThreads.ts and its reducer) *)

Module Threads.

Record ThreadSummary : Type := mkThread {
  id : jsstring;
  name : jsstring;
}.

Record ThreadStatus : Type := mkStatus {
  isProcessing : bool;
  hasUnread : bool;
  isReviewing : bool;
  processingStartedAt : option N;
  lastDurationMs : option N;
}.

(** The tables of [ThreadState] that are keyed by thread or workspace.
    Objects used as maps are finite maps; a key that is absent stands for
    a value that is [undefined] or [null], which the reducer does not tell
    apart.  Items, token usage, plans and last messages are carried as
    they are; an active turn id is a string, which may be empty. *)
Record ThreadState : Type := mkThreadState {
  activeThreadIdByWorkspace : gmap jsstring jsstring;
  itemsByThread : gmap jsstring (list jsstring);
  threadsByWorkspace : gmap jsstring (list ThreadSummary);
  threadStatusById : gmap jsstring ThreadStatus;
  activeTurnIdByThread : gmap jsstring jsstring;
  tokenUsageByThread : gmap jsstring jsstring;
  planByThread : gmap jsstring jsstring;
  lastAgentMessageByThread : gmap jsstring jsstring;
}.

Definition initialState : ThreadState :=
  mkThreadState ∅ ∅ ∅ ∅ ∅ ∅ ∅ ∅.

Inductive ThreadAction : Type :=
  | setActiveThreadId (workspaceId : jsstring) (threadId : option jsstring)
  | ensureThread (workspaceId threadId : jsstring)
  | migrateThread (workspaceId fromThreadId toThreadId : jsstring)
  | removeThread (workspaceId threadId : jsstring)
  | markProcessing (threadId : jsstring) (isProcessing : bool) (timestamp : N)
  | setActiveTurnId (threadId : jsstring) (turnId : option jsstring)
  | markReviewing (threadId : jsstring) (isReviewing : bool)
  | markUnread (threadId : jsstring) (hasUnread : bool).

(** [{...table, [key]: value}] for a value that may be [null]. *)
Definition assign {V : Type} (key : jsstring) (value : option V)
    (table : gmap jsstring V) : gmap jsstring V :=
  match value with
  | Some v => <[key := v]> table
  | None => delete key table
  end.

(** The pattern of [migrateThread] for a table keyed by thread,
    [if (table[from]) { next[to] = table[from]; delete next[from]; }]: an
    entry under the old key moves to the new key when its value is truthy.
    [truthy] is the truth value of the values of the table: objects are
    always truthy, a string is truthy unless it is empty. *)
Definition moveKey {V : Type} (truthy : V → bool) (from to : jsstring)
    (table : gmap jsstring V) : gmap jsstring V :=
  match table !! from with
  | Some v => if truthy v then delete from (<[to := v]> table) else table
  | None => table
  end.

(** The truth value of an object. *)
Definition object {V : Type} (v : V) : bool := true.

(** The truth value of a string. *)
Definition nonEmpty (s : jsstring) : bool := negb (isEmpty s).

(** The truth value of [startedAt] in [wasProcessing && startedAt]: a
    time stamp that is neither [null] nor 0. *)
Definition running_since (startedAt : option N) : bool :=
  match startedAt with
  | Some t => negb (t =? 0)%N
  | None => false
  end.

Definition threadReducer (state : ThreadState) (action : ThreadAction)
  : ThreadState :=
  match action with
  | setActiveThreadId wid threadId =>
      mkThreadState
        (assign wid threadId (activeThreadIdByWorkspace state))
        (itemsByThread state)
        (threadsByWorkspace state)
        (match threadId with
         | Some t =>
             if isEmpty t then threadStatusById state
             else
               let old := threadStatusById state !! t in
               <[t := mkStatus
                        (default false (isProcessing <$> old))
                        false
                        (default false (isReviewing <$> old))
                        (old ≫= processingStartedAt)
                        (old ≫= lastDurationMs)]>
                 (threadStatusById state)
         | None => threadStatusById state
         end)
        (activeTurnIdByThread state) (tokenUsageByThread state)
        (planByThread state) (lastAgentMessageByThread state)
  | ensureThread wid threadId =>
      let list := default [] (threadsByWorkspace state !! wid) in
      if existsb (λ thread, bool_decide (id thread = threadId)) list
      then state
      else
        let thread :=
          mkThread threadId
            (js "Agent " ++ decimal (N.of_nat (length list + 1))) in
        mkThreadState
          (<[wid := default threadId (activeThreadIdByWorkspace state !! wid)]>
             (activeThreadIdByWorkspace state))
          (itemsByThread state)
          (<[wid := thread :: list]> (threadsByWorkspace state))
          (<[threadId := mkStatus false false false None None]>
             (threadStatusById state))
          (activeTurnIdByThread state) (tokenUsageByThread state)
          (planByThread state) (lastAgentMessageByThread state)
  | migrateThread wid from to =>
      if bool_decide (from = to) then state
      else
        let items := default [] (itemsByThread state !! from) in
        let threads := default [] (threadsByWorkspace state !! wid) in
        let updatedThreads :=
          map (λ thread, if bool_decide (id thread = from)
                         then mkThread to (name thread) else thread) threads in
        mkThreadState
          (assign wid
             (match activeThreadIdByWorkspace state !! wid with
              | Some a => if bool_decide (a = from) then Some to else Some a
              | None => None
              end)
             (activeThreadIdByWorkspace state))
          (<[to := items]> (delete from (itemsByThread state)))
          (<[wid := updatedThreads]> (threadsByWorkspace state))
          (moveKey object from to (threadStatusById state))
          (moveKey nonEmpty from to (activeTurnIdByThread state))
          (moveKey object from to (tokenUsageByThread state))
          (moveKey object from to (planByThread state))
          (moveKey object from to (lastAgentMessageByThread state))
  | removeThread wid threadId =>
      let list := default [] (threadsByWorkspace state !! wid) in
      let filtered := filter (λ thread, id thread ≠ threadId) list in
      let nextActive :=
        match activeThreadIdByWorkspace state !! wid with
        | Some a => if bool_decide (a = threadId) then id <$> head filtered else Some a
        | None => None
        end in
      mkThreadState
        (assign wid nextActive (activeThreadIdByWorkspace state))
        (delete threadId (itemsByThread state))
        (<[wid := filtered]> (threadsByWorkspace state))
        (delete threadId (threadStatusById state))
        (delete threadId (activeTurnIdByThread state))
        (tokenUsageByThread state)
        (delete threadId (planByThread state))
        (lastAgentMessageByThread state)
  | markProcessing threadId processing timestamp =>
      let previous := threadStatusById state !! threadId in
      let wasProcessing := default false (isProcessing <$> previous) in
      let startedAt := previous ≫= processingStartedAt in
      let lastDuration := previous ≫= lastDurationMs in
      let running := wasProcessing && running_since startedAt in
      mkThreadState
        (activeThreadIdByWorkspace state) (itemsByThread state)
        (threadsByWorkspace state)
        (<[threadId :=
             if processing
             then mkStatus true
                    (default false (hasUnread <$> previous))
                    (default false (isReviewing <$> previous))
                    (if running then startedAt else Some timestamp)
                    lastDuration
             else mkStatus false
                    (default false (hasUnread <$> previous))
                    (default false (isReviewing <$> previous))
                    None
                    (if running
                     (* [Math.max(0, timestamp - startedAt)]; the
                        subtraction of [N] stops at 0 as well *)
                     then Some (N.max 0 (timestamp - default 0%N startedAt))
                     else lastDuration)]>
           (threadStatusById state))
        (activeTurnIdByThread state) (tokenUsageByThread state)
        (planByThread state) (lastAgentMessageByThread state)
  | setActiveTurnId threadId turnId =>
      mkThreadState
        (activeThreadIdByWorkspace state) (itemsByThread state)
        (threadsByWorkspace state) (threadStatusById state)
        (assign threadId turnId (activeTurnIdByThread state))
        (tokenUsageByThread state) (planByThread state)
        (lastAgentMessageByThread state)
  | markReviewing threadId reviewing =>
      let old := threadStatusById state !! threadId in
      mkThreadState
        (activeThreadIdByWorkspace state) (itemsByThread state)
        (threadsByWorkspace state)
        (<[threadId := mkStatus
                         (default false (isProcessing <$> old))
                         (default false (hasUnread <$> old))
                         reviewing
                         (old ≫= processingStartedAt)
                         (old ≫= lastDurationMs)]>
           (threadStatusById state))
        (activeTurnIdByThread state) (tokenUsageByThread state)
        (planByThread state) (lastAgentMessageByThread state)
  | markUnread threadId unread =>
      let old := threadStatusById state !! threadId in
      mkThreadState
        (activeThreadIdByWorkspace state) (itemsByThread state)
        (threadsByWorkspace state)
        (<[threadId := mkStatus
                         (default false (isProcessing <$> old))
                         unread
                         (default false (isReviewing <$> old))
                         (old ≫= processingStartedAt)
                         (old ≫= lastDurationMs)]>
           (threadStatusById state))
        (activeTurnIdByThread state) (tokenUsageByThread state)
        (planByThread state) (lastAgentMessageByThread state)
  end.

(** The actions over which the processing clock of the thread [tid] keeps
    running: every action but a stop mark for the thread and the actions
    that create, remove or re-key its status entry. *)
Definition quiet (tid : jsstring) (a : ThreadAction) : bool :=
  match a with
  | setActiveThreadId _ _ => true
  | ensureThread _ t => negb (bool_decide (t = tid))
  | migrateThread _ from to =>
      negb (bool_decide (from = tid)) && negb (bool_decide (to = tid))
  | removeThread _ t => negb (bool_decide (t = tid))
  | markProcessing t processing _ => processing || negb (bool_decide (t = tid))
  | setActiveTurnId _ _ => true
  | markReviewing _ _ => true
  | markUnread _ _ => true
  end.

(** The ids of the threads listed for a workspace, in list order. *)
Definition threadIds (state : ThreadState) (wid : jsstring) : list jsstring :=
  id <$> default [] (threadsByWorkspace state !! wid).

(** The hook: the reducer state and the refs the handlers update. *)
Record hook : Type := mkHook {
  state : ThreadState;
  pendingSessionByWorkspace : gmap jsstring jsstring;
  loadedThreads : gset jsstring;
}.

Definition dispatch (action : ThreadAction) (h : hook) : hook :=
  mkHook (threadReducer (state h) action) (pendingSessionByWorkspace h)
    (loadedThreads h).

(** What [startClaudeSession] does with the id the bridge answered. *)
Definition sessionRequested (wid pendingSessionId : jsstring) (h : hook) : hook :=
  if isEmpty pendingSessionId then h
  else
    let h := mkHook (state h)
               (<[wid := pendingSessionId]> (pendingSessionByWorkspace h))
               (loadedThreads h) in
    dispatch (setActiveThreadId wid (Some pendingSessionId))
      (dispatch (ensureThread wid pendingSessionId) h).

(** [claudeHandlers.onSessionStarted] for the event of a workspace and a
    session id. *)
Definition onSessionStarted (wid sid : jsstring) (h : hook) : hook :=
  let h :=
    match pendingSessionByWorkspace h !! wid with
    | Some pendingId =>
        if negb (isEmpty pendingId) && negb (bool_decide (pendingId = sid))
        then
          let h := dispatch (migrateThread wid pendingId sid) h in
          mkHook (state h) (<[wid := sid]> (pendingSessionByWorkspace h))
            (loadedThreads h)
        else dispatch (ensureThread wid sid) h
    | None => dispatch (ensureThread wid sid) h
    end in
  let h := dispatch (setActiveThreadId wid (Some sid)) h in
  mkHook (state h) (pendingSessionByWorkspace h) ({[sid]} ∪ loadedThreads h).

End Threads.

(** * Properties *)

(** ** JavaScript string methods against list prefixes and suffixes *)

Section js_facts.
Implicit Types s p : jsstring.

Lemma isEmpty_true s : isEmpty s = true ↔ s = [].
Proof. by destruct s. Qed.

Lemma isEmpty_false s : isEmpty s = false ↔ s ≠ [].
Proof. by destruct s. Qed.

Lemma startsWith_prefix s p : startsWith s p = true ↔ p `prefix_of` s.
Proof.
  unfold startsWith. rewrite bool_decide_eq_true. split.
  - intros <-. apply prefix_take.
  - intros [k ->]. by rewrite take_app_length.
Qed.

Lemma endsWith_suffix s p : endsWith s p = true ↔ p `suffix_of` s.
Proof.
  unfold endsWith. rewrite bool_decide_eq_true. split.
  - intros <-. apply suffix_drop.
  - intros [k ->]. rewrite length_app.
    replace (length k + length p - length p) with (length k) by lia.
    by rewrite drop_app_length.
Qed.

Lemma startsWith_false s p : startsWith s p = false ↔ ¬ p `prefix_of` s.
Proof. rewrite <- startsWith_prefix. by destruct (startsWith s p). Qed.

Lemma endsWith_false s p : endsWith s p = false ↔ ¬ p `suffix_of` s.
Proof. rewrite <- endsWith_suffix. by destruct (endsWith s p). Qed.

End js_facts.

(** ** Overlap-merge *)

Section merge_facts.
Implicit Types existing delta a b c e d : jsstring.

(** The loop returns [existing ++ delta.slice(k)] for the greatest [k] up
    to its start value such that [existing] ends with [delta.slice(0, k)];
    [k = 0] is the fall-through. *)
Lemma overlapLoop_greatest e d n :
  ∃ k, k ≤ n ∧ overlapLoop e d n = e ++ drop k d
       ∧ take k d `suffix_of` e
       ∧ ∀ j, k < j ≤ n → ¬ take j d `suffix_of` e.
Proof.
  induction n as [|n IH].
  - exists 0. split; [lia|]. split; [done|]. split; [apply suffix_nil|]. lia.
  - cbn [overlapLoop]. destruct (endsWith e (take (S n) d)) eqn:E.
    + exists (S n). apply endsWith_suffix in E.
      split; [lia|]. split; [done|]. split; [done|]. lia.
    + apply endsWith_false in E. destruct IH as (k & Hk & Heq & Hsuf & Hmax).
      exists k. split; [lia|]. split; [done|]. split; [done|].
      intros j Hj. destruct (decide (j = S n)) as [->|]; [done|].
      apply Hmax. lia.
Qed.

Lemma merge_empty_delta e : mergeStreamingText e [] = e.
Proof. done. Qed.

Lemma merge_empty_existing d : mergeStreamingText [] d = d.
Proof. by destruct d. Qed.

(** The last branch of [mergeStreamingText], reached when no early return
    applies. *)
Lemma merge_overlap_branch e d :
  d ≠ [] → e ≠ [] → d ≠ e → ¬ e `prefix_of` d → ¬ d `prefix_of` e →
  mergeStreamingText e d = overlapLoop e d (min (length e) (length d)).
Proof.
  intros Hd He Hne Hp1 Hp2. unfold mergeStreamingText.
  apply isEmpty_false in Hd as ->. apply isEmpty_false in He as ->.
  rewrite bool_decide_eq_false_2 by done.
  apply startsWith_false in Hp1 as ->. by apply startsWith_false in Hp2 as ->.
Qed.

(** Case analysis following the branches of the function. *)
Lemma merge_cases e d :
  (d = [] ∧ mergeStreamingText e d = e)
  ∨ (d ≠ [] ∧ e = [] ∧ mergeStreamingText e d = d)
  ∨ (d ≠ [] ∧ e ≠ [] ∧ d = e ∧ mergeStreamingText e d = e)
  ∨ (d ≠ [] ∧ e ≠ [] ∧ d ≠ e ∧ e `prefix_of` d ∧ mergeStreamingText e d = d)
  ∨ (d ≠ [] ∧ e ≠ [] ∧ d ≠ e ∧ ¬ e `prefix_of` d ∧ d `prefix_of` e
     ∧ mergeStreamingText e d = e)
  ∨ (d ≠ [] ∧ e ≠ [] ∧ d ≠ e ∧ ¬ e `prefix_of` d ∧ ¬ d `prefix_of` e
     ∧ mergeStreamingText e d = overlapLoop e d (min (length e) (length d))).
Proof.
  destruct (decide (d = [])) as [->|Hd]; [by left|right].
  destruct (decide (e = [])) as [->|He].
  { left. by rewrite merge_empty_existing. }
  right. destruct (decide (d = e)) as [->|Hne].
  { left. repeat (split; [done|]). unfold mergeStreamingText.
    apply isEmpty_false in He as ->. by rewrite bool_decide_eq_true_2. }
  right. unfold mergeStreamingText.
  pose proof Hd as Hd'. pose proof He as He'.
  apply isEmpty_false in Hd' as ->. apply isEmpty_false in He' as ->.
  rewrite bool_decide_eq_false_2 by done.
  destruct (startsWith d e) eqn:E1.
  { left. by apply startsWith_prefix in E1. }
  right. apply startsWith_false in E1.
  destruct (startsWith e d) eqn:E2.
  { left. by apply startsWith_prefix in E2. }
  right. by apply startsWith_false in E2.
Qed.

Lemma merge_self a : mergeStreamingText a a = a.
Proof. destruct (merge_cases a a) as [H|[H|[H|[H|[H|H]]]]]; naive_solver. Qed.

Lemma merge_extension a b : mergeStreamingText a (a ++ b) = a ++ b.
Proof.
  destruct (merge_cases a (a ++ b)) as [H|[H|[H|[H|[H|H]]]]].
  - destruct H as [H ->]. by apply app_eq_nil in H as [-> ->].
  - naive_solver.
  - destruct H as (_ & _ & H & ->). done.
  - naive_solver.
  - destruct H as (_ & _ & _ & H & _). destruct H. by apply prefix_app_r.
  - destruct H as (_ & _ & _ & H & _). destruct H. by apply prefix_app_r.
Qed.

(** When [b] is the greatest overlap and the early return for a delta that
    the text already starts with does not fire, the overlap is fused. *)
Lemma merge_overlap a b c :
  (∀ k, length b < k ≤ min (length (a ++ b)) (length (b ++ c)) →
        ¬ take k (b ++ c) `suffix_of` a ++ b) →
  (c = [] ∨ ¬ (b ++ c) `prefix_of` (a ++ b)) →
  mergeStreamingText (a ++ b) (b ++ c) = a ++ b ++ c.
Proof.
  intros Hmax Hpre.
  assert (Hfull : a ++ b `prefix_of` b ++ c → a = []).
  { intros Hp. destruct (decide (a = [])) as [|Ha]; [done|]. exfalso.
    assert (length a ≠ 0) by (by destruct a).
    pose proof (prefix_length _ _ Hp) as Hl.
    apply (Hmax (length (a ++ b))).
    - rewrite !length_app in *. lia.
    - destruct Hp as [k Hk]. rewrite Hk, take_app_length. done. }
  destruct (merge_cases (a ++ b) (b ++ c)) as [H|[H|[H|[H|[H|H]]]]].
  - destruct H as [H ->]. apply app_eq_nil in H as [-> ->]. by rewrite !app_nil_r.
  - destruct H as (_ & H & ->). by apply app_eq_nil in H as [-> ->].
  - destruct H as (_ & _ & H & ->).
    assert (a = []) as -> by (apply Hfull; by rewrite H).
    simpl in *. rewrite <- (app_nil_r b) in H at 2. apply app_inv_head in H as ->. by rewrite app_nil_r.
  - destruct H as (_ & _ & _ & H & ->). by rewrite (Hfull H).
  - destruct H as (_ & _ & _ & _ & H & ->).
    destruct Hpre as [->|Hn]; [|done]. by rewrite !app_nil_r.
  - destruct H as (_ & _ & _ & _ & _ & ->).
    destruct (overlapLoop_greatest (a ++ b) (b ++ c)
                (min (length (a ++ b)) (length (b ++ c))))
      as (k & Hk & -> & Hsuf & Hgt).
    assert (Hb : ¬ length b < k).
    { intros Hlt. by apply (Hmax k). }
    assert (Hb' : ¬ k < length b).
    { intros Hlt. apply (Hgt (length b)).
      - rewrite !length_app. lia.
      - rewrite take_app_length. by apply suffix_app_r. }
    assert (k = length b) as -> by lia.
    by rewrite drop_app_length, <- app_assoc.
Qed.

End merge_facts.
Section merge_fixed_points.
Implicit Types e d t : jsstring.

Lemma merge_length e d : length e ≤ length (mergeStreamingText e d).
Proof.
  destruct (merge_cases e d) as [H|[H|[H|[H|[H|H]]]]].
  - by destruct H as [_ ->].
  - destruct H as (_ & -> & _). simpl. lia.
  - by destruct H as (_ & _ & _ & ->).
  - destruct H as (_ & _ & _ & H & ->). by apply prefix_length.
  - by destruct H as (_ & _ & _ & _ & _ & ->).
  - destruct H as (_ & _ & _ & _ & _ & ->).
    destruct (overlapLoop_greatest e d (min (length e) (length d)))
      as (k & _ & -> & _). rewrite length_app. lia.
Qed.

(** A delta leaves the text as it is exactly when the text starts or ends
    with it. *)
Lemma merge_fixed_iff e d :
  mergeStreamingText e d = e ↔ d `prefix_of` e ∨ d `suffix_of` e.
Proof.
  destruct (merge_cases e d) as [H|[H|[H|[H|[H|H]]]]].
  - destruct H as [-> ->]. split; [|done]. intros _. left. apply prefix_nil.
  - destruct H as (Hd & -> & ->). split; [by intros ->|].
    intros [H|H]; [by apply prefix_nil_inv in H | by apply suffix_nil_inv in H].
  - destruct H as (_ & _ & -> & ->). split; [|done]. by left.
  - destruct H as (_ & _ & Hne & Hp & ->). split; [done|].
    intros [H|H]; [by apply (anti_symm prefix) |].
    apply prefix_length in Hp as Hl1. apply suffix_length in H as Hl2.
    destruct Hp as [k ->]. rewrite length_app in Hl2.
    assert (k = []) as -> by (destruct k; [done | simpl in Hl2; lia]).
    by rewrite app_nil_r.
  - destruct H as (_ & _ & _ & _ & Hp & ->). split; [|done]. by left.
  - destruct H as (Hd & He & Hne & Hp1 & Hp2 & ->).
    destruct (overlapLoop_greatest e d (min (length e) (length d)))
      as (k & Hk & -> & Hsuf & Hgt).
    split.
    + intros H. right.
      rewrite <- (app_nil_r e) in H at 2. apply app_inv_head in H.
      apply drop_nil_inv in H. by rewrite take_ge in Hsuf.
    + intros [H|H]; [done|].
      apply suffix_length in H as Hl.
      destruct (decide (k < length d)) as [Hlt|Hge].
      * destruct (Hgt (length d)); [lia | by rewrite firstn_all].
      * rewrite drop_ge by lia. by rewrite app_nil_r.
Qed.

Lemma merge_grows e d :
  mergeStreamingText e d ≠ e → length e < length (mergeStreamingText e d).
Proof.
  intros Hne. pose proof (merge_length e d) as Hle.
  destruct (decide (length (mergeStreamingText e d) = length e)) as [Heq|]; [|lia].
  destruct Hne.
  destruct (merge_cases e d) as [H|[H|[H|[H|[H|H]]]]].
  - by destruct H as [_ ->].
  - destruct H as (Hd & -> & H). rewrite H in Heq. by destruct d.
  - by destruct H as (_ & _ & _ & ->).
  - destruct H as (_ & _ & _ & [k ->] & H). rewrite H in *.
    rewrite length_app in Heq.
    assert (k = []) as -> by (destruct k; [done | simpl in Heq; lia]).
    by rewrite app_nil_r.
  - by destruct H as (_ & _ & _ & _ & _ & ->).
  - destruct H as (_ & _ & _ & _ & _ & H). rewrite H in *.
    destruct (overlapLoop_greatest e d (min (length e) (length d)))
      as (k & _ & Hk & _). rewrite Hk in *. rewrite length_app in Heq.
    assert (drop k d = []) as -> by (destruct (drop k d); [done | simpl in Heq; lia]).
    by rewrite app_nil_r.
Qed.

Lemma feed_length t (ds : list jsstring) : length t ≤ length (feed t ds).
Proof.
  revert t. induction ds as [|d ds IH]; intros t; simpl; [done|].
  etrans; [apply (merge_length t d) | apply IH].
Qed.

Lemma feed_fixed_iff t (ds : list jsstring) :
  feed t ds = t ↔ Forall (λ d, startsWith t d || endsWith t d = true) ds.
Proof.
  induction ds as [|d ds IH]; simpl.
  { split; [by constructor | done]. }
  rewrite Forall_cons, orb_true_iff, startsWith_prefix, endsWith_suffix.
  rewrite <- merge_fixed_iff.
  destruct (decide (mergeStreamingText t d = t)) as [Heq|Hne].
  - rewrite Heq. naive_solver.
  - split; [|naive_solver]. intros H. exfalso.
    pose proof (merge_grows _ _ Hne). pose proof (feed_length (mergeStreamingText t d) ds).
    unfold feed in *. rewrite H in *. lia.
Qed.

(** A delta that arrives twice in a row is absorbed. *)
Lemma merge_retransmit e d :
  mergeStreamingText (mergeStreamingText e d) d = mergeStreamingText e d.
Proof.
  apply merge_fixed_iff.
  destruct (merge_cases e d) as [H|[H|[H|[H|[H|H]]]]].
  - destruct H as [-> _]. left. apply prefix_nil.
  - destruct H as (_ & _ & ->). by left.
  - destruct H as (_ & _ & -> & ->). by left.
  - destruct H as (_ & _ & _ & _ & ->). by left.
  - destruct H as (_ & _ & _ & _ & H & ->). by left.
  - destruct H as (_ & _ & _ & _ & _ & ->). right.
    destruct (overlapLoop_greatest e d (min (length e) (length d)))
      as (k & _ & -> & [x Hx] & _).
    exists x. rewrite Hx at 1. by rewrite <- app_assoc, take_drop.
Qed.

End merge_fixed_points.

(** [C2] (amended) Laws of the overlap-merge: [merge(a, a) = a] and
    [merge(a, a + b) = a + b] hold for all strings; [merge(a + b, b + c) =
    a + b + c] holds when no overlap longer than [b] exists between the end
    of [a + b] and the start of [b + c], and [c] is empty or [a + b] does
    not start with [b + c]. *)
Theorem merge_laws (a b c : jsstring) :
  mergeStreamingText a a = a
  ∧ mergeStreamingText a (a ++ b) = a ++ b
  ∧ ((∀ k, length b < k ≤ min (length (a ++ b)) (length (b ++ c)) →
           endsWith (a ++ b) (take k (b ++ c)) = false) →
     (c = [] ∨ startsWith (a ++ b) (b ++ c) = false) →
     mergeStreamingText (a ++ b) (b ++ c) = a ++ b ++ c).
Proof.
  split; [apply merge_self|]. split; [apply merge_extension|].
  intros Hmax Hpre. apply merge_overlap.
  - intros k Hk. apply endsWith_false. by apply Hmax.
  - destruct Hpre as [->|H]; [by left|]. right. by apply startsWith_false.
Qed.

Lemma merge_laws_witness :
  mergeStreamingText (js "hello " ++ js "wo") (js "wo" ++ js "rld")
  = js "hello " ++ js "wo" ++ js "rld".
Proof.
  apply (proj2 (proj2 (merge_laws (js "hello ") (js "wo") (js "rld")))).
  - intros k Hk. simpl in Hk.
    assert (k = 3 ∨ k = 4 ∨ k = 5) as [ -> | [ -> | -> ] ] by lia; reflexivity.
  - right. reflexivity.
Defined.

(** [C2] as stated fails: the text "ab" already starts with the delta "a",
    so the delta is dropped although the two share no overlap ([b] empty). *)
Lemma merge_overlap_law_fails :
  mergeStreamingText (js "ab" ++ []) ([] ++ js "a") ≠ js "ab" ++ [] ++ js "a".
Proof. vm_compute. discriminate. Qed.

(** [C3] (amended) Feeding a sequence of deltas a second time, starting
    from the text the first pass produced, yields that text again exactly
    when the text starts or ends with every delta of the sequence; a delta
    repeated immediately after itself never changes the text. *)
Theorem replay_fixed_iff (t0 : jsstring) (ds : list jsstring) :
  let t := feed t0 ds in
  (feed t ds = t ↔ Forall (λ d, startsWith t d || endsWith t d = true) ds)
  ∧ (∀ d, mergeStreamingText (mergeStreamingText t0 d) d = mergeStreamingText t0 d).
Proof.
  intros t. split; [apply feed_fixed_iff | intros d; apply merge_retransmit].
Qed.

(** [C3] as stated fails: replaying "a", "b", "c" over "abc" appends. *)
Lemma replay_not_idempotent :
  feed (feed [] [js "a"; js "b"; js "c"]) [js "a"; js "b"; js "c"]
  ≠ feed [] [js "a"; js "b"; js "c"].
Proof. vm_compute. discriminate. Qed.

(** ** What merging never does to the text *)

Section merge_extras_facts.

Lemma merge_prefix e d : e `prefix_of` mergeStreamingText e d.
Proof.
  destruct (merge_cases e d) as [H|[H|[H|[H|[H|H]]]]].
  - by destruct H as [_ ->].
  - destruct H as (_ & -> & _). apply prefix_nil.
  - by destruct H as (_ & _ & _ & ->).
  - by destruct H as (_ & _ & _ & H & ->).
  - by destruct H as (_ & _ & _ & _ & _ & ->).
  - destruct H as (_ & _ & _ & _ & _ & ->).
    destruct (overlapLoop_greatest e d (min (length e) (length d)))
      as (k & _ & -> & _). by apply prefix_app_r.
Qed.

Lemma merge_tail e d :
  d `suffix_of` mergeStreamingText e d ∨ d `prefix_of` e.
Proof.
  destruct (merge_cases e d) as [H|[H|[H|[H|[H|H]]]]].
  - destruct H as [-> _]. right. apply prefix_nil.
  - destruct H as (_ & _ & ->). by left.
  - destruct H as (_ & _ & -> & ->). by left.
  - destruct H as (_ & _ & _ & _ & ->). by left.
  - destruct H as (_ & _ & _ & _ & H & _). by right.
  - destruct H as (_ & _ & _ & _ & _ & ->). left.
    destruct (overlapLoop_greatest e d (min (length e) (length d)))
      as (k & _ & -> & [x Hx] & _).
    exists x. rewrite Hx at 1. by rewrite <- app_assoc, take_drop.
Qed.

Lemma merge_bound e d :
  length (mergeStreamingText e d) ≤ length e + length d.
Proof.
  destruct (merge_cases e d) as [H|[H|[H|[H|[H|H]]]]].
  - destruct H as [_ ->]. lia.
  - destruct H as (_ & _ & ->). lia.
  - destruct H as (_ & _ & _ & ->). lia.
  - destruct H as (_ & _ & _ & _ & ->). lia.
  - destruct H as (_ & _ & _ & _ & _ & ->). lia.
  - destruct H as (_ & _ & _ & _ & _ & ->).
    destruct (overlapLoop_greatest e d (min (length e) (length d)))
      as (k & _ & -> & _). rewrite length_app, length_drop. lia.
Qed.

Lemma feed_prefix t (ds : list jsstring) : t `prefix_of` feed t ds.
Proof.
  revert t. induction ds as [|d ds IH]; intros t; [done|].
  cbn [feed foldl]. etrans; [apply (merge_prefix t d)|apply IH].
Qed.

End merge_extras_facts.

(** [X16] Merging never rewrites text that is already shown: the text
    before a delta, and before any sequence of deltas, is a prefix of the
    text after it.  One delta adds at most its own length, and the merged
    text ends with the delta unless the text already started with it. *)
Theorem shown_text_is_kept (t d : jsstring) (ds : list jsstring) :
  t `prefix_of` feed t ds
  ∧ t `prefix_of` mergeStreamingText t d
  ∧ (d `suffix_of` mergeStreamingText t d ∨ startsWith t d = true)
  ∧ length (mergeStreamingText t d) ≤ length t + length d.
Proof.
  split; [apply feed_prefix|]. split; [apply merge_prefix|].
  split; [|apply merge_bound].
  destruct (merge_tail t d) as [H|H]; [by left|right]. by apply startsWith_prefix.
Qed.

(** [X17] A provider that sends cumulative snapshots instead of
    increments is handled: when every delta starts with the one before
    it, and the first with the text already there, the text after the
    whole sequence is the last snapshot. *)
Theorem feed_snapshots (t : jsstring) (ds : list jsstring) :
  (∀ i a b, (t :: ds) !! i = Some a → (t :: ds) !! S i = Some b →
            startsWith b a = true) →
  feed t ds = default t (last ds).
Proof.
  revert t. induction ds as [|d ds IH]; intros t Hchain; [done|].
  cbn [feed foldl]. fold (feed (mergeStreamingText t d) ds).
  assert (t `prefix_of` d) as [x ->].
  { apply startsWith_prefix. by apply (Hchain 0). }
  rewrite merge_extension, IH.
  - rewrite last_cons. by destruct (last ds).
  - intros i a b Ha Hb. by apply (Hchain (S i)).
Qed.

Lemma feed_snapshots_witness :
  feed (js "He") [js "Hell"; js "Hello"; js "Hello, world"] = js "Hello, world".
Proof.
  apply (feed_snapshots (js "He") [js "Hell"; js "Hello"; js "Hello, world"]).
  intros [|[|[|[|i]]]] a b Ha Hb; simpl in Ha, Hb;
    try discriminate; injection Ha as <-; injection Hb as <-; reflexivity.
Defined.

(** ** Text normalization *)

Section normalize_facts.
Implicit Types s u text rest : jsstring.

Lemma list_pair_ind (P : jsstring → Prop) :
  P [] → (∀ c, P [c]) →
  (∀ c n rest, P rest → P (n :: rest) → P (c :: n :: rest)) →
  ∀ s, P s.
Proof.
  intros Hnil Hone Hstep s.
  assert (P s ∧ ∀ c, P (c :: s)) as [H _]; [|done].
  induction s as [|n rest [IH1 IH2]]; [done|].
  split; [apply IH2|]. intros c. by apply Hstep.
Qed.

Lemma collapseNewlines_step c n rest :
  collapseNewlines (c :: n :: rest)
  = if matchesAt c n rest then c :: SPACE :: collapseNewlines rest
    else c :: collapseNewlines (n :: rest).
Proof. done. Qed.

Lemma replaceCRLF_step c n rest :
  replaceCRLF (c :: n :: rest)
  = if ((c =? CR) && (n =? LF))%N then LF :: replaceCRLF rest
    else c :: replaceCRLF (n :: rest).
Proof. done. Qed.

Lemma collapseNewlines_length u : length (collapseNewlines u) = length u.
Proof.
  induction u as [|c|c n rest IH1 IH2] using list_pair_ind; [done..|].
  rewrite collapseNewlines_step. destruct (matchesAt c n rest); simpl in *; lia.
Qed.

Lemma matchesAt_newline n rest : matchesAt LF n rest = false.
Proof. done. Qed.

Lemma matchesAt_second c n rest : matchesAt c n rest = true → n = LF.
Proof.
  unfold matchesAt. rewrite !andb_true_iff. intros [[[[[_ H] _] _] _] _].
  by apply N.eqb_eq in H.
Qed.

Lemma collapseNewlines_lookup u i :
  collapseNewlines u !! i = if collapsesAt u i then Some SPACE else u !! i.
Proof.
  revert i. induction u as [|c|c n rest IH1 IH2] using list_pair_ind; intros i.
  - by destruct i.
  - destruct i as [|[|i]]; done.
  - rewrite collapseNewlines_step. destruct (matchesAt c n rest) eqn:E.
    + destruct i as [|[|i]]; [done| |].
      * simpl. by rewrite E.
      * change ((c :: SPACE :: collapseNewlines rest) !! S (S i))
          with (collapseNewlines rest !! i).
        rewrite IH1. apply matchesAt_second in E as ->.
        destruct i as [|i]; [|done].
        simpl. by destruct rest.
    + destruct i as [|i]; [done|].
      change ((c :: collapseNewlines (n :: rest)) !! S i)
        with (collapseNewlines (n :: rest) !! i).
      rewrite IH2. destruct i as [|i]; [|done].
      simpl. by rewrite E.
Qed.

Lemma replaceCRLF_pair a b :
  replaceCRLF (a ++ CR :: LF :: b) = replaceCRLF a ++ LF :: replaceCRLF b.
Proof.
  induction a as [|c|c n rest IH1 IH2] using list_pair_ind.
  - done.
  - simpl. by destruct (c =? CR)%N.
  - change ((c :: n :: rest) ++ CR :: LF :: b)
      with (c :: n :: (rest ++ CR :: LF :: b)).
    rewrite !replaceCRLF_step. destruct ((c =? CR) && (n =? LF))%N.
    + by rewrite IH1.
    + change (n :: (rest ++ CR :: LF :: b)) with ((n :: rest) ++ CR :: LF :: b).
      by rewrite IH2.
Qed.

Lemma replaceCRLF_id s : noCRLF s = true → replaceCRLF s = s.
Proof.
  induction s as [|c|c n rest IH1 IH2] using list_pair_ind; [done..|].
  intros H. cbn [noCRLF] in H. apply andb_true_iff in H as [H1 H2].
  rewrite replaceCRLF_step. apply negb_true_iff in H1 as ->. by rewrite IH2.
Qed.

End normalize_facts.

(** [C8] (amended) Ingest normalization first rewrites every CRLF pair of
    the fragment to LF (left to right), then replaces with a single space
    exactly those newlines that follow a code unit other than a newline and
    are not followed by another newline, by [-] or [*] and a whitespace
    character, by digits, a full stop and a whitespace character, or by
    three backticks; every other code unit keeps its place and value, so a
    newline that opens the text or that lies inside fenced code gets no
    protection of its own. *)
Theorem normalize_pointwise (text : jsstring) :
  let unified := replaceCRLF text in
  (∀ a b, replaceCRLF (a ++ CR :: LF :: b) = replaceCRLF a ++ LF :: replaceCRLF b)
  ∧ (noCRLF text = true → unified = text)
  ∧ length (normalizeStreamingText text) = length unified
  ∧ ∀ i, normalizeStreamingText text !! i
         = if collapsesAt unified i then Some SPACE else unified !! i.
Proof.
  intros unified. split; [apply replaceCRLF_pair|].
  split; [apply replaceCRLF_id|].
  unfold normalizeStreamingText. destruct text as [|c text]; [split; [done|]|].
  - intros i. by destruct i.
  - cbn [isEmpty]. split; [apply collapseNewlines_length|].
    apply collapseNewlines_lookup.
Qed.

Lemma normalize_pointwise_witness :
  replaceCRLF (js "a" ++ [LF] ++ js "- b") = js "a" ++ [LF] ++ js "- b".
Proof.
  apply (proj1 (proj2 (normalize_pointwise (js "a" ++ [LF] ++ js "- b")))).
  reflexivity.
Defined.

(** [C8] as stated fails: a single newline that opens the fragment is
    followed by none of the protected forms and is still kept, and the
    newlines inside a fenced block are replaced. *)
Lemma normalize_claim_fails :
  normalizeStreamingText (LF :: js "a") ≠ SPACE :: js "a"
  ∧ normalizeStreamingText (js "```" ++ [LF] ++ js "a" ++ [LF] ++ js "b" ++ [LF] ++ js "```")
    = js "``` a b" ++ [LF] ++ js "```".
Proof. split; [vm_compute; discriminate | reflexivity]. Qed.

Example normalize_soft_break :
  normalizeStreamingText (js "a" ++ [CR; LF] ++ js "b" ++ [LF] ++ js "c") = js "a b c".
Proof. reflexivity. Qed.

Example normalize_paragraph :
  normalizeStreamingText (js "a" ++ [LF; LF] ++ js "b") = js "a" ++ [LF; LF] ++ js "b".
Proof. reflexivity. Qed.

Example normalize_lists :
  normalizeStreamingText (js "a" ++ [LF] ++ js "- b" ++ [LF] ++ js "12. c" ++ [LF] ++ js "-d")
  = js "a" ++ [LF] ++ js "- b" ++ [LF] ++ js "12. c -d".
Proof. reflexivity. Qed.

(** ** Normalizing twice *)

Section normalize_extras_facts.
Implicit Types (u v rest : jsstring) (c n : N).

Lemma softens_collapse u : softens u (collapseNewlines u).
Proof.
  induction u as [|c|c n rest IH1 IH2] using list_pair_ind.
  - constructor.
  - constructor; [by left|constructor].
  - rewrite collapseNewlines_step. destruct (matchesAt c n rest) eqn:E.
    + apply matchesAt_second in E as ->.
      constructor; [by left|]. constructor; [by right|done].
    + constructor; [by left|done].
Qed.

Lemma collapse_head u : head (collapseNewlines u) = head u.
Proof.
  destruct u as [|x [|y r]]; [done..|].
  rewrite collapseNewlines_step. by destruct (matchesAt x y r).
Qed.

Lemma softens_afterDigits u v : softens u v → softens (afterDigits u) (afterDigits v).
Proof.
  induction 1 as [|x y a b Hxy Hab IH]; [constructor|].
  destruct Hxy as [->|[-> ->]].
  - simpl. destruct (isDigit y); [done|]. constructor; [by left|done].
  - change (afterDigits (LF :: a)) with (LF :: a).
    change (afterDigits (SPACE :: b)) with (SPACE :: b).
    constructor; [by right|done].
Qed.

Lemma aheadBullet_soft u v : softens u v → aheadBullet u = aheadBullet v.
Proof.
  destruct 1 as [|x y a b Hxy Hab]; [done|].
  destruct Hab as [|w w' a b Hw _]; [done|].
  destruct Hxy as [->|[-> ->]], Hw as [->|[-> ->]]; try done;
    unfold aheadBullet; by destruct (_ || _).
Qed.

Lemma aheadOrdered_soft u v : softens u v → aheadOrdered u = aheadOrdered v.
Proof.
  destruct 1 as [|x y a b Hxy Hab]; [done|].
  destruct Hxy as [->|[-> ->]]; [|done].
  unfold aheadOrdered. f_equal.
  pose proof (softens_afterDigits a b Hab) as H.
  destruct H as [|d d' a' b' Hd H']; [done|].
  destruct H' as [|w w' a'' b'' Hw _].
  - done.
  - destruct Hd as [->|[-> ->]], Hw as [->|[-> ->]]; try done;
      by destruct (d' =? FULLSTOP)%N.
Qed.

Lemma aheadFence_soft u v : softens u v → aheadFence u = aheadFence v.
Proof.
  destruct 1 as [|x y a b Hxy Hab]; [done|].
  destruct Hab as [|x2 y2 a b Hxy2 Hab]; [done|].
  destruct Hab as [|x3 y3 a b Hxy3 _]; [done|].
  unfold aheadFence.
  destruct Hxy as [->|[-> ->]], Hxy2 as [->|[-> ->]], Hxy3 as [->|[-> ->]];
    try done; by repeat (destruct (_ =? BACKTICK)%N).
Qed.

Lemma aheadNewline_collapse rest :
  aheadNewline (collapseNewlines rest) = aheadNewline rest.
Proof.
  pose proof (collapse_head rest) as H.
  destruct rest as [|x r], (collapseNewlines _) as [|y r']; try done.
  by injection H as ->.
Qed.

Lemma matchesAt_collapse c n rest :
  matchesAt c n (collapseNewlines rest) = matchesAt c n rest.
Proof.
  pose proof (softens_collapse rest) as H. unfold matchesAt.
  by rewrite aheadNewline_collapse, <- (aheadBullet_soft _ _ H),
    <- (aheadOrdered_soft _ _ H), <- (aheadFence_soft _ _ H).
Qed.

Lemma matchesAt_ahead c n x r : matchesAt c n (x :: r) = true → x ≠ LF.
Proof.
  unfold matchesAt. rewrite !andb_true_iff. intros [[[[_ H] _] _] _] ->.
  done.
Qed.

Lemma matchesAt_first c n rest : n ≠ LF → matchesAt c n rest = false.
Proof.
  intros Hn. unfold matchesAt. apply N.eqb_neq in Hn as ->.
  by rewrite andb_false_r.
Qed.

Lemma collapse_LF rest : collapseNewlines (LF :: rest) = LF :: collapseNewlines rest.
Proof. by destruct rest. Qed.

Lemma collapse_idem u : collapseNewlines (collapseNewlines u) = collapseNewlines u.
Proof.
  induction u as [|c|c n rest IH1 IH2] using list_pair_ind; [done..|].
  rewrite collapseNewlines_step. destruct (matchesAt c n rest) eqn:E.
  - rewrite collapseNewlines_step, (matchesAt_first c SPACE) by done.
    f_equal. pose proof (collapse_head rest) as Hh.
    destruct (collapseNewlines rest) as [|x r'] eqn:Er; [done|].
    rewrite collapseNewlines_step, (matchesAt_first SPACE x).
    + f_equal. exact IH1.
    + destruct rest as [|x0 r0]; [done|]. injection Hh as ->.
      by apply matchesAt_ahead in E.
  - destruct (decide (n = LF)) as [->|Hn].
    + rewrite collapse_LF, collapseNewlines_step, matchesAt_collapse, E.
      f_equal. rewrite <- collapse_LF. apply IH2.
    + pose proof (collapse_head (n :: rest)) as Hh.
      destruct (collapseNewlines (n :: rest)) as [|x r'] eqn:Er; [done|].
      injection Hh as ->.
      rewrite collapseNewlines_step, (matchesAt_first c n) by done.
      f_equal. exact IH2.
Qed.

Lemma normalize_unfold text :
  normalizeStreamingText text = collapseNewlines (replaceCRLF text).
Proof. by destruct text. Qed.

Lemma noCR_noCRLF u : Forall (λ c, c ≠ CR) u → noCRLF u = true.
Proof.
  induction 1 as [|c u Hc _ IH]; [done|].
  cbn [noCRLF]. apply N.eqb_neq in Hc as ->. done.
Qed.

Lemma softens_noCR u v :
  softens u v → Forall (λ c, c ≠ CR) u → Forall (λ c, c ≠ CR) v.
Proof.
  induction 1 as [|x y a b Hxy _ IH]; [done|].
  intros H. apply Forall_cons in H as [Hx H]. constructor; [|by apply IH].
  by destruct Hxy as [->|[-> ->]].
Qed.

End normalize_extras_facts.

(** [X18] Normalizing an already normalized text changes nothing, as
    long as the text has no carriage return: the newlines that the first
    pass kept are kept by the second.  For the second step alone, the
    replacement of single newlines, this holds for every text. *)
Theorem normalize_idempotent (text : jsstring) :
  collapseNewlines (collapseNewlines text) = collapseNewlines text
  ∧ (Forall (λ c, c ≠ CR) text →
     normalizeStreamingText (normalizeStreamingText text)
     = normalizeStreamingText text).
Proof.
  split; [apply collapse_idem|]. intros H.
  rewrite !normalize_unfold.
  rewrite (replaceCRLF_id text) by (by apply noCR_noCRLF).
  rewrite replaceCRLF_id; [apply collapse_idem|].
  apply noCR_noCRLF. by eapply softens_noCR; [apply softens_collapse|].
Qed.

Lemma normalize_idempotent_witness :
  let text := js "a" ++ [LF] ++ js "b" ++ [LF; LF] ++ js "- c" ++ [LF] ++ js "d" in
  normalizeStreamingText (normalizeStreamingText text) = normalizeStreamingText text.
Proof.
  intros text. apply (proj2 (normalize_idempotent text)).
  repeat constructor; discriminate.
Defined.

(** With carriage returns a second pass can still change the text: the
    first pass turns CR CR LF into CR LF, which the second replaces. *)
Example normalize_twice_with_cr :
  let text := js "a" ++ [CR; CR; LF; LF] ++ js "b" in
  normalizeStreamingText text = js "a" ++ [CR; LF; LF] ++ js "b"
  ∧ normalizeStreamingText (normalizeStreamingText text) = js "a" ++ [LF; LF] ++ js "b".
Proof. split; reflexivity. Qed.

(** ** The session input stream *)

Section input_stream_facts.
Context {Msg : Type}.
Implicit Types (st : InputStream.state Msg) (ops : list (@InputStream.op Msg)).

Import InputStream.

Lemma push_closed st m : closed st = true → push m st = (st, None).
Proof. intros H. unfold push. by rewrite H. Qed.

Lemma close_closed st : closed (close st).1 = true ∧ queue (close st).1 = queue st.
Proof. unfold close. by destruct (resolveNext st). Qed.

(** Once the stream is closed, the calls of [next()] return the queued
    messages in order and then [done], whatever else is called between. *)
Lemma run_closed ops st :
  closed st = true →
  nextResults (run ops st)
  = take (countNext ops)
      (map (λ m, Now (Value m)) (queue st) ++ replicate (countNext ops) (Now Done)).
Proof.
  revert st. induction ops as [|o ops IH]; intros st Hc; [done|].
  destruct o as [m| |].
  - cbn [run step]. rewrite (push_closed st m Hc). cbn [nextResults countNext].
    by apply IH.
  - cbn [run step]. destruct (close st) as [st' s] eqn:E.
    cbn [nextResults countNext].
    pose proof (close_closed st) as [H1 H2]. rewrite E in H1, H2. simpl in H1, H2.
    rewrite <- H2. by apply IH.
  - cbn [run step]. unfold next. destruct (queue st) as [|m q] eqn:Q.
    + rewrite Hc. cbn [nextResults countNext]. rewrite IH by done. simpl.
      done.
    + cbn [nextResults countNext]. rewrite IH by done. simpl. f_equal.
      change (Now Done :: replicate (countNext ops) (Now Done))
        with (replicate (S (countNext ops)) (@Now Msg Done)).
      rewrite !take_app, !take_replicate. do 2 f_equal. lia.
Qed.

End input_stream_facts.

(** [C10] After [close()], a [push] leaves the stream as it is and hands
    the message to nobody, while the calls of [next()] still return every
    message that was queued at the time of [close()], oldest first, and
    only then report [done]. *)
Theorem input_stream_after_close {Msg : Type}
    (st : InputStream.state Msg) (ops : list InputStream.op) (m : Msg) :
  let st' := (InputStream.close st).1 in
  InputStream.push m st' = (st', None)
  ∧ InputStream.nextResults (InputStream.run ops st')
    = take (InputStream.countNext ops)
        (map (λ m, InputStream.Now (InputStream.Value m)) (InputStream.queue st)
         ++ replicate (InputStream.countNext ops) (InputStream.Now InputStream.Done)).
Proof.
  intros st'. destruct (close_closed st) as [Hc Hq]. split.
  - by apply push_closed.
  - rewrite <- Hq. by apply run_closed.
Qed.

Section input_stream_examples.
Import InputStream.

Example input_stream_drain :
  nextResults
    (run [Push 1; Push 2; Close; Push 3; Next; Next; Push 4; Next; Next]
       createInputStream)
  = [Now (Value 1); Now (Value 2); Now Done; Now Done].
Proof. reflexivity. Qed.

Example input_stream_waiting_consumer :
  run [Next; Push 7; Close; Push 8; Next] createInputStream
  = [Returned (Later 0); Settled (Some (0, Value 7)); Settled None;
     Settled None; Returned (Now Done)].
Proof. reflexivity. Qed.

End input_stream_examples.

(** ** Nothing is lost or reordered on the input stream *)

Section input_stream_fifo_facts.
Context {Msg : Type}.
Implicit Types (st : InputStream.state Msg) (ops : list (@InputStream.op Msg)).

Import InputStream.

(** While a [next()] is waiting the queue is empty. *)
Lemma run_conserves ops st :
  (is_Some (resolveNext st) → queue st = []) →
  delivered (run ops st) ++ queue (final ops st)
  = queue st ++ (if closed st then [] else accepted ops).
Proof.
  revert st. induction ops as [|o ops IH]; intros st Hinv.
  { cbn. destruct (closed st); by rewrite app_nil_r. }
  destruct o as [m| |]; cbn [run final step accepted].
  - unfold push. destruct (closed st) eqn:Hc.
    + cbn [fst delivered app]. rewrite IH by done. by rewrite Hc.
    + destruct (resolveNext st) as [p|] eqn:Hr; cbn [fst delivered app].
      * rewrite IH by (cbn; by intros [? [=]]). cbn [queue closed].
        rewrite ?Hc, (Hinv (mk_is_Some _ _ eq_refl)). done.
      * rewrite IH by (cbn; by intros [? [=]]). cbn [queue closed].
        by rewrite ?Hc, <- app_assoc.
  - unfold close. destruct (resolveNext st) as [p|] eqn:Hr; cbn [fst delivered app];
      rewrite IH by (cbn; by intros [? [=]]); cbn [queue closed];
      destruct (closed st); by rewrite ?app_nil_r.
  - unfold next. destruct (queue st) as [|m q] eqn:Hq.
    + destruct (closed st) eqn:Hc; cbn [fst delivered app].
      * rewrite IH by done. done.
      * rewrite IH by done. done.
    + cbn [fst delivered app]. rewrite IH; [done|]. cbn. intros Hs.
      by specialize (Hinv Hs).
Qed.

End input_stream_fifo_facts.

(** [X15] The input stream neither loses nor reorders messages.  For any
    interleaving of [push], [close] and [next] on a new stream, the
    messages handed to the consumer so far, followed by those still
    queued, are exactly the messages pushed before the first [close], in
    the order of the pushes; this holds also when the consumer calls
    [next] again before an earlier call was answered. *)
Theorem input_stream_fifo {Msg : Type} (ops : list (@InputStream.op Msg)) :
  InputStream.delivered (InputStream.run ops InputStream.createInputStream)
  ++ InputStream.queue (InputStream.final ops InputStream.createInputStream)
  = InputStream.accepted ops.
Proof.
  rewrite run_conserves; [done|]. cbn. by intros [? [=]].
Qed.

(** ** The pending-permission table *)

Section permission_facts.
Import Permission.
Implicit Types (h : handler) (id sid : jsstring) (e : PendingPermission)
  (s : Settlement) (a : action).

Lemma wf_new ms : wf (newPermissionHandler ms).
Proof. split; intros *; simpl; try done; by rewrite ?lookup_empty. Qed.

Lemma settlements_settle_eq h p s :
  settlements (settle p s h) p = settlements h p ++ [s].
Proof. unfold settlements at 1. simpl. by rewrite lookup_insert_eq. Qed.

Lemma settlements_insert_ne (c : gmap nat (list Settlement)) p x n :
  n ≠ p → default [] (<[p := x]> c !! n) = default [] (c !! n).
Proof. intros. by rewrite lookup_insert_ne. Qed.

Lemma captured_lt h p id : wf h → captured h p id → p < requests h.
Proof.
  intros Hwf [(t & Ht & _)|Hl]; [by eapply wf_timer | by eapply wf_listener].
Qed.

(** The promise of a remaining entry is not the one a removal calls. *)
Lemma captured_other h p id id' e :
  wf h → captured h p id → pending h !! id' = Some e → id' ≠ id →
  promise e ≠ p.
Proof.
  intros Hwf Hc He Hne Heq. subst p.
  destruct (wf_entry h Hwf id' e He) as (_ & Ht & Htim & Hlis & _).
  rewrite Ht in Htim.
  destruct Hc as [(t & Ht' & Hid)|Hl].
  - rewrite Htim in Ht'. injection Ht' as <-. by simpl in Hid.
  - rewrite Hlis in Hl. by injection Hl.
Qed.

Lemma wf_removes h h' id p s : wf h → removes id p s h h' → wf h'.
Proof.
  intros Hwf Hrm. destruct Hrm as [_ Hp Hms Hreq Ht Hl Hc Hcap].
  pose proof (captured_lt h p id Hwf Hcap) as Hlt.
  split.
  - intros id' e He. rewrite Hp in He.
    apply lookup_delete_Some in He as [Hne He].
    destruct (wf_entry h Hwf id' e He) as (H1 & H2 & H3 & H4 & H5).
    split; [done|]. split; [done|]. split; [|split].
    + destruct (Ht (timeoutId e)) as [->|(_ & t & Ht' & Hid)]; [by rewrite Hms|].
      rewrite H3 in Ht'. injection Ht' as <-. by simpl in Hid.
    + destruct (Hl (promise e)) as [->|(_ & Hl')]; [done|].
      rewrite H4 in Hl'. by injection Hl'.
    + unfold settlements. rewrite Hc, lookup_insert_ne; [done|].
      intros Heq. by eapply (captured_other h p id id' e).
  - intros n t Hn. rewrite Hreq.
    destruct (Ht n) as [Heq|[Heq _]]; rewrite Heq in Hn; [by eapply wf_timer | done].
  - intros n id' Hn. rewrite Hreq.
    destruct (Hl n) as [Heq|[Heq _]]; rewrite Heq in Hn; [by eapply wf_listener | done].
  - intros n Hn. rewrite Hreq in Hn. unfold settlements.
    rewrite Hc, lookup_insert_ne by lia. by apply wf_fresh.
Qed.

Lemma wf_drops h h' : wf h → drops h h' → wf h'.
Proof.
  intros Hwf [Hp Hms Hreq Ht Hl Hc]. split.
  - intros id e He. rewrite Hp in He.
    destruct (wf_entry h Hwf id e He) as (H1 & H2 & H3 & H4 & H5).
    split; [done|]. split; [done|]. split; [|split].
    + destruct (Ht (timeoutId e)) as [->|(_ & t & Ht' & Hnone)]; [by rewrite Hms|].
      rewrite H3 in Ht'. injection Ht' as <-. simpl in Hnone. congruence.
    + destruct (Hl (promise e)) as [->|(_ & id' & Hl' & Hnone)]; [done|].
      rewrite H4 in Hl'. injection Hl' as <-. congruence.
    + unfold settlements. by rewrite Hc.
  - intros n t Hn. rewrite Hreq.
    destruct (Ht n) as [Heq|[Heq _]]; rewrite Heq in Hn; [by eapply wf_timer | done].
  - intros n id' Hn. rewrite Hreq.
    destruct (Hl n) as [Heq|[Heq _]]; rewrite Heq in Hn; [by eapply wf_listener | done].
  - intros n Hn. rewrite Hreq in Hn. unfold settlements. rewrite Hc.
    by apply wf_fresh.
Qed.

Lemma dead_removes h h' id p s n oid :
  wf h → dead h n oid → removes id p s h h' →
  dead h' n oid ∧ settlements h' n = settlements h n.
Proof.
  intros Hwf (Hd1 & Hd2 & Hd3) [[e He] Hp Hms Hreq Ht Hl Hc Hcap].
  assert (p ≠ n) as Hpn.
  { intros ->. destruct Hcap as [(t & Ht' & _)|Hl']; [congruence|].
    destruct Hd3 as [?|(id0 & _ & Hl0 & Hnone)]; congruence. }
  split; [split; [|split]|].
  - destruct (Ht n) as [->|[-> _]]; done.
  - by rewrite Hreq.
  - destruct Hd3 as [Hnone|(id0 & Hoid & Hl0 & Hnone)].
    + left. destruct (Hl n) as [->|[-> _]]; done.
    + destruct (Hl n) as [Heq|[Heq _]]; [right|by left].
      exists id0. rewrite Heq, Hp. split; [done|]. split; [done|].
      destruct (decide (id = id0)) as [->|]; [apply lookup_delete_eq|].
      by rewrite lookup_delete_ne.
  - unfold settlements. by rewrite Hc, lookup_insert_ne.
Qed.

Lemma dead_drops h h' n oid :
  dead h n oid → drops h h' →
  dead h' n oid ∧ settlements h' n = settlements h n.
Proof.
  intros (Hd1 & Hd2 & Hd3) [Hp Hms Hreq Ht Hl Hc].
  split; [split; [|split]|].
  - destruct (Ht n) as [->|[-> _]]; done.
  - by rewrite Hreq.
  - destruct Hd3 as [Hnone|(id0 & Hoid & Hl0 & Hnone)].
    + left. destruct (Hl n) as [->|[-> _]]; done.
    + destruct (Hl n) as [Heq|[Heq _]]; [right|by left].
      exists id0. by rewrite Heq, Hp.
  - unfold settlements. by rewrite Hc.
Qed.

(** *** Each operation as a removal, a drop or a registration *)

Lemma timeout_cases h n :
  timeout n h = h ∨ drops h (timeout n h)
  ∨ ∃ id, pending (timeout n h) !! id = None ∧
      removes id n (Resolve (Deny (js "Permission request timed out") id)) h
        (timeout n h).
Proof.
  unfold timeout. destruct (timers h !! n) as [t|] eqn:Ht; [|by left]. right.
  cbn [clearTimeout pending].
  destruct (pending h !! timerToolUseID t) as [e|] eqn:He.
  - right. exists (timerToolUseID t). split; [apply lookup_delete_eq|].
    split; simpl; try done.
    + intros m. destruct (decide (m = n)) as [->|].
      * right. rewrite lookup_delete_eq. eauto.
      * left. by rewrite lookup_delete_ne.
    + intros m. by left.
    + left. eauto.
  - left. split; simpl; try done.
    + intros m. destruct (decide (m = n)) as [->|].
      * right. rewrite lookup_delete_eq. eauto.
      * left. by rewrite lookup_delete_ne.
    + intros m. by left.
Qed.

Lemma abort_cases h n :
  wf h →
  abort n h = h ∨ drops h (abort n h)
  ∨ ∃ id, removes id n (Reject (js "Permission request aborted")) h (abort n h).
Proof.
  intros Hwf.
  unfold abort. destruct (listeners h !! n) as [id|] eqn:Hl; [|by left]. right.
  cbn [removeListener pending].
  destruct (pending h !! id) as [e|] eqn:He.
  - right. exists id.
    destruct (wf_entry h Hwf id e He) as (H1 & H2 & H3 & H4 & H5).
    split; simpl; try done.
    + intros m. destruct (decide (m = timeoutId e)) as [->|].
      * right. rewrite lookup_delete_eq. eauto.
      * left. by rewrite lookup_delete_ne.
    + intros m. destruct (decide (m = n)) as [->|].
      * right. by rewrite lookup_delete_eq.
      * left. by rewrite lookup_delete_ne.
    + by right.
  - left. split; simpl; try done.
    + intros m. by left.
    + intros m. destruct (decide (m = n)) as [->|].
      * right. rewrite lookup_delete_eq. eauto.
      * left. by rewrite lookup_delete_ne.
Qed.

Lemma respond_removes h id d m u e :
  wf h → pending h !! id = Some e →
  removes id (promise e)
    (Resolve match d with
             | allow => Allow u id
             | deny => Deny (default (js "Permission denied by user") m) id
             end)
    h (respond id d m u h).1.
Proof.
  intros Hwf He. unfold respond. rewrite He. cbn [fst].
  destruct (wf_entry h Hwf id e He) as (H1 & H2 & H3 & H4 & H5).
  split; simpl; try done.
  - intros n. destruct (decide (n = timeoutId e)) as [->|].
    + right. rewrite lookup_delete_eq. eauto.
    + left. by rewrite lookup_delete_ne.
  - intros n. destruct (decide (n = promise e)) as [->|].
    + right. by rewrite lookup_delete_eq.
    + left. by rewrite lookup_delete_ne.
  - by right.
Qed.

Lemma cancelEntry_removes h id e err :
  wf h → pending h !! id = Some e →
  removes id (promise e) (Reject err) h (cancelEntry err h (id, e)).
Proof.
  intros Hwf He.
  destruct (wf_entry h Hwf id e He) as (H1 & H2 & H3 & H4 & H5).
  split; simpl; try done.
  - intros n. destruct (decide (n = timeoutId e)) as [->|].
    + right. rewrite lookup_delete_eq. eauto.
    + left. by rewrite lookup_delete_ne.
  - intros n. destruct (decide (n = promise e)) as [->|].
    + right. by rewrite lookup_delete_eq.
    + left. by rewrite lookup_delete_ne.
  - by right.
Qed.

(** A loop that cancels some of the entries of the table keeps every
    property that single removals keep. *)
Lemma cancel_loop (Q : handler → Prop) err
    (g : handler → jsstring * PendingPermission → handler) :
  (∀ h kv, g h kv = h ∨ g h kv = cancelEntry err h kv) →
  (∀ h h' id p s, wf h → Q h → removes id p s h h' → Q h') →
  ∀ l h, NoDup l.*1 → (∀ id e, (id, e) ∈ l → pending h !! id = Some e) →
    wf h → Q h → wf (foldl g h l) ∧ Q (foldl g h l).
Proof.
  intros Hg HQ l. induction l as [|[id e] l IH]; intros h Hnd Hl Hwf Hq; [done|].
  simpl. apply NoDup_cons in Hnd as [Hnotin Hnd].
  assert (pending h !! id = Some e) as He by (apply Hl; left).
  destruct (Hg h (id, e)) as [->| ->].
  - apply IH; [done| |done..]. intros id' e' Hin. apply Hl. by right.
  - pose proof (cancelEntry_removes h id e err Hwf He) as Hrm.
    apply IH; [done| |by eapply wf_removes|by eapply HQ].
    intros id' e' Hin. rewrite (rm_pending _ _ _ _ _ Hrm).
    rewrite lookup_delete_ne; [apply Hl; by right|].
    intros <-. apply Hnotin. apply list_elem_of_fmap. by exists (id, e').
Qed.

Lemma cancelForSession_keeps (Q : handler → Prop) sid h :
  (∀ h h' id p s, wf h → Q h → removes id p s h h' → Q h') →
  wf h → Q h → wf (cancelForSession sid h) ∧ Q (cancelForSession sid h).
Proof.
  intros HQ Hwf Hq. unfold cancelForSession.
  eapply (cancel_loop Q (js "Session closed")); [|done| | |done..].
  - intros h0 kv. destruct (bool_decide _); [by right | by left].
  - apply NoDup_fst_map_to_list.
  - intros id e. apply elem_of_map_to_list.
Qed.

Lemma cancelAll_keeps (Q : handler → Prop) h :
  (∀ h h' id p s, wf h → Q h → removes id p s h h' → Q h') →
  wf h → Q h → wf (cancelAll h) ∧ Q (cancelAll h).
Proof.
  intros HQ Hwf Hq. unfold cancelAll.
  eapply (cancel_loop Q (js "Bridge shutting down")); [|done| | |done..].
  - intros h0 kv. by right.
  - apply NoDup_fst_map_to_list.
  - intros id e. apply elem_of_map_to_list.
Qed.

Lemma wf_canUseTool h sid w t id : wf h → wf (canUseTool sid w t id h).1.
Proof.
  intros Hwf. split; simpl.
  - intros id' e He. destruct (decide (id = id')) as [->|Hne].
    + rewrite lookup_insert_eq in He. injection He as <-. simpl.
      rewrite !lookup_insert_eq. repeat split; try done.
      change (settlements h (requests h) = []). by apply wf_fresh.
    + rewrite lookup_insert_ne in He by done.
      destruct (wf_entry h Hwf id' e He) as (H1 & H2 & H3 & H4 & H5).
      assert (timeoutId e < requests h) by (by eapply wf_timer).
      assert (promise e < requests h) by (by eapply wf_listener).
      rewrite !lookup_insert_ne by lia. done.
  - intros n t0 Hn. destruct (decide (n = requests h)) as [->|]; [lia|].
    rewrite lookup_insert_ne in Hn by done.
    pose proof (wf_timer h Hwf n t0 Hn). lia.
  - intros n id' Hn. destruct (decide (n = requests h)) as [->|]; [lia|].
    rewrite lookup_insert_ne in Hn by done.
    pose proof (wf_listener h Hwf n id' Hn). lia.
  - intros n Hn. change (settlements h n = []). apply wf_fresh; [done|lia].
Qed.

Lemma wf_apply a h : wf h → wf (apply a h).
Proof.
  intros Hwf. destruct a as [sid w t id|id d m u|n|n|sid|]; simpl.
  - exact (wf_canUseTool h sid w t id Hwf).
  - destruct (pending h !! id) as [e|] eqn:He.
    + eapply wf_removes; [done|]. by apply respond_removes.
    + unfold respond. by rewrite He.
  - destruct (timeout_cases h n) as [->|[H|(id & _ & H)]];
      [done | by eapply wf_drops | by eapply wf_removes].
  - destruct (abort_cases h n Hwf) as [->|[H|(id & H)]];
      [done | by eapply wf_drops | by eapply wf_removes].
  - apply (cancelForSession_keeps (λ _, True)); done.
  - apply (cancelAll_keeps (λ _, True)); done.
Qed.

Lemma wf_applyAll acts h : wf h → wf (applyAll acts h).
Proof.
  revert h. induction acts as [|a acts IH]; intros h Hwf; [done|].
  simpl. apply IH. by apply wf_apply.
Qed.

Lemma dead_canUseTool h sid w t id n oid :
  dead h n oid → spares oid (CanUseTool sid w t id) = true →
  dead (canUseTool sid w t id h).1 n oid
  ∧ settlements (canUseTool sid w t id h).1 n = settlements h n.
Proof.
  intros (Hd1 & Hd2 & Hd3) Hsp. split; [|done]. split; [|split]; simpl.
  - by rewrite lookup_insert_ne by lia.
  - lia.
  - rewrite lookup_insert_ne by lia.
    destruct Hd3 as [Hnone|(id0 & -> & Hl0 & Hnone)]; [by left|right].
    exists id0. split; [done|]. split; [done|].
    simpl in Hsp. apply negb_true_iff, bool_decide_eq_false in Hsp.
    by rewrite lookup_insert_ne.
Qed.

Lemma dead_apply a h n oid :
  wf h → dead h n oid → spares oid a = true →
  dead (apply a h) n oid ∧ settlements (apply a h) n = settlements h n.
Proof.
  intros Hwf Hd Hsp. destruct a as [sid w t id|id d m u|k|k|sid|]; simpl.
  - exact (dead_canUseTool h sid w t id n oid Hd Hsp).
  - destruct (pending h !! id) as [e|] eqn:He.
    + eapply dead_removes; [done..|]. by apply respond_removes.
    + unfold respond. by rewrite He.
  - destruct (timeout_cases h k) as [->|[H|(id & _ & H)]];
      [done | by eapply dead_drops | by eapply dead_removes].
  - destruct (abort_cases h k Hwf) as [->|[H|(id & H)]];
      [done | by eapply dead_drops | by eapply dead_removes].
  - pose (Q := λ h0, dead h0 n oid ∧ settlements h0 n = settlements h n).
    apply (cancelForSession_keeps Q); [|done..].
    intros h1 h2 id p s Hwf1 [Hd1 Hs1] Hrm.
    destruct (dead_removes h1 h2 id p s n oid Hwf1 Hd1 Hrm) as [? Heq].
    split; [done|]. by rewrite Heq.
  - pose (Q := λ h0, dead h0 n oid ∧ settlements h0 n = settlements h n).
    apply (cancelAll_keeps Q); [|done..].
    intros h1 h2 id p s Hwf1 [Hd1 Hs1] Hrm.
    destruct (dead_removes h1 h2 id p s n oid Hwf1 Hd1 Hrm) as [? Heq].
    split; [done|]. by rewrite Heq.
Qed.

Lemma dead_applyAll acts h n oid :
  wf h → dead h n oid → Forall (λ a, spares oid a = true) acts →
  dead (applyAll acts h) n oid
  ∧ settlements (applyAll acts h) n = settlements h n.
Proof.
  revert h. induction acts as [|a acts IH]; intros h Hwf Hd Hsp; [done|].
  apply Forall_cons in Hsp as [Ha Hsp]. simpl.
  destruct (dead_apply a h n oid Hwf Hd Ha) as [Hd' Heq].
  rewrite <- Heq. apply IH; [by apply wf_apply | done..].
Qed.

(** An id without an entry gets one only through a call of the callback. *)
Lemma absent_apply a h id :
  wf h → pending h !! id = None → registers id a = false →
  pending (apply a h) !! id = None.
Proof.
  intros Hwf Hnone Hreg.
  assert (Hrm : ∀ h1 h2 id' p s, wf h1 → pending h1 !! id = None →
                 removes id' p s h1 h2 → pending h2 !! id = None).
  { intros h1 h2 id' p s _ H1 Hrm. rewrite (rm_pending _ _ _ _ _ Hrm).
    by apply lookup_delete_None; right. }
  destruct a as [sid w t id'|id' d m u|k|k|sid|]; simpl.
  - simpl in Hreg. apply bool_decide_eq_false in Hreg.
    by rewrite lookup_insert_ne.
  - destruct (pending h !! id') as [e|] eqn:He.
    + eapply Hrm; [done..|]. by apply respond_removes.
    + unfold respond. by rewrite He.
  - destruct (timeout_cases h k) as [->|[H|(id' & _ & H)]]; [done| |by eapply Hrm].
    by rewrite (dr_pending _ _ H).
  - destruct (abort_cases h k Hwf) as [->|[H|(id' & H)]]; [done| |by eapply Hrm].
    by rewrite (dr_pending _ _ H).
  - by apply (cancelForSession_keeps (λ h0, pending h0 !! id = None)).
  - by apply (cancelAll_keeps (λ h0, pending h0 !! id = None)).
Qed.

Lemma absent_applyAll acts h id :
  wf h → pending h !! id = None → Forall (λ a, registers id a = false) acts →
  pending (applyAll acts h) !! id = None.
Proof.
  revert h. induction acts as [|a acts IH]; intros h Hwf Hnone Hreg; [done|].
  apply Forall_cons in Hreg as [Ha Hreg]. simpl.
  apply IH; [by apply wf_apply | by apply absent_apply | done].
Qed.

Lemma timeoutMs_apply a h : wf h → timeoutMs (apply a h) = timeoutMs h.
Proof.
  intros Hwf.
  assert (Hrm : ∀ h1 h2 id' p s, wf h1 → timeoutMs h1 = timeoutMs h →
                 removes id' p s h1 h2 → timeoutMs h2 = timeoutMs h).
  { intros h1 h2 id' p s _ H1 Hrm. by rewrite (rm_timeoutMs _ _ _ _ _ Hrm). }
  destruct a as [sid w t id'|id' d m u|k|k|sid|]; simpl.
  - done.
  - destruct (pending h !! id') as [e|] eqn:He.
    + eapply Hrm; [done..|]. by apply respond_removes.
    + unfold respond. by rewrite He.
  - destruct (timeout_cases h k) as [->|[H|(id' & _ & H)]]; [done| |by eapply Hrm].
    by rewrite (dr_timeoutMs _ _ H).
  - destruct (abort_cases h k Hwf) as [->|[H|(id' & H)]]; [done| |by eapply Hrm].
    by rewrite (dr_timeoutMs _ _ H).
  - by apply (cancelForSession_keeps (λ h0, timeoutMs h0 = timeoutMs h)).
  - by apply (cancelAll_keeps (λ h0, timeoutMs h0 = timeoutMs h)).
Qed.

Lemma timeoutMs_applyAll acts h : wf h → timeoutMs (applyAll acts h) = timeoutMs h.
Proof.
  revert h. induction acts as [|a acts IH]; intros h Hwf; [done|].
  simpl. rewrite IH by (by apply wf_apply). by apply timeoutMs_apply.
Qed.

(** *** Unique tool-use ids *)

Lemma owned_mono h used used' :
  (∀ x, x ∈ used → x ∈ used') → owned h used → owned h used'.
Proof.
  intros Hsub [Ht Hl]. split.
  - intros n t Hn. destruct (Ht n t Hn). eauto.
  - intros n id Hn. destruct (Hl n id Hn). eauto.
Qed.

Lemma owned_new ms used : owned (newPermissionHandler ms) used.
Proof. split; intros *; simpl; by rewrite lookup_empty. Qed.

(** Timers, listeners and entries only go away. *)
Lemma owned_shrink h h' used :
  (∀ n, timers h' !! n = timers h !! n ∨ timers h' !! n = None) →
  (∀ n, listeners h' !! n = listeners h !! n ∨ listeners h' !! n = None) →
  (∀ id e, pending h' !! id = Some e → pending h !! id = Some e) →
  owned h used → owned h' used.
Proof.
  intros Ht Hl Hp [Ot Ol]. split.
  - intros n t Hn. destruct (Ht n) as [Heq|Heq]; rewrite Heq in Hn; [|done].
    destruct (Ot n t Hn) as [? H2]. split; [done|]. intros e He. apply H2, Hp, He.
  - intros n id Hn. destruct (Hl n) as [Heq|Heq]; rewrite Heq in Hn; [|done].
    destruct (Ol n id Hn) as [? H2]. split; [done|]. intros e He. apply H2, Hp, He.
Qed.

Lemma owned_removes h h' used id p s :
  owned h used → removes id p s h h' → owned h' used.
Proof.
  intros Ho Hrm. eapply owned_shrink; [| | |done].
  - intros n. destruct (rm_timers _ _ _ _ _ Hrm n) as [?|[? _]]; eauto.
  - intros n. destruct (rm_listeners _ _ _ _ _ Hrm n) as [?|[? _]]; eauto.
  - intros id' e. rewrite (rm_pending _ _ _ _ _ Hrm).
    intros H. by apply lookup_delete_Some in H as [_ ?].
Qed.

Lemma owned_drops h h' used : owned h used → drops h h' → owned h' used.
Proof.
  intros Ho Hdr. eapply owned_shrink; [| | |done].
  - intros n. destruct (dr_timers _ _ Hdr n) as [?|[? _]]; eauto.
  - intros n. destruct (dr_listeners _ _ Hdr n) as [?|[? _]]; eauto.
  - intros id' e. by rewrite (dr_pending _ _ Hdr).
Qed.

Lemma owned_canUseTool h used sid w t id :
  wf h → owned h used → id ∉ used →
  owned (canUseTool sid w t id h).1 (id :: used).
Proof.
  intros Hwf [Ot Ol] Hfresh. split; simpl.
  - intros n t0 Hn. destruct (decide (n = requests h)) as [->|Hne].
    + rewrite lookup_insert_eq in Hn. injection Hn as <-. simpl.
      split; [left|]. intros e. rewrite lookup_insert_eq. by intros [= <-].
    + rewrite lookup_insert_ne in Hn by done. destruct (Ot n t0 Hn) as [Hin H2].
      split; [by right|]. intros e He.
      rewrite lookup_insert_ne in He; [by apply H2|]. by intros ->.
  - intros n id' Hn. destruct (decide (n = requests h)) as [->|Hne].
    + rewrite lookup_insert_eq in Hn. injection Hn as <-.
      split; [left|]. intros e. rewrite lookup_insert_eq. by intros [= <-].
    + rewrite lookup_insert_ne in Hn by done. destruct (Ol n id' Hn) as [Hin H2].
      split; [by right|]. intros e He.
      rewrite lookup_insert_ne in He; [by apply H2|]. by intros ->.
Qed.

(** One action that calls the callback, if at all, for a new id. *)
Lemma owned_apply a h used :
  wf h → owned h used → (∀ x, x ∈ registered [a] → x ∉ used) →
  owned (apply a h) (registered [a] ++ used).
Proof.
  intros Hwf Ho Hfresh. destruct a as [sid w t id|id d m u|k|k|sid|]; simpl.
  - apply (owned_canUseTool h used sid w t id); [done..|]. apply Hfresh. simpl. left.
  - destruct (pending h !! id) as [e|] eqn:He.
    + eapply owned_removes; [done|]. by apply respond_removes.
    + unfold respond. by rewrite He.
  - destruct (timeout_cases h k) as [->|[H|(id & _ & H)]];
      [done | by eapply owned_drops | by eapply owned_removes].
  - destruct (abort_cases h k Hwf) as [->|[H|(id & H)]];
      [done | by eapply owned_drops | by eapply owned_removes].
  - apply (cancelForSession_keeps (λ h0, owned h0 used)); [|done..].
    intros h1 h2 id p s _ H1 Hrm. by eapply owned_removes.
  - apply (cancelAll_keeps (λ h0, owned h0 used)); [|done..].
    intros h1 h2 id p s _ H1 Hrm. by eapply owned_removes.
Qed.

Lemma registered_app acts1 acts2 :
  registered (acts1 ++ acts2) = registered acts1 ++ registered acts2.
Proof.
  induction acts1 as [|a acts1 IH]; [done|].
  destruct a; simpl; by rewrite ?IH.
Qed.

Lemma registered_cons a acts : registered (a :: acts) = registered [a] ++ registered acts.
Proof. by destruct a. Qed.

Lemma owned_applyAll acts h used :
  wf h → owned h used → NoDup (registered acts ++ used) →
  owned (applyAll acts h) (registered acts ++ used).
Proof.
  revert h used. induction acts as [|a acts IH]; intros h used Hwf Ho Hnd; [done|].
  rewrite registered_cons in Hnd |- *. cbn [applyAll foldl].
  fold (applyAll acts (apply a h)).
  eapply owned_mono; [|apply (IH (apply a h) (registered [a] ++ used))].
  - intros x. rewrite !elem_of_app. tauto.
  - by apply wf_apply.
  - apply owned_apply; [done..|]. intros x Hx Hin.
    rewrite <- app_assoc in Hnd. apply NoDup_app in Hnd as (_ & Hnd & _).
    apply (Hnd x Hx). apply elem_of_app. by right.
  - rewrite <- app_assoc in Hnd. apply NoDup_app in Hnd as (H1 & H2 & H3).
    apply NoDup_app in H3 as (H3 & H4 & H5).
    apply NoDup_app. split; [done|]. split.
    + intros x Hx Hin. apply elem_of_app in Hin as [Hin|Hin].
      * apply (H2 x Hin). apply elem_of_app. by left.
      * by apply (H4 x Hx).
    + apply NoDup_app. split; [done|]. split; [|done].
      intros x Hx Hin. apply (H2 x Hx). apply elem_of_app. by right.
Qed.

Lemma requests_apply a h : wf h →
  requests (apply a h) = requests h + length (registered [a]).
Proof.
  intros Hwf.
  assert (Hrm : ∀ h1 h2 id' p s, wf h1 → requests h1 = requests h →
                 removes id' p s h1 h2 → requests h2 = requests h).
  { intros h1 h2 id' p s _ H1 Hrm. by rewrite (rm_requests _ _ _ _ _ Hrm). }
  destruct a as [sid w t id'|id' d m u|k|k|sid|]; simpl; rewrite ?Nat.add_0_r.
  - lia.
  - destruct (pending h !! id') as [e|] eqn:He.
    + eapply Hrm; [done..|]. by apply respond_removes.
    + unfold respond. by rewrite He.
  - destruct (timeout_cases h k) as [->|[H|(id' & _ & H)]]; [done| |by eapply Hrm].
    by rewrite (dr_requests _ _ H).
  - destruct (abort_cases h k Hwf) as [->|[H|(id' & H)]]; [done| |by eapply Hrm].
    by rewrite (dr_requests _ _ H).
  - by apply (cancelForSession_keeps (λ h0, requests h0 = requests h)).
  - by apply (cancelAll_keeps (λ h0, requests h0 = requests h)).
Qed.

Lemma requests_applyAll acts h : wf h →
  requests (applyAll acts h) = requests h + length (registered acts).
Proof.
  revert h. induction acts as [|a acts IH]; intros h Hwf; [simpl; lia|].
  cbn [applyAll foldl]. fold (applyAll acts (apply a h)).
  rewrite IH by (by apply wf_apply). rewrite requests_apply by done.
  rewrite (registered_cons a acts), length_app. lia.
Qed.

(** A loop that cancels only entries of other sessions leaves the entry. *)
Lemma cancel_loop_spares sid id e l h :
  sessionId e ≠ sid → (∀ e', (id, e') ∈ l → e' = e) →
  pending
    (foldl (λ h kv, if bool_decide (sessionId kv.2 = sid)
                    then cancelEntry (js "Session closed") h kv else h) h l) !! id
  = pending h !! id.
Proof.
  intros Hsid. revert h. induction l as [|[k v] l IH]; intros h Hl; [done|].
  cbn [foldl]. rewrite IH by (intros e' Hin; apply Hl; by right).
  cbn [snd]. destruct (bool_decide (sessionId v = sid)) eqn:E; [|done].
  apply bool_decide_eq_true in E. simpl.
  apply lookup_delete_ne. intros ->. rewrite (Hl v) in E; [done|left].
Qed.

(** An entry stays where it is under every action that does not touch it,
    when ids are not reused. *)
Lemma entry_stays a h used id e :
  wf h → owned h used → pending h !! id = Some e →
  touches id (sessionId e) (promise e) a = false →
  (∀ x, x ∈ registered [a] → x ∉ used) →
  pending (apply a h) !! id = Some e.
Proof.
  intros Hwf Ho He Ht Hfresh.
  destruct (wf_entry h Hwf id e He) as (H1 & H2 & H3 & H4 & H5).
  assert (Hused : id ∈ used).
  { destruct (own_timer h used Ho _ _ H3) as [Hin _]. done. }
  assert (Hrm : ∀ id' s, id' ≠ id → ∀ p h', removes id' p s h h' →
                 pending h' !! id = Some e).
  { intros id' s Hne p h' Hrm. rewrite (rm_pending _ _ _ _ _ Hrm).
    by rewrite lookup_delete_ne. }
  assert (Hcap : ∀ k id', k ≠ promise e → captured h k id' → id' ≠ id).
  { intros k id' Hk [(t & Hkt & Hid)|Hl] ->.
    - destruct (own_timer h used Ho k t Hkt) as [_ Hown].
      rewrite Hid in Hown. specialize (Hown e He). congruence.
    - destruct (own_listener h used Ho k id Hl) as [_ Hown].
      specialize (Hown e He). congruence. }
  destruct a as [sid w t id'|id' d m u|k|k|sid|]; simpl in *.
  - rewrite lookup_insert_ne; [done|]. intros ->. apply (Hfresh id); [left|done].
  - apply bool_decide_eq_false in Ht.
    destruct (pending h !! id') as [e'|] eqn:He'.
    + eapply (Hrm id'); [done|]. by apply respond_removes.
    + unfold respond. by rewrite He'.
  - apply bool_decide_eq_false in Ht.
    destruct (timeout_cases h k) as [->|[H|(id' & _ & H)]]; [done| |].
    + by rewrite (dr_pending _ _ H).
    + eapply (Hrm id'); [|done]. eapply Hcap; [done|]. apply (rm_captured _ _ _ _ _ H).
  - apply bool_decide_eq_false in Ht.
    destruct (abort_cases h k Hwf) as [->|[H|(id' & H)]]; [done| |].
    + by rewrite (dr_pending _ _ H).
    + eapply (Hrm id'); [|done]. eapply Hcap; [done|]. apply (rm_captured _ _ _ _ _ H).
  - apply bool_decide_eq_false in Ht. unfold cancelForSession.
    rewrite (cancel_loop_spares sid id e); [done|congruence|].
    intros e' Hin. apply elem_of_map_to_list in Hin. congruence.
  - done.
Qed.

Lemma entry_stays_all acts h used id e :
  wf h → owned h used → pending h !! id = Some e →
  Forall (λ a, touches id (sessionId e) (promise e) a = false) acts →
  NoDup (registered acts ++ used) →
  pending (applyAll acts h) !! id = Some e.
Proof.
  revert h used. induction acts as [|a acts IH]; intros h used Hwf Ho He Ht Hnd; [done|].
  apply Forall_cons in Ht as [Ha Ht].
  rewrite registered_cons, <- app_assoc in Hnd.
  apply NoDup_app in Hnd as (Hnd1 & Hnd2 & Hnd3).
  assert (Hfresh : ∀ x, x ∈ registered [a] → x ∉ used).
  { intros x Hx Hin. apply (Hnd2 x Hx). apply elem_of_app. by right. }
  cbn [applyAll foldl]. fold (applyAll acts (apply a h)).
  apply (IH (apply a h) (registered [a] ++ used)).
  - by apply wf_apply.
  - by apply owned_apply.
  - by eapply entry_stays.
  - done.
  - apply NoDup_app in Hnd3 as (H3 & H4 & H5).
    apply NoDup_app. split; [done|]. split.
    + intros x Hx Hin. apply elem_of_app in Hin as [Hin|Hin].
      * apply (Hnd2 x Hin). apply elem_of_app. by left.
      * by apply (H4 x Hx).
    + apply NoDup_app. split; [done|]. split; [|done]. done.
Qed.

End permission_facts.

(** ** Closures over one tool-use id *)

Section permission_sole.
Import Permission.
Implicit Types (h : handler) (id : jsstring) (P : nat → Prop).

Lemma sole_removes id P id' p s h h' :
  sole h id P → removes id' p s h h' → sole h' id P.
Proof.
  intros [S1 S2] Hrm. split.
  - intros k t Hk Hid. destruct (rm_timers _ _ _ _ _ Hrm k) as [Heq|[Hnone _]].
    + rewrite Heq in Hk. eauto.
    + congruence.
  - intros k Hk. destruct (rm_listeners _ _ _ _ _ Hrm k) as [Heq|[Hnone _]].
    + rewrite Heq in Hk. eauto.
    + congruence.
Qed.

Lemma sole_drops id P h h' : sole h id P → drops h h' → sole h' id P.
Proof.
  intros [S1 S2] Hdr. split.
  - intros k t Hk Hid. destruct (dr_timers _ _ Hdr k) as [Heq|[Hnone _]].
    + rewrite Heq in Hk. eauto.
    + congruence.
  - intros k Hk. destruct (dr_listeners _ _ Hdr k) as [Heq|[Hnone _]].
    + rewrite Heq in Hk. eauto.
    + congruence.
Qed.

(** An action that is not a call of the callback for [id] makes no closure
    over [id]. *)
Lemma sole_apply a h id P :
  wf h → sole h id P → registers id a = false → sole (apply a h) id P.
Proof.
  intros Hwf Hs Hreg.
  destruct a as [sid w t id'|id' d m u|k|k|sid|]; simpl.
  - simpl in Hreg. apply bool_decide_eq_false in Hreg. destruct Hs as [S1 S2].
    split; simpl.
    + intros k t0 Hk Hid. destruct (decide (k = requests h)) as [->|Hne].
      * rewrite lookup_insert_eq in Hk. injection Hk as <-. done.
      * rewrite lookup_insert_ne in Hk by done. eauto.
    + intros k Hk. destruct (decide (k = requests h)) as [->|Hne].
      * rewrite lookup_insert_eq in Hk. congruence.
      * rewrite lookup_insert_ne in Hk by done. eauto.
  - destruct (pending h !! id') as [e|] eqn:He.
    + eapply sole_removes; [done|]. by apply respond_removes.
    + unfold respond. by rewrite He.
  - destruct (timeout_cases h k) as [->|[H|(id' & _ & H)]];
      [done | by eapply sole_drops | by eapply sole_removes].
  - destruct (abort_cases h k Hwf) as [->|[H|(id' & H)]];
      [done | by eapply sole_drops | by eapply sole_removes].
  - apply (cancelForSession_keeps (λ h, sole h id P) sid h); [|done..].
    intros h1 h2 id' p s _ H1 Hrm. by eapply sole_removes.
  - apply (cancelAll_keeps (λ h, sole h id P) h); [|done..].
    intros h1 h2 id' p s _ H1 Hrm. by eapply sole_removes.
Qed.

Lemma sole_applyAll acts h id P :
  wf h → sole h id P → Forall (λ a, registers id a = false) acts →
  sole (applyAll acts h) id P.
Proof.
  revert h. induction acts as [|a acts IH]; intros h Hwf Hs Hreg; [done|].
  apply Forall_cons in Hreg as [Ha Hreg]. simpl.
  apply IH; [by apply wf_apply | by apply sole_apply | done].
Qed.

Lemma sole_new ms id P : sole (newPermissionHandler ms) id P.
Proof. split; intros k *; simpl; by rewrite lookup_empty. Qed.

(** The call of the callback for [id] on a handler without closures over
    [id]. *)
Lemma sole_canUseTool h sid w t id :
  sole h id (λ _, False) →
  sole (canUseTool sid w t id h).1 id (λ k, k = requests h).
Proof.
  intros [S1 S2]. split; simpl.
  - intros k t0 Hk Hid. destruct (decide (k = requests h)) as [->|Hne]; [done|].
    rewrite lookup_insert_ne in Hk by done. by destruct (S1 k t0 Hk Hid).
  - intros k Hk. destruct (decide (k = requests h)) as [->|Hne]; [done|].
    rewrite lookup_insert_ne in Hk by done. by destruct (S2 k Hk).
Qed.

(** An entry whose closures are the only ones over its id stays where it
    is under every action that does not touch it. *)
Lemma entry_holds a h id e :
  wf h → sole h id (λ k, k = promise e) → pending h !! id = Some e →
  touches id (sessionId e) (promise e) a = false →
  registers id a = false →
  pending (apply a h) !! id = Some e.
Proof.
  intros Hwf [S1 S2] He Ht Hreg.
  assert (Hrm : ∀ id' s, id' ≠ id → ∀ p h', removes id' p s h h' →
                 pending h' !! id = Some e).
  { intros id' s Hne p h' Hrm. rewrite (rm_pending _ _ _ _ _ Hrm).
    by rewrite lookup_delete_ne. }
  assert (Hcap : ∀ k id', k ≠ promise e → captured h k id' → id' ≠ id).
  { intros k id' Hk [(t & Hkt & Hid)|Hl] ->.
    - by apply Hk, (S1 k t).
    - by apply Hk, S2. }
  destruct a as [sid w t id'|id' d m u|k|k|sid|]; simpl in *.
  - apply bool_decide_eq_false in Hreg. by rewrite lookup_insert_ne.
  - apply bool_decide_eq_false in Ht.
    destruct (pending h !! id') as [e'|] eqn:He'.
    + eapply (Hrm id'); [done|]. by apply respond_removes.
    + unfold respond. by rewrite He'.
  - apply bool_decide_eq_false in Ht.
    destruct (timeout_cases h k) as [->|[H|(id' & _ & H)]]; [done| |].
    + by rewrite (dr_pending _ _ H).
    + eapply (Hrm id'); [|done]. eapply Hcap; [done|]. apply (rm_captured _ _ _ _ _ H).
  - apply bool_decide_eq_false in Ht.
    destruct (abort_cases h k Hwf) as [->|[H|(id' & H)]]; [done| |].
    + by rewrite (dr_pending _ _ H).
    + eapply (Hrm id'); [|done]. eapply Hcap; [done|]. apply (rm_captured _ _ _ _ _ H).
  - apply bool_decide_eq_false in Ht. unfold cancelForSession.
    rewrite (cancel_loop_spares sid id e); [done|congruence|].
    intros e' Hin. apply elem_of_map_to_list in Hin. congruence.
  - done.
Qed.

Lemma entry_holds_all acts h id e :
  wf h → sole h id (λ k, k = promise e) → pending h !! id = Some e →
  Forall (λ a, touches id (sessionId e) (promise e) a = false) acts →
  Forall (λ a, registers id a = false) acts →
  pending (applyAll acts h) !! id = Some e.
Proof.
  revert h. induction acts as [|a acts IH]; intros h Hwf Hs He Ht Hreg; [done|].
  apply Forall_cons in Ht as [Ha Ht]. apply Forall_cons in Hreg as [Hr Hreg].
  cbn [applyAll foldl]. fold (applyAll acts (apply a h)).
  apply IH; [by apply wf_apply | by apply sole_apply | by eapply entry_holds | done..].
Qed.

End permission_sole.

Section permission_claims.
Import Permission.

(** An entry that is in the table when its timer fires. *)
Lemma timeout_resolves_pending (ms : N) (acts later : list action)
    (id : jsstring) (e : PendingPermission) :
  let h := applyAll acts (newPermissionHandler ms) in
  let h' := timeout (timeoutId e) h in
  let verdict := Resolve (Deny (js "Permission request timed out") id) in
  pending h !! id = Some e →
  Forall (λ a, registers id a = false) later →
  timers h !! timeoutId e = Some (mkTimer id ms)
  ∧ settlements h (promise e) = []
  ∧ pending h' !! id = None
  ∧ settlements h' (promise e) = [verdict]
  ∧ pending (applyAll later h') !! id = None
  ∧ settlements (applyAll later h') (promise e) = [verdict].
Proof.
  intros h h' verdict He Hlater.
  assert (wf h) as Hwf by apply wf_applyAll, wf_new.
  assert (timeoutMs h = ms) as Hms by (unfold h; by rewrite timeoutMs_applyAll by apply wf_new).
  destruct (wf_entry h Hwf id e He) as (H1 & H2 & H3 & H4 & H5).
  rewrite Hms in H3.
  assert (Hh' : h' = settle (timeoutId e) verdict
                       (deletePending id (clearTimeout (timeoutId e) h))).
  { unfold h', timeout. rewrite H3. cbn [clearTimeout pending timerToolUseID].
    by rewrite He. }
  assert (wf h') as Hwf' by apply (wf_apply (Timeout (timeoutId e))), Hwf.
  assert (Hnone : pending h' !! id = None).
  { rewrite Hh'. simpl. apply lookup_delete_eq. }
  assert (Hset : settlements h' (promise e) = [verdict]).
  { rewrite Hh', <- H2, settlements_settle_eq.
    change (settlements h (timeoutId e) ++ [verdict] = [verdict]).
    by rewrite H2, H5. }
  assert (Hdead : dead h' (promise e) (Some id)).
  { split; [|split].
    - rewrite Hh', <- H2. simpl. apply lookup_delete_eq.
    - replace (requests h') with (requests h) by (by rewrite Hh').
      by eapply wf_listener.
    - right. exists id. split; [done|]. split; [|done].
      rewrite Hh'. simpl. done. }
  repeat (split; [done|]). split.
  - by apply absent_applyAll.
  - rewrite <- Hset. apply (dead_applyAll later h' (promise e) (Some id)); [done..|].
    eapply Forall_impl; [done|]. intros a Ha. simpl. by rewrite Ha.
Qed.

Lemma unregistered_later (id : jsstring) (later : list action) :
  id ∉ registered later → Forall (λ a, registers id a = false) later.
Proof.
  induction later as [|a later IH]; intros Hnot; [done|].
  rewrite registered_cons in Hnot. apply not_elem_of_app in Hnot as [Ha Hrest].
  apply Forall_cons. split; [|by apply IH].
  destruct a as [sid w t id'| | | | |]; try done. simpl in *.
  apply bool_decide_eq_false. intros ->. apply Ha. left.
Qed.

(** [C5] (amended) For an entry whose tool-use id is used for no other
    request: an entry made by the [n]-th call of the callback that is not
    answered, aborted or cancelled (and whose timer has not fired) is
    still in the table with its timer armed for the configured delay;
    when the timer fires, the entry is removed and its promise, not called
    before, is resolved with [deny] and the message "Permission request
    timed out"; nothing that happens later calls the promise again or
    brings the entry back. *)
Theorem timeout_auto_deny (ms : N) (pre mid later : list action)
    (sid w t id : jsstring) :
  let n := length (registered pre) in
  let acts := pre ++ CanUseTool sid w t id :: mid in
  let h := applyAll acts (newPermissionHandler ms) in
  let h' := timeout n h in
  let verdict := Resolve (Deny (js "Permission request timed out") id) in
  id ∉ registered (pre ++ mid ++ later) →
  Forall (λ a, touches id sid n a = false) mid →
  pending h !! id = Some (mkPending id sid w n n)
  ∧ timers h !! n = Some (mkTimer id ms)
  ∧ settlements h n = []
  ∧ pending h' !! id = None
  ∧ settlements h' n = [verdict]
  ∧ pending (applyAll later h') !! id = None
  ∧ settlements (applyAll later h') n = [verdict].
Proof.
  intros n acts h h' verdict Hnot Hmid.
  rewrite !registered_app in Hnot.
  apply not_elem_of_app in Hnot as [Hpre Hnot].
  apply not_elem_of_app in Hnot as [Hmid' Hlater'].
  set (e := mkPending id sid w n n).
  set (h0 := applyAll pre (newPermissionHandler ms)).
  assert (wf h0) as Hwf0 by apply wf_applyAll, wf_new.
  assert (requests h0 = n) as Hn.
  { unfold h0. rewrite requests_applyAll by apply wf_new. done. }
  assert (sole h0 id (λ _, False)) as Hs0.
  { apply sole_applyAll; [apply wf_new | apply sole_new |].
    by apply unregistered_later. }
  set (h1 := apply (CanUseTool sid w t id) h0).
  assert (He1 : pending h1 !! id = Some e).
  { unfold h1. simpl. rewrite Hn. apply lookup_insert_eq. }
  assert (Hs1 : sole h1 id (λ k, k = n)).
  { rewrite <- Hn. apply sole_canUseTool, Hs0. }
  assert (He : pending h !! id = Some e).
  { unfold h, acts, applyAll. rewrite foldl_app. cbn [foldl].
    apply (entry_holds_all mid h1 id e); [by apply wf_apply|done..|].
    by apply unregistered_later. }
  assert (Hlater : Forall (λ a, registers id a = false) later)
    by (by apply unregistered_later).
  destruct (timeout_resolves_pending ms acts later id e He Hlater)
    as (H1 & H2 & H3 & H4 & H5 & H6).
  done.
Qed.

Lemma timeout_auto_deny_witness :
  let pre := [CanUseTool (js "S1") (js "w1") (js "bash") (js "T1")] in
  let mid := [Respond (js "T1") allow None None; CancelForSession (js "S0")] in
  let later := [Abort 1; Timeout 1; Respond (js "T2") allow None None; CancelAll] in
  let h := applyAll (pre ++ CanUseTool (js "S1") (js "w1") (js "bash") (js "T2") :: mid)
             (newPermissionHandler DEFAULT_PERMISSION_TIMEOUT_MS) in
  let verdict := Resolve (Deny (js "Permission request timed out") (js "T2")) in
  pending (timeout 1 h) !! js "T2" = None
  ∧ settlements (applyAll later (timeout 1 h)) 1 = [verdict].
Proof.
  intros pre mid later h verdict.
  destruct (timeout_auto_deny DEFAULT_PERMISSION_TIMEOUT_MS pre mid later
              (js "S1") (js "w1") (js "bash") (js "T2"))
    as (_ & _ & _ & H4 & _ & _ & H7).
  - apply (bool_decide_unpack _). vm_compute. exact I.
  - repeat constructor.
  - split; [exact H4 | exact H7].
Defined.

(** [C5] as stated fails: when a tool-use id is used for a second request
    while the first is pending, the timer of the first request removes the
    entry of the second and resolves the promise of the first; the
    promise of the second request, never answered, aborted or cancelled,
    is not resolved, also not when its own timer has fired. *)
Lemma timeout_after_reused_id :
  let requested :=
    applyAll [CanUseTool (js "S1") (js "w1") (js "bash") (js "T1");
              CanUseTool (js "S1") (js "w1") (js "bash") (js "T1")]
      (newPermissionHandler DEFAULT_PERMISSION_TIMEOUT_MS) in
  let h := applyAll [Timeout 0; Timeout 1] requested in
  pending requested !! js "T1"
  = Some (mkPending (js "T1") (js "S1") (js "w1") 1 1)
  ∧ timers requested !! 1
    = Some (mkTimer (js "T1") DEFAULT_PERMISSION_TIMEOUT_MS)
  ∧ pending (timeout 0 requested) !! js "T1" = None
  ∧ settlements h 0 = [Resolve (Deny (js "Permission request timed out") (js "T1"))]
  ∧ settlements h 1 = []
  ∧ timers h = ∅.
Proof. vm_compute. done. Qed.

(** [C6] [respond] for a tool-use id without an entry returns [false] and
    changes nothing (it has no failing path).  For an id with an entry it
    returns [true], removes the entry, clears its timer and calls the
    promise, not called before, with [allow] and the updated permissions,
    or with [deny] and the message, "Permission denied by user" when none
    is given; nothing that happens later calls that promise again. *)
Theorem respond_resolves_once (ms : N) (acts later : list action)
    (id : jsstring) (d : Decision) (m : option jsstring)
    (u : option (list PermissionUpdate)) :
  let h := applyAll acts (newPermissionHandler ms) in
  let h' := (respond id d m u h).1 in
  let answer :=
    Resolve match d with
            | allow => Allow u id
            | deny => Deny (default (js "Permission denied by user") m) id
            end in
  match pending h !! id with
  | None => respond id d m u h = (h, false)
  | Some e =>
      (respond id d m u h).2 = true
      ∧ pending h' !! id = None
      ∧ timers h !! timeoutId e = Some (mkTimer id ms)
      ∧ timers h' !! timeoutId e = None
      ∧ settlements h (promise e) = []
      ∧ settlements h' (promise e) = [answer]
      ∧ settlements (applyAll later h') (promise e) = [answer]
  end.
Proof.
  intros h h' answer.
  assert (wf h) as Hwf by apply wf_applyAll, wf_new.
  assert (timeoutMs h = ms) as Hms by (unfold h; by rewrite timeoutMs_applyAll by apply wf_new).
  destruct (pending h !! id) as [e|] eqn:He; [|unfold respond; by rewrite He].
  destruct (wf_entry h Hwf id e He) as (H1 & H2 & H3 & H4 & H5).
  rewrite Hms in H3.
  assert (Hh' : h' = entrySettle e answer
                       (deletePending id (clearTimeout (timeoutId e) h))).
  { unfold h', respond. rewrite He. by destruct d. }
  assert (wf h') as Hwf' by apply (wf_apply (Respond id d m u)), Hwf.
  assert (Hset : settlements h' (promise e) = [answer]).
  { rewrite Hh'. unfold entrySettle. rewrite settlements_settle_eq.
    change (settlements h (promise e) ++ [answer] = [answer]). by rewrite H5. }
  assert (Hdead : dead h' (promise e) None).
  { split; [|split].
    - rewrite Hh', <- H2. simpl. apply lookup_delete_eq.
    - replace (requests h') with (requests h) by (by rewrite Hh').
      by eapply wf_listener.
    - left. rewrite Hh'. simpl. apply lookup_delete_eq. }
  split; [unfold respond; by rewrite He|].
  split; [rewrite Hh'; simpl; apply lookup_delete_eq|].
  split; [done|].
  split; [rewrite Hh'; simpl; apply lookup_delete_eq|].
  split; [done|]. split; [done|].
  rewrite <- Hset. apply (dead_applyAll later h' (promise e) None); [done..|].
  apply Forall_forall. done.
Qed.

End permission_claims.

Section permission_examples.
Import Permission.

Example permission_respond_twice :
  let h := (canUseTool (js "S1") (js "w1") (js "bash") (js "T1")
              (newPermissionHandler DEFAULT_PERMISSION_TIMEOUT_MS)).1 in
  let r1 := respond (js "T1") deny (Some (js "no")) None h in
  let r2 := respond (js "T1") deny (Some (js "no")) None r1.1 in
  r1.2 = true ∧ r2.2 = false
  ∧ settlements r2.1 0 = [Resolve (Deny (js "no") (js "T1"))].
Proof. vm_compute. done. Qed.

(** A tool-use id registered twice: the timer of the first call removes
    the entry of the second, whose promise is then never called. *)
Example permission_duplicate_id :
  let h := applyAll [CanUseTool (js "S1") (js "w1") (js "bash") (js "T1");
                     CanUseTool (js "S1") (js "w1") (js "bash") (js "T1");
                     Timeout 0; Timeout 1]
             (newPermissionHandler DEFAULT_PERMISSION_TIMEOUT_MS) in
  pending h !! js "T1" = None ∧ settlements h 1 = [].
Proof. vm_compute. done. Qed.

End permission_examples.

(** ** Abort and cancellation *)

Section permission_more.
Import Permission.
Implicit Types (h : handler) (id sid : jsstring) (e : PendingPermission)
  (s : Settlement) (a : action).

(** A loop over entries leaves alone what is stored under other keys. *)
Lemma cancel_loop_other err
    (g : handler → jsstring * PendingPermission → handler) id l h :
  (∀ h kv, g h kv = h ∨ g h kv = cancelEntry err h kv) →
  id ∉ l.*1 → pending (foldl g h l) !! id = pending h !! id.
Proof.
  intros Hg. revert h. induction l as [|[k v] l IH]; intros h Hid; [done|].
  simpl in Hid. apply not_elem_of_cons in Hid as [Hne Hid]. cbn [foldl].
  rewrite IH by done. destruct (Hg h (k, v)) as [-> | ->]; [done|].
  simpl. by apply lookup_delete_ne.
Qed.

(** What cancelling one entry leaves behind. *)
Lemma cancelEntry_done err h id e :
  wf h → pending h !! id = Some e →
  let h' := cancelEntry err h (id, e) in
  pending h' !! id = None
  ∧ dead h' (promise e) None
  ∧ settlements h' (promise e) = [Reject err].
Proof.
  intros Hwf He h'.
  destruct (wf_entry h Hwf id e He) as (H1 & H2 & H3 & H4 & H5).
  split; [apply lookup_delete_eq|]. split; [split; [|split]|].
  - unfold h'. simpl. rewrite <- H2. apply lookup_delete_eq.
  - unfold h'. simpl. by eapply wf_listener.
  - left. unfold h'. simpl. apply lookup_delete_eq.
  - unfold h', cancelEntry, entrySettle. cbn [deletePending].
    unfold settlements at 1. simpl. rewrite lookup_insert_eq. simpl.
    change (settlements h (promise e) ++ [Reject err] = [Reject err]).
    by rewrite H5.
Qed.

(** The entry that a loop cancels is gone afterwards, with its timer and
    its abort handler, and its promise was rejected once. *)
Lemma cancel_loop_hits err
    (g : handler → jsstring * PendingPermission → handler) id e l h :
  (∀ h kv, g h kv = h ∨ g h kv = cancelEntry err h kv) →
  (∀ h, g h (id, e) = cancelEntry err h (id, e)) →
  NoDup l.*1 → (∀ k v, (k, v) ∈ l → pending h !! k = Some v) →
  wf h → (id, e) ∈ l →
  let h' := foldl g h l in
  pending h' !! id = None
  ∧ timers h' !! timeoutId e = None
  ∧ listeners h' !! promise e = None
  ∧ settlements h' (promise e) = [Reject err].
Proof.
  intros Hg Hhit Hnd Hl Hwf Hin h'.
  apply list_elem_of_split in Hin as (l1 & l2 & ->).
  rewrite fmap_app in Hnd. cbn [fmap list_fmap fst] in Hnd.
  apply NoDup_app in Hnd as (Hnd1 & Hnd12 & Hnd2).
  apply NoDup_cons in Hnd2 as [Hnotin2 Hnd2].
  set (h1 := foldl g h l1).
  assert (wf h1) as Hwf1.
  { apply (cancel_loop (λ _, True) err g Hg); try done.
    intros k v Hkv. apply Hl, elem_of_app. by left. }
  assert (pending h1 !! id = Some e) as He1.
  { unfold h1. rewrite (cancel_loop_other err g id l1 h Hg).
    - apply Hl, elem_of_app. right. left.
    - intros Hin. apply (Hnd12 id Hin). left. }
  assert (∀ k v, (k, v) ∈ l2 → pending (cancelEntry err h1 (id, e)) !! k = Some v)
    as Hl2.
  { intros k v Hkv. simpl. rewrite lookup_delete_ne.
    - unfold h1. rewrite (cancel_loop_other err g k l1 h Hg).
      + apply Hl, elem_of_app. right. by right.
      + intros Hin. apply (Hnd12 k Hin). right.
        apply list_elem_of_fmap. by exists (k, v).
    - intros <-. apply Hnotin2. apply list_elem_of_fmap. by exists (id, v). }
  destruct (cancelEntry_done err h1 id e Hwf1 He1) as (Hp & Hd & Hs).
  pose (Q := λ h0 : handler, dead h0 (promise e) None
                ∧ settlements h0 (promise e) = [Reject err]
                ∧ pending h0 !! id = None).
  assert (wf h' ∧ Q h') as [_ (Hd' & Hs' & Hp')].
  { unfold h'. rewrite foldl_app. cbn [foldl]. fold h1. rewrite Hhit.
    apply (cancel_loop Q err g Hg); try done.
    - intros h2 h3 k p s Hwf2 (Hd2 & Hs2 & Hp2) Hrm.
      destruct (dead_removes h2 h3 k p s _ None Hwf2 Hd2 Hrm) as [Hd3 Hs3].
      split; [done|]. split; [congruence|].
      rewrite (rm_pending _ _ _ _ _ Hrm). apply lookup_delete_None. by right.
    - eapply wf_removes; [done|]. by apply cancelEntry_removes. }
  destruct (wf_entry h1 Hwf1 id e He1) as (_ & H2 & _).
  destruct Hd' as (Ht & _ & [Hlis | (? & ? & _)]); [|done].
  rewrite H2. done.
Qed.

End permission_more.

Section permission_extras.
Import Permission.

(** [X1] When the abort signal of a call fires while its entry is in the
    table, the entry is removed, its timer is cleared, its abort handler
    is gone and its promise, not called before, is rejected with
    "Permission request aborted"; nothing later calls that promise
    again. *)
Theorem abort_rejects_once (ms : N) (acts later : list action)
    (id : jsstring) (e : PendingPermission) :
  let h := applyAll acts (newPermissionHandler ms) in
  let h' := abort (promise e) h in
  let verdict := Reject (js "Permission request aborted") in
  pending h !! id = Some e →
  pending h' !! id = None
  ∧ timers h' !! timeoutId e = None
  ∧ listeners h' !! promise e = None
  ∧ settlements h (promise e) = []
  ∧ settlements h' (promise e) = [verdict]
  ∧ settlements (applyAll later h') (promise e) = [verdict].
Proof.
  intros h h' verdict He.
  assert (wf h) as Hwf by apply wf_applyAll, wf_new.
  destruct (wf_entry h Hwf id e He) as (H1 & H2 & H3 & H4 & H5).
  assert (Hh' : h' = settle (promise e) verdict
                       (deletePending id
                          (clearTimeout (timeoutId e) (removeListener (promise e) h)))).
  { unfold h', abort. rewrite H4. cbn [removeListener pending]. by rewrite He. }
  assert (wf h') as Hwf' by apply (wf_apply (Abort (promise e))), Hwf.
  assert (Hset : settlements h' (promise e) = [verdict]).
  { rewrite Hh', settlements_settle_eq.
    change (settlements h (promise e) ++ [verdict] = [verdict]). by rewrite H5. }
  assert (Hdead : dead h' (promise e) None).
  { split; [|split].
    - rewrite Hh', <- H2. simpl. apply lookup_delete_eq.
    - replace (requests h') with (requests h) by (by rewrite Hh').
      by eapply wf_listener.
    - left. rewrite Hh'. simpl. apply lookup_delete_eq. }
  split; [rewrite Hh'; simpl; apply lookup_delete_eq|].
  split; [rewrite Hh'; simpl; apply lookup_delete_eq|].
  split; [rewrite Hh'; simpl; apply lookup_delete_eq|].
  split; [done|]. split; [done|].
  rewrite <- Hset. apply (dead_applyAll later h' (promise e) None); [done..|].
  apply Forall_forall. done.
Qed.

Lemma abort_rejects_once_witness :
  let h := applyAll [CanUseTool (js "S1") (js "w1") (js "bash") (js "T1")]
             (newPermissionHandler 1000) in
  settlements (applyAll [Timeout 0; Respond (js "T1") allow None None; Abort 0]
                 (abort 0 h)) 0
  = [Reject (js "Permission request aborted")].
Proof.
  intros h.
  apply (abort_rejects_once 1000
           [CanUseTool (js "S1") (js "w1") (js "bash") (js "T1")]
           [Timeout 0; Respond (js "T1") allow None None; Abort 0]
           (js "T1") (mkPending (js "T1") (js "S1") (js "w1") 0 0)).
  vm_compute. reflexivity.
Defined.

(** [X2] [cancelForSession] removes exactly the entries of the session:
    such an entry is gone with its timer and abort handler, and its
    promise, not called before, is rejected once with "Session closed";
    an entry of another session stays as it is with its promise uncalled;
    afterwards the session has no pending entry. *)
Theorem cancelForSession_effect (ms : N) (acts : list action)
    (sid id : jsstring) (e : PendingPermission) :
  let h := applyAll acts (newPermissionHandler ms) in
  let h' := cancelForSession sid h in
  pending h !! id = Some e →
  (if bool_decide (sessionId e = sid)
   then pending h' !! id = None
        ∧ timers h' !! timeoutId e = None
        ∧ listeners h' !! promise e = None
        ∧ settlements h' (promise e) = [Reject (js "Session closed")]
   else pending h' !! id = Some e ∧ settlements h' (promise e) = [])
  ∧ getPendingForSession sid h' = [].
Proof.
  intros h h' He.
  assert (wf h) as Hwf by apply wf_applyAll, wf_new.
  assert (wf h') as Hwf' by apply (wf_apply (CancelForSession sid)), Hwf.
  set (g := λ (h0 : handler) (kv : jsstring * PendingPermission),
              if bool_decide (sessionId kv.2 = sid)
              then cancelEntry (js "Session closed") h0 kv else h0).
  assert (Hg : ∀ h0 kv, g h0 kv = h0 ∨ g h0 kv = cancelEntry (js "Session closed") h0 kv).
  { intros h0 kv. unfold g. destruct (bool_decide _); eauto. }
  assert (Hhit : ∀ k v, pending h !! k = Some v → sessionId v = sid →
                   pending h' !! k = None
                   ∧ timers h' !! timeoutId v = None
                   ∧ listeners h' !! promise v = None
                   ∧ settlements h' (promise v) = [Reject (js "Session closed")]).
  { intros k v Hv Hsid.
    apply (cancel_loop_hits (js "Session closed") g k v); try done.
    - intros h0. unfold g. cbn [snd]. by rewrite bool_decide_eq_true_2.
    - apply NoDup_fst_map_to_list.
    - intros k' v'. apply elem_of_map_to_list.
    - by apply elem_of_map_to_list. }
  assert (Hmiss : ∀ k v, pending h !! k = Some v → sessionId v ≠ sid →
                    pending h' !! k = Some v).
  { intros k v Hv Hsid. unfold h', cancelForSession.
    rewrite (cancel_loop_spares sid k v); [done..|].
    intros v' Hin. apply elem_of_map_to_list in Hin. congruence. }
  split.
  - destruct (bool_decide (sessionId e = sid)) eqn:E.
    + apply bool_decide_eq_true in E. by apply Hhit.
    + apply bool_decide_eq_false in E. pose proof (Hmiss id e He E) as He'.
      split; [done|]. by destruct (wf_entry h' Hwf' id e He') as (_ & _ & _ & _ & ?).
  - unfold getPendingForSession. apply elem_of_nil_inv. intros v Hin.
    apply list_elem_of_filter in Hin as [Hsid Hin].
    apply list_elem_of_fmap in Hin as ([k v'] & -> & Hin). simpl in Hsid.
    apply elem_of_map_to_list in Hin.
    destruct (pending h !! k) as [v0|] eqn:Hk.
    + destruct (decide (sessionId v0 = sid)) as [Heq|Hne].
      * destruct (Hhit k v0 Hk Heq) as [Hnone _]. congruence.
      * pose proof (Hmiss k v0 Hk Hne). congruence.
    + pose proof (absent_apply (CancelForSession sid) h k Hwf Hk eq_refl) as Hnone.
      simpl in Hnone. fold h' in Hnone. congruence.
Qed.

Lemma cancelForSession_effect_witness :
  let h := applyAll [CanUseTool (js "S1") (js "w1") (js "bash") (js "T1");
                     CanUseTool (js "S2") (js "w2") (js "edit") (js "T2")]
             (newPermissionHandler 1000) in
  pending (cancelForSession (js "S1") h) !! js "T2"
  = Some (mkPending (js "T2") (js "S2") (js "w2") 1 1)
  ∧ settlements (cancelForSession (js "S1") h) 1 = [].
Proof.
  intros h.
  apply (cancelForSession_effect 1000
           [CanUseTool (js "S1") (js "w1") (js "bash") (js "T1");
            CanUseTool (js "S2") (js "w2") (js "edit") (js "T2")]
           (js "S1") (js "T2") (mkPending (js "T2") (js "S2") (js "w2") 1 1)).
  vm_compute. reflexivity.
Defined.

(** [X3] [cancelAll] empties the table: every entry is removed with its
    timer and abort handler, and its promise, not called before, is
    rejected once with "Bridge shutting down". *)
Theorem cancelAll_effect (ms : N) (acts : list action)
    (id : jsstring) (e : PendingPermission) :
  let h := applyAll acts (newPermissionHandler ms) in
  let h' := cancelAll h in
  pending h !! id = Some e →
  pending h' = ∅
  ∧ pendingCount h' = 0
  ∧ timers h' !! timeoutId e = None
  ∧ listeners h' !! promise e = None
  ∧ settlements h' (promise e) = [Reject (js "Bridge shutting down")].
Proof.
  intros h h' He.
  assert (wf h) as Hwf by apply wf_applyAll, wf_new.
  set (g := cancelEntry (js "Bridge shutting down")).
  assert (Hg : ∀ h0 kv, g h0 kv = h0 ∨ g h0 kv = cancelEntry (js "Bridge shutting down") h0 kv)
    by (intros; by right).
  assert (Hhit : ∀ k v, pending h !! k = Some v →
                   pending h' !! k = None
                   ∧ timers h' !! timeoutId v = None
                   ∧ listeners h' !! promise v = None
                   ∧ settlements h' (promise v) = [Reject (js "Bridge shutting down")]).
  { intros k v Hv.
    apply (cancel_loop_hits (js "Bridge shutting down") g k v); try done.
    - apply NoDup_fst_map_to_list.
    - intros k' v'. apply elem_of_map_to_list.
    - by apply elem_of_map_to_list. }
  assert (Hempty : pending h' = ∅).
  { apply map_eq. intros k. rewrite lookup_empty.
    destruct (pending h !! k) as [v|] eqn:Hk.
    - by destruct (Hhit k v Hk).
    - pose proof (absent_apply CancelAll h k Hwf Hk eq_refl) as Hnone. done. }
  split; [done|]. split.
  { unfold pendingCount. rewrite Hempty. apply map_size_empty. }
  by destruct (Hhit id e He) as (_ & ? & ? & ?).
Qed.

Lemma cancelAll_effect_witness :
  let h := applyAll [CanUseTool (js "S1") (js "w1") (js "bash") (js "T1");
                     CanUseTool (js "S2") (js "w2") (js "edit") (js "T2")]
             (newPermissionHandler 1000) in
  pending (cancelAll h) = ∅
  ∧ settlements (cancelAll h) 1 = [Reject (js "Bridge shutting down")].
Proof.
  intros h.
  destruct (cancelAll_effect 1000
           [CanUseTool (js "S1") (js "w1") (js "bash") (js "T1");
            CanUseTool (js "S2") (js "w2") (js "edit") (js "T2")]
           (js "T2") (mkPending (js "T2") (js "S2") (js "w2") 1 1))
    as (H1 & _ & _ & _ & H5).
  - vm_compute. reflexivity.
  - split; [exact H1 | exact H5].
Defined.

End permission_extras.
(** ** Exactly one call per promise *)

Section permission_tidy.
Import Permission.
Implicit Types (h : handler) (id sid : jsstring) (e : PendingPermission)
  (s : Settlement) (a : action) (used : list jsstring).

Lemma tidy_new ms used : tidy (newPermissionHandler ms) used.
Proof. split; intros *; simpl; rewrite ?lookup_empty; try done. lia. Qed.

Lemma tidy_mono h used used' :
  (∀ x, x ∈ used → x ∈ used') → tidy h used → tidy h used'.
Proof.
  intros Hsub [T1 T2 T3 T4]. split; [done| |done|].
  - intros n id Hn. destruct (T2 n id Hn). eauto.
  - intros id e He. eauto.
Qed.

Lemma respond_removeEntry h id d m u e :
  pending h !! id = Some e →
  (respond id d m u h).1
  = removeEntry false id e
      (Resolve match d with
               | allow => Allow u id
               | deny => Deny (default (js "Permission denied by user") m) id
               end) h.
Proof. intros He. unfold respond. rewrite He. by destruct d. Qed.

Lemma cancelEntry_removeEntry err h id e :
  cancelEntry err h (id, e) = removeEntry false id e (Reject err) h.
Proof. done. Qed.

Lemma tidy_removeEntry keep id e s h used :
  wf h → tidy h used → pending h !! id = Some e →
  tidy (removeEntry keep id e s h) used.
Proof.
  intros Hwf [T1 T2 T3 T4] He.
  destruct (wf_entry h Hwf id e He) as (H1 & H2 & H3 & H4 & H5).
  assert (Hset : ∀ n, n ≠ promise e →
            settlements (removeEntry keep id e s h) n = settlements h n).
  { intros n Hn. unfold settlements. simpl. by rewrite lookup_insert_ne. }
  assert (Hsetp : settlements (removeEntry keep id e s h) (promise e) = [s]).
  { unfold settlements at 1. simpl. rewrite lookup_insert_eq. simpl.
    change (settlements h (promise e) ++ [s] = [s]). by rewrite H5. }
  split.
  - intros n t Hn. simpl in Hn.
    apply lookup_delete_Some in Hn as [Hne Hn].
    destruct (T1 n t Hn) as (e0 & He0 & Ht0). exists e0. split; [|done].
    simpl. rewrite lookup_delete_ne; [done|]. intros Heq.
    rewrite <- Heq, He in He0. injection He0 as <-. done.
  - intros n id0 Hn.
    assert (listeners h !! n = Some id0) as Hn'.
    { simpl in Hn. destruct keep; [done|].
      by apply lookup_delete_Some in Hn as [_ ?]. }
    destruct (T2 n id0 Hn') as [Hused [(e0 & He0 & Hp0)|(Hnone & s0 & Hs0)]].
    + split; [done|]. destruct (decide (id0 = id)) as [->|Hne].
      * rewrite He in He0. injection He0 as <-. subst n. right.
        split; [simpl; apply lookup_delete_eq | eauto].
      * left. exists e0. split; [|done]. simpl. by rewrite lookup_delete_ne.
    + split; [done|]. right. split.
      * simpl. apply lookup_delete_None. by right.
      * exists s0. rewrite Hset; [done|]. intros ->. congruence.
  - intros n Hn. simpl in Hn.
    destruct (T3 n Hn) as [(id0 & e0 & He0 & Hp0)|(s0 & Hs0)].
    + destruct (decide (id0 = id)) as [->|Hne].
      * rewrite He in He0. injection He0 as <-. subst n. right. eauto.
      * left. exists id0, e0. split; [|done]. simpl. by rewrite lookup_delete_ne.
    + right. exists s0. rewrite Hset; [done|]. intros ->. congruence.
  - intros id0 e0 He0. simpl in He0.
    apply lookup_delete_Some in He0 as [_ He0]. eauto.
Qed.

Lemma timeout_removeEntry h used n t :
  wf h → tidy h used → timers h !! n = Some t →
  ∃ e, pending h !! timerToolUseID t = Some e
       ∧ timeout n h
         = removeEntry true (timerToolUseID t) e
             (Resolve (Deny (js "Permission request timed out") (timerToolUseID t))) h.
Proof.
  intros Hwf Ht Hn. destruct (tidy_timer h used Ht n t Hn) as (e & He & Hid).
  destruct (wf_entry h Hwf _ e He) as (H1 & H2 & H3 & H4 & H5).
  exists e. split; [done|]. unfold timeout. rewrite Hn.
  simpl. rewrite He.
  unfold removeEntry, settle, deletePending. simpl.
  by rewrite <- H2, Hid.
Qed.

Lemma tidy_abort h used n : wf h → tidy h used → tidy (abort n h) used.
Proof.
  intros Hwf Ht. unfold abort.
  destruct (listeners h !! n) as [id|] eqn:Hn; [|done].
  cbn [removeListener pending].
  destruct (tidy_listener h used Ht n id Hn) as [Hused [(e & He & Hp)|(Hnone & s0 & Hs0)]].
  - rewrite He. subst n.
    change (tidy (removeEntry false id e (Reject (js "Permission request aborted")) h) used).
    by apply tidy_removeEntry.
  - rewrite Hnone. destruct Ht as [T1 T2 T3 T4]. split; simpl; try done.
    intros m id0 Hm. apply lookup_delete_Some in Hm as [_ Hm]. by apply T2.
Qed.

Lemma tidy_canUseTool h used sid w t id :
  wf h → tidy h used → id ∉ used →
  tidy (canUseTool sid w t id h).1 (id :: used).
Proof.
  intros Hwf [T1 T2 T3 T4] Hfresh.
  assert (Hp : ∀ id0 e0, pending h !! id0 = Some e0 → id0 ≠ id).
  { intros id0 e0 He0 ->. apply Hfresh. eauto. }
  split; simpl.
  - intros n t0 Hn. destruct (decide (n = requests h)) as [->|Hne].
    + rewrite lookup_insert_eq in Hn. injection Hn as <-. simpl.
      rewrite lookup_insert_eq. eauto.
    + rewrite lookup_insert_ne in Hn by done.
      destruct (T1 n t0 Hn) as (e0 & He0 & Ht0). exists e0. split; [|done].
      rewrite lookup_insert_ne; [done|]. intros Heq. by apply (Hp _ _ He0).
  - intros n id0 Hn. destruct (decide (n = requests h)) as [->|Hne].
    + rewrite lookup_insert_eq in Hn. injection Hn as <-.
      split; [left|]. left. rewrite lookup_insert_eq. eauto.
    + rewrite lookup_insert_ne in Hn by done.
      destruct (T2 n id0 Hn) as [Hused Hcase]. split; [by right|].
      assert (id ≠ id0) by (intros ->; done).
      rewrite lookup_insert_ne by done. done.
  - intros n Hn. destruct (decide (n = requests h)) as [->|Hne].
    + left. exists id. eexists. rewrite lookup_insert_eq. done.
    + destruct (T3 n) as [(id0 & e0 & He0 & Hp0)|Hs]; [lia| |by right].
      left. exists id0, e0. split; [|done].
      rewrite lookup_insert_ne; [done|]. intros Heq. by apply (Hp _ _ He0).
  - intros id0 e0 He0. destruct (decide (id = id0)) as [->|Hne]; [left|].
    rewrite lookup_insert_ne in He0 by done. right. eauto.
Qed.

(** A loop that cancels entries keeps what the removal of one entry
    keeps. *)
Lemma cancel_loop_entries (Q : handler → Prop) err
    (g : handler → jsstring * PendingPermission → handler) :
  (∀ h kv, g h kv = h ∨ g h kv = cancelEntry err h kv) →
  (∀ h id e, wf h → Q h → pending h !! id = Some e → Q (cancelEntry err h (id, e))) →
  ∀ l h, NoDup l.*1 → (∀ id e, (id, e) ∈ l → pending h !! id = Some e) →
    wf h → Q h → Q (foldl g h l).
Proof.
  intros Hg HQ l. induction l as [|[id e] l IH]; intros h Hnd Hl Hwf Hq; [done|].
  simpl. apply NoDup_cons in Hnd as [Hnotin Hnd].
  assert (pending h !! id = Some e) as He by (apply Hl; left).
  destruct (Hg h (id, e)) as [->| ->].
  - apply IH; [done| |done..]. intros id' e' Hin. apply Hl. by right.
  - apply IH; [done| | |by apply HQ].
    + intros id' e' Hin. simpl. rewrite lookup_delete_ne; [apply Hl; by right|].
      intros <-. apply Hnotin. apply list_elem_of_fmap. by exists (id, e').
    + eapply wf_removes; [done|]. by apply cancelEntry_removes.
Qed.

Lemma tidy_apply a h used :
  wf h → tidy h used → (∀ x, x ∈ registered [a] → x ∉ used) →
  tidy (apply a h) (registered [a] ++ used).
Proof.
  intros Hwf Ht Hfresh. destruct a as [sid w t id|id d m u|k|k|sid|]; simpl.
  - apply (tidy_canUseTool h used sid w t id); [done..|]. apply Hfresh. simpl. left.
  - destruct (pending h !! id) as [e|] eqn:He.
    + rewrite (respond_removeEntry h id d m u e He). by apply tidy_removeEntry.
    + unfold respond. by rewrite He.
  - destruct (timers h !! k) as [t|] eqn:Hk.
    + destruct (timeout_removeEntry h used k t Hwf Ht Hk) as (e & He & ->).
      by apply tidy_removeEntry.
    + unfold timeout. by rewrite Hk.
  - by apply tidy_abort.
  - unfold cancelForSession.
    apply (cancel_loop_entries (λ h0, tidy h0 used) (js "Session closed")); try done.
    + intros h0 kv. destruct (bool_decide _); eauto.
    + intros h0 id e Hwf0 Ht0 He. rewrite cancelEntry_removeEntry.
      by apply tidy_removeEntry.
    + apply NoDup_fst_map_to_list.
    + intros id e. apply elem_of_map_to_list.
  - unfold cancelAll.
    apply (cancel_loop_entries (λ h0, tidy h0 used) (js "Bridge shutting down"));
      try done.
    + intros h0 kv. by right.
    + intros h0 id e Hwf0 Ht0 He. rewrite cancelEntry_removeEntry.
      by apply tidy_removeEntry.
    + apply NoDup_fst_map_to_list.
    + intros id e. apply elem_of_map_to_list.
Qed.

Lemma tidy_applyAll acts h used :
  wf h → tidy h used → NoDup (registered acts ++ used) →
  tidy (applyAll acts h) (registered acts ++ used).
Proof.
  revert h used. induction acts as [|a acts IH]; intros h used Hwf Ht Hnd; [done|].
  rewrite registered_cons in Hnd |- *. cbn [applyAll foldl].
  fold (applyAll acts (apply a h)).
  eapply tidy_mono; [|apply (IH (apply a h) (registered [a] ++ used))].
  - intros x. rewrite !elem_of_app. tauto.
  - by apply wf_apply.
  - apply tidy_apply; [done..|]. intros x Hx Hin.
    rewrite <- app_assoc in Hnd. apply NoDup_app in Hnd as (_ & Hnd & _).
    apply (Hnd x Hx). apply elem_of_app. by right.
  - rewrite <- app_assoc in Hnd. apply NoDup_app in Hnd as (H1 & H2 & H3).
    apply NoDup_app in H3 as (H3 & H4 & H5).
    apply NoDup_app. split; [done|]. split.
    + intros x Hx Hin. apply elem_of_app in Hin as [Hin|Hin].
      * apply (H2 x Hin). apply elem_of_app. by left.
      * by apply (H4 x Hx).
    + apply NoDup_app. split; [done|]. split; [|done].
      intros x Hx Hin. apply (H2 x Hx). apply elem_of_app. by right.
Qed.

End permission_tidy.

Section permission_tidy_claims.
Import Permission.

(** [X4] With tool-use ids that are never used twice, every promise the
    callback has made is at any time in exactly one of two states: its
    entry is in the table and the promise has not been called, or no entry
    refers to it and it has been called exactly once.  No promise is ever
    called twice and none is dropped without a call. *)
Theorem every_promise_once (ms : N) (acts : list action) (n : nat) :
  let h := applyAll acts (newPermissionHandler ms) in
  NoDup (registered acts) →
  requests h = length (registered acts)
  ∧ (n < requests h →
     (∃ id e, pending h !! id = Some e ∧ promise e = n ∧ settlements h n = [])
     ∨ ((∃ s, settlements h n = [s])
        ∧ ∀ id e, pending h !! id = Some e → promise e ≠ n))
  ∧ (requests h ≤ n → settlements h n = []).
Proof.
  intros h Hnd.
  assert (wf h) as Hwf by apply wf_applyAll, wf_new.
  assert (tidy h (registered acts)) as Ht.
  { rewrite <- (app_nil_r (registered acts)).
    apply tidy_applyAll; [apply wf_new | apply tidy_new | by rewrite app_nil_r]. }
  split; [unfold h; by rewrite requests_applyAll by apply wf_new|].
  split; [|by apply wf_fresh].
  intros Hn. destruct (tidy_promise h _ Ht n Hn) as [(id & e & He & Hp)|[s Hs]].
  - left. exists id, e. split; [done|]. split; [done|].
    destruct (wf_entry h Hwf id e He) as (_ & _ & _ & _ & H5). by rewrite <- Hp.
  - right. split; [eauto|]. intros id e He Hp.
    destruct (wf_entry h Hwf id e He) as (_ & _ & _ & _ & H5). congruence.
Qed.

Lemma every_promise_once_witness :
  let h := applyAll [CanUseTool (js "S1") (js "w1") (js "bash") (js "T1");
                     Timeout 0; Abort 0; Respond (js "T1") allow None None]
             (newPermissionHandler 1000) in
  requests h = 1 ∧ (requests h ≤ 4 → settlements h 4 = []).
Proof.
  intros h.
  destruct (every_promise_once 1000
              [CanUseTool (js "S1") (js "w1") (js "bash") (js "T1");
               Timeout 0; Abort 0; Respond (js "T1") allow None None] 4)
    as (H1 & _ & H3).
  - apply (bool_decide_unpack _). vm_compute. exact I.
  - split; [exact H1 | exact H3].
Defined.

(** [X5] With tool-use ids that are never used twice, a timer is armed
    exactly while its entry is in the table: every path that removes an
    entry also removes its timer, and no timer is left behind. *)
Theorem timer_armed_iff_pending (ms : N) (acts : list action) (n : nat) :
  let h := applyAll acts (newPermissionHandler ms) in
  NoDup (registered acts) →
  is_Some (timers h !! n)
  ↔ ∃ id e, pending h !! id = Some e ∧ timeoutId e = n.
Proof.
  intros h Hnd.
  assert (wf h) as Hwf by apply wf_applyAll, wf_new.
  assert (tidy h (registered acts)) as Ht.
  { rewrite <- (app_nil_r (registered acts)).
    apply tidy_applyAll; [apply wf_new | apply tidy_new | by rewrite app_nil_r]. }
  split.
  - intros [t Hn]. destruct (tidy_timer h _ Ht n t Hn) as (e & He & Hid). eauto.
  - intros (id & e & He & <-).
    destruct (wf_entry h Hwf id e He) as (_ & _ & H3 & _). eauto.
Qed.

Lemma timer_armed_iff_pending_witness :
  let h := applyAll [CanUseTool (js "S1") (js "w1") (js "bash") (js "T1");
                     CanUseTool (js "S1") (js "w1") (js "edit") (js "T2");
                     Respond (js "T1") deny None None]
             (newPermissionHandler 1000) in
  is_Some (timers h !! 1)
  ↔ ∃ id e, pending h !! id = Some e ∧ timeoutId e = 1.
Proof.
  intros h.
  apply (timer_armed_iff_pending 1000
           [CanUseTool (js "S1") (js "w1") (js "bash") (js "T1");
            CanUseTool (js "S1") (js "w1") (js "edit") (js "T2");
            Respond (js "T1") deny None None] 1).
  apply (bool_decide_unpack _). vm_compute. exact I.
Defined.

End permission_tidy_claims.

(** ** Promotion of the pending session id *)

Section promotion_facts.
Import Events SessionManager.
Implicit Types (m : manager) (s : SessionState) (msg : SDKMessage) (o : nat).

Lemma keeps_refl o m : keeps o m m.
Proof. split; eauto. Qed.

Lemma routeMessage_keeps msg sid wid o m : keeps o m (routeMessage msg sid wid o m).
Proof.
  unfold routeMessage.
  destruct (kind msg) as [[|]| | | |b| |[e|]|]; try (split; simpl; eauto; fail).
  - split; simpl; try done; destruct (objects m !! o) as [s0|] eqn:E; try done.
    intros s [= <-]. simpl. rewrite lookup_insert_eq. eauto.
  - destruct (isEmpty e); split; simpl; eauto.
Qed.

Lemma routeMessage_emitted msg sid wid o m :
  emitted (routeMessage msg sid wid o m) = emitted m
  ∨ ∃ p, emitted (routeMessage msg sid wid o m) = emitted m ++ [mkEvent p sid wid].
Proof.
  unfold routeMessage.
  destruct (kind msg) as [[|]| | | |b| |[e|]|]; simpl; eauto.
  - right. destruct (objects m !! o); simpl; eauto.
  - destruct (isEmpty e); simpl; eauto.
Qed.

Lemma idOf_Some o m s : objects m !! o = Some s → idOf o m = Some (sessionId s).
Proof. unfold idOf. by intros ->. Qed.

Lemma keeps_idOf o m m' s :
  keeps o m m' → objects m !! o = Some s → idOf o m' = Some (sessionId s).
Proof.
  intros Hk Hs. destruct (keeps_object o m m' Hk s Hs) as (s' & Hs' & Hid & _).
  by rewrite (idOf_Some o m' s' Hs'), Hid.
Qed.

(** A message to a session whose id is not of the pending form. *)
Lemma handleMessage_settled msg o m s :
  objects m !! o = Some s → isPendingId (sessionId s) = false →
  keeps o m (handleMessage msg o m)
  ∧ (emitted (handleMessage msg o m) = emitted m
     ∨ ∃ p, emitted (handleMessage msg o m)
            = emitted m ++ [mkEvent p (default (sessionId s) (session_id msg))
                              (workspaceId s)]).
Proof.
  intros Hs Hp. unfold handleMessage. rewrite Hs.
  assert (promoteId msg o s m = m) as ->.
  { unfold promoteId. unfold isPendingId in Hp. rewrite Hp.
    by destruct (session_id msg). }
  split; [apply routeMessage_keeps | apply routeMessage_emitted].
Qed.

(** A message without a usable id to a session whose id is pending. *)
Lemma handleMessage_waits msg o m s :
  objects m !! o = Some s →
  (session_id msg = None ∨ session_id msg = Some []) →
  keeps o m (handleMessage msg o m).
Proof.
  intros Hs Hid. unfold handleMessage. rewrite Hs.
  assert (promoteId msg o s m = m) as ->.
  { unfold promoteId. destruct Hid as [-> | ->]; [done|].
    by rewrite andb_false_r. }
  apply routeMessage_keeps.
Qed.

(** The message that carries the first id. *)
Lemma handleMessage_promotes msg o m s real :
  objects m !! o = Some s → isPendingId (sessionId s) = true →
  session_id msg = Some real → real ≠ [] →
  let m' := handleMessage msg o m in
  sessions m' = <[real := o]> (delete (sessionId s) (sessions m))
  ∧ workspaceToSession m' = <[workspaceId s := real]> (workspaceToSession m)
  ∧ resumedAs m' = resumedAs m
  ∧ (∃ s', objects m' !! o = Some s'
           ∧ sessionId s' = real ∧ workspaceId s' = workspaceId s)
  ∧ (emitted m' = emitted m
     ∨ ∃ p, emitted m' = emitted m ++ [mkEvent p real (workspaceId s)]).
Proof.
  intros Hs Hp Hid Hne m'. unfold m', handleMessage. rewrite Hs, Hid.
  change (default (sessionId s) (Some real)) with real.
  set (m1 := promoteId msg o s m).
  assert (Hm1 : m1 = setIndex (<[workspaceId s := real]> (workspaceToSession m))
                       (setSessions (<[real := o]> (delete (sessionId s) (sessions m)))
                          (setObject o (withSessionId real s) m))).
  { unfold m1, promoteId. rewrite Hid. unfold isPendingId in Hp. rewrite Hp.
    apply isEmpty_false in Hne. by rewrite Hne. }
  pose proof (routeMessage_keeps msg real (workspaceId s) o m1) as Hk.
  pose proof (routeMessage_emitted msg real (workspaceId s) o m1) as He.
  rewrite (keeps_sessions _ _ _ Hk), (keeps_index _ _ _ Hk), (keeps_resumed _ _ _ Hk).
  assert (Ho : objects m1 !! o = Some (withSessionId real s)).
  { rewrite Hm1. simpl. apply lookup_insert_eq. }
  destruct (keeps_object _ _ _ Hk _ Ho) as (s' & Hs' & H1 & H2).
  subst m1. rewrite Hm1 in He, Hs' |- *. simpl in *.
  repeat (split; [done|]). split; [eauto|done].
Qed.

Lemma keeps_trans o m1 m2 m3 : keeps o m1 m2 → keeps o m2 m3 → keeps o m1 m3.
Proof.
  intros [A1 A2 A3 A4] [B1 B2 B3 B4]. split; [congruence..|].
  intros s Hs. destruct (A4 s Hs) as (s' & Hs' & E1 & E2).
  destruct (B4 s' Hs') as (s'' & Hs'' & F1 & F2). exists s''.
  split; [done|]. split; congruence.
Qed.

(** Once the id is not of the pending form, no message changes it, and
    every event is routed under an id that is not of the pending form. *)
Lemma consume_settled msgs o m s :
  objects m !! o = Some s → isPendingId (sessionId s) = false →
  Forall (λ msg, vendorAssigned msg = true) msgs →
  keeps o m (consume msgs o m)
  ∧ replacements msgs o m = 0
  ∧ ∃ evs, emitted (consume msgs o m) = emitted m ++ evs
           ∧ Forall (λ ev, isPendingId (eventSessionId ev) = false) evs.
Proof.
  revert m s. induction msgs as [|msg msgs IH]; intros m s Hs Hp Hv.
  { split; [apply keeps_refl|]. split; [done|]. exists []. by rewrite app_nil_r. }
  apply Forall_cons in Hv as [Hmsg Hv].
  destruct (handleMessage_settled msg o m s Hs Hp) as [Hk He].
  destruct (keeps_object _ _ _ Hk s Hs) as (s1 & Hs1 & Hid1 & Hw1).
  destruct (IH (handleMessage msg o m) s1 Hs1) as (Hk' & Hr & evs & Hevs & Hall);
    [by rewrite Hid1 | done |].
  split; [by eapply keeps_trans|]. split.
  - cbn [replacements]. rewrite Hr, (keeps_idOf _ _ _ _ Hk Hs), (idOf_Some _ _ _ Hs).
    by rewrite bool_decide_eq_true_2.
  - cbn [consume foldl]. fold (consume msgs o (handleMessage msg o m)).
    destruct He as [He|[p He]]; rewrite Hevs, He.
    + by exists evs.
    + eexists (_ :: evs). rewrite <- app_assoc. split; [done|].
      apply Forall_cons. split; [|done]. simpl.
      unfold vendorAssigned in Hmsg. destruct (session_id msg) as [real|]; simpl.
      * by apply negb_true_iff in Hmsg.
      * done.
Qed.

Lemma replacements_le msgs o m s :
  objects m !! o = Some s →
  Forall (λ msg, vendorAssigned msg = true) msgs →
  replacements msgs o m ≤ 1.
Proof.
  revert m s. induction msgs as [|msg msgs IH]; intros m s Hs Hv; [simpl; lia|].
  destruct (isPendingId (sessionId s)) eqn:Hp.
  2: { destruct (consume_settled (msg :: msgs) o m s Hs Hp Hv) as (_ & -> & _). lia. }
  apply Forall_cons in Hv as [Hmsg Hv]. cbn [replacements].
  destruct (session_id msg) as [real|] eqn:Hid.
  - destruct (decide (real = [])) as [->|Hne].
    + pose proof (handleMessage_waits msg o m s Hs (or_intror Hid)) as Hk.
      destruct (keeps_object _ _ _ Hk s Hs) as (s1 & Hs1 & Hid1 & Hw1).
      rewrite (keeps_idOf _ _ _ _ Hk Hs), (idOf_Some _ _ _ Hs).
      rewrite bool_decide_eq_true_2 by done. simpl. by eapply IH.
    + destruct (handleMessage_promotes msg o m s real Hs Hp Hid Hne)
        as (_ & _ & _ & (s1 & Hs1 & Hid1 & Hw1) & _).
      unfold vendorAssigned in Hmsg. rewrite Hid in Hmsg.
      apply negb_true_iff in Hmsg.
      destruct (consume_settled msgs o (handleMessage msg o m) s1 Hs1)
        as (_ & -> & _); [by rewrite Hid1 | done |].
      destruct (bool_decide _); simpl; lia.
  - pose proof (handleMessage_waits msg o m s Hs (or_introl Hid)) as Hk.
    destruct (keeps_object _ _ _ Hk s Hs) as (s1 & Hs1 & Hid1 & Hw1).
    rewrite (keeps_idOf _ _ _ _ Hk Hs), (idOf_Some _ _ _ Hs).
    rewrite bool_decide_eq_true_2 by done. simpl. by eapply IH.
Qed.

End promotion_facts.

Section promotion_claims.
Import Events SessionManager.

(** [C7] (amended) In the session manager, for a session object whose
    id has the pending form: over any sequence of vendor messages whose
    ids are not of that form, the id of the object is replaced at most
    once.  The message that brings the id replaces it; from then on the
    session table has no entry under the pending key and holds the object
    under the new id, the workspace index and the accessor of the
    permission callback give the new id, no later message changes any of
    this, and every event from the replacing message on is routed under
    an id that is not of the pending form. *)
Theorem promotion_once (m : manager) (o : nat) (s : SessionState)
    (msgs post : list SDKMessage) (msg : SDKMessage) (real : jsstring) :
  objects m !! o = Some s →
  isPendingId (sessionId s) = true →
  resumedAs m !! o = None →
  Forall (λ msg, vendorAssigned msg = true) msgs →
  session_id msg = Some real → real ≠ [] → isPendingId real = false →
  Forall (λ msg, vendorAssigned msg = true) post →
  let m1 := handleMessage msg o m in
  let m2 := consume post o m1 in
  replacements msgs o m ≤ 1
  ∧ replacements (msg :: post) o m = 1
  ∧ idOf o m1 = Some real
  ∧ sessions m1 !! sessionId s = None
  ∧ sessions m1 !! real = Some o
  ∧ workspaceToSession m1 !! workspaceId s = Some real
  ∧ idOf o m2 = Some real
  ∧ getSessionId o m2 = Some real
  ∧ sessions m2 = sessions m1
  ∧ workspaceToSession m2 = workspaceToSession m1
  ∧ ∃ evs, emitted m2 = emitted m ++ evs
           ∧ Forall (λ ev, isPendingId (eventSessionId ev) = false) evs.
Proof.
  intros Hs Hp Hres Hmsgs Hid Hne Hreal Hpost m1 m2.
  split; [by eapply replacements_le|].
  destruct (handleMessage_promotes msg o m s real Hs Hp Hid Hne)
    as (Hses & Hidx & Hr & (s1 & Hs1 & Hid1 & Hw1) & Hev).
  fold m1 in Hses, Hidx, Hr, Hs1, Hev.
  destruct (consume_settled post o m1 s1 Hs1) as (Hk & Hrep & evs & Hevs & Hall);
    [by rewrite Hid1 | done |].
  fold m2 in Hk, Hevs.
  assert (real ≠ sessionId s) as Hdiff by (intros ->; congruence).
  assert (idOf o m1 = Some real) as Hid_m1 by (by rewrite (idOf_Some _ _ _ Hs1), Hid1).
  assert (idOf o m2 = Some real) as Hid_m2 by (by rewrite (keeps_idOf _ _ _ _ Hk Hs1), Hid1).
  split.
  { cbn [replacements]. fold m1. rewrite Hrep, Hid_m1, (idOf_Some _ _ _ Hs).
    rewrite bool_decide_eq_false_2; [done|]. intros [= ?]. done. }
  split; [done|].
  split; [rewrite Hses, lookup_insert_ne by done; apply lookup_delete_eq|].
  split; [rewrite Hses; apply lookup_insert_eq|].
  split; [rewrite Hidx; apply lookup_insert_eq|].
  split; [done|].
  split.
  { unfold getSessionId. rewrite (keeps_resumed _ _ _ Hk), Hr, Hres. done. }
  split; [apply (keeps_sessions _ _ _ Hk)|].
  split; [apply (keeps_index _ _ _ Hk)|].
  destruct Hev as [Hev|[p Hev]]; rewrite Hevs, Hev.
  - by exists evs.
  - eexists (_ :: evs). rewrite <- app_assoc. split; [done|].
    apply Forall_cons. by split.
Qed.

Lemma promotion_once_witness :
  let m := (startSession 17 (js "w1") (js "/p") None
              (newManager (Permission.newPermissionHandler 1000))).1 in
  let init := mkMessage (Some (js "S1")) (system true) in
  let post := [mkMessage (Some (js "S1")) stream_event; mkMessage None assistant] in
  let m2 := consume post 0 (handleMessage init 0 m) in
  sessions m2 !! pendingId 17 = None
  ∧ getSessionId 0 m2 = Some (js "S1")
  ∧ replacements (init :: post) 0 m = 1.
Proof.
  intros m init post m2.
  destruct (promotion_once m 0
              (mkSession (pendingId 17) (js "w1") (js "/p") (Some 0)
                 InputStream.createInputStream 17 starting)
              (init :: post) post init (js "S1"))
    as (_ & H2 & _ & H4 & _ & _ & _ & H8 & H9 & _).
  - vm_compute. reflexivity.
  - vm_compute. reflexivity.
  - vm_compute. reflexivity.
  - repeat constructor.
  - reflexivity.
  - discriminate.
  - vm_compute. reflexivity.
  - repeat constructor.
  - split; [|split; [exact H8 | exact H2]].
    unfold m2. fold (consume post 0 (handleMessage init 0 m)).
    rewrite H9. exact H4.
Defined.

End promotion_claims.



(** ** The session table *)

Section session_sound.
Import Events SessionManager.
Implicit Types (m : manager) (s : SessionState) (o : nat) (sid wid : jsstring).

Lemma sound_new h : sound (newManager h).
Proof. split; intros *; simpl; by rewrite lookup_empty. Qed.

(** Replacing an object by one with the same id keeps the table sound. *)
Lemma sound_setObject m o s s' :
  sound m → objects m !! o = Some s → sessionId s' = sessionId s →
  sound (setObject o s' m).
Proof.
  intros [St Sa] Ho Hid. split; simpl.
  - intros sid o' Hs. destruct (St sid o' Hs) as (s0 & Hs0 & Hid0).
    destruct (decide (o' = o)) as [->|Hne].
    + rewrite lookup_insert_eq. exists s'. split; [done|]. congruence.
    + rewrite lookup_insert_ne by done. eauto.
  - intros o' s0 Ho'. destruct (decide (o' = o)) as [->|Hne].
    + by eapply Sa.
    + rewrite lookup_insert_ne in Ho' by done. by eapply Sa.
Qed.

Lemma sound_delete m sid : sound m → sound (setSessions (delete sid (sessions m)) m).
Proof.
  intros [St Sa]. split; simpl; [|done].
  intros sid' o Hs. apply lookup_delete_Some in Hs as [_ Hs]. eauto.
Qed.

Lemma sound_setIndex m t : sound m → sound (setIndex t m).
Proof. intros [St Sa]. by split. Qed.

Lemma sound_setPermissionHandler m h : sound m → sound (setPermissionHandler h m).
Proof. intros [St Sa]. by split. Qed.

Lemma sound_emit m p sid wid : sound m → sound (emit p sid wid m).
Proof. intros [St Sa]. by split. Qed.

Lemma sound_startConsumer m o : sound m → sound (startConsumer o m).
Proof. intros [St Sa]. by split. Qed.

Lemma sound_stopConsumer m o : sound m → sound (stopConsumer o m).
Proof. intros [St Sa]. by split. Qed.

(** A new object put into the table under its own id. *)
Lemma sound_register m s resumed :
  sound m →
  sound (setSessions (<[sessionId s := allocated m]> (sessions (allocate s resumed m)))
           (allocate s resumed m)).
Proof.
  intros [St Sa]. split; simpl.
  - intros sid o Hs. destruct (decide (sid = sessionId s)) as [->|Hne].
    + rewrite lookup_insert_eq in Hs. injection Hs as <-.
      rewrite lookup_insert_eq. eauto.
    + rewrite lookup_insert_ne in Hs by done.
      destruct (St sid o Hs) as (s0 & Hs0 & Hid0).
      pose proof (Sa o s0 Hs0). rewrite lookup_insert_ne by lia. eauto.
  - intros o s0 Ho. destruct (decide (o = allocated m)) as [->|Hne]; [lia|].
    rewrite lookup_insert_ne in Ho by done. pose proof (Sa o s0 Ho). lia.
Qed.

Lemma sound_startSession now wid cw qt m :
  sound m → sound (startSession now wid cw qt m).1.
Proof.
  intros Hs. unfold startSession. destruct (activeSessionOf wid m); [done|].
  set (s := mkSession (pendingId now) wid cw None InputStream.createInputStream now starting).
  pose proof (sound_register m s None Hs) as Hreg.
  destruct qt as [err|]; cbn [fst].
  - by apply sound_delete.
  - apply sound_startConsumer.
    eapply (sound_setObject _ _ s); [done| |done].
    simpl. apply lookup_insert_eq.
Qed.

Lemma sound_resumeSession now wid sid cw qt m :
  sound m → sound (resumeSession now wid sid cw qt m).1.
Proof.
  intros Hs. unfold resumeSession. destruct (isSessionActive sid m); [done|].
  set (s := mkSession sid wid cw None InputStream.createInputStream now starting).
  pose proof (sound_register m s (Some sid) Hs) as Hreg.
  destruct qt as [err|]; cbn [fst].
  - apply sound_setIndex. apply (sound_delete _ sid). by apply sound_setIndex.
  - apply sound_startConsumer.
    eapply (sound_setObject _ _ s); [by apply sound_setIndex| |done].
    simpl. apply lookup_insert_eq.
Qed.

Lemma sound_sendMessage sid msg imgs mid m :
  sound m → sound (sendMessage sid msg imgs mid m).1.
Proof.
  intros Hs. unfold sendMessage.
  destruct (sessions m !! sid) as [o|]; [|done].
  destruct (objects m !! o) as [s|] eqn:Ho; [|done].
  destruct (_ && _); [done|].
  destruct (readImages _); [|done].
  destruct (InputStream.push _ _) as [i r]. cbn [fst].
  by eapply sound_setObject.
Qed.

Lemma sound_closeSession sid m : sound m → sound (closeSession sid m).
Proof.
  intros Hs. unfold closeSession.
  destruct (sessions m !! sid) as [o|]; [|done].
  destruct (objects m !! o) as [s|] eqn:Ho; [|done].
  destruct (InputStream.close _) as [i r].
  apply sound_emit.
  match goal with |- sound (if ?c then _ else _) => destruct c end.
  - apply sound_setIndex, (sound_delete _ sid).
    eapply sound_setObject; [by apply sound_setPermissionHandler|done|done].
  - apply (sound_delete _ sid).
    eapply sound_setObject; [by apply sound_setPermissionHandler|done|done].
Qed.

Lemma sound_closeAll m : sound m → sound (closeAll m).
Proof.
  unfold closeAll. generalize (map_to_list (sessions m)). intros l. revert m.
  induction l as [|kv l IH]; intros m Hs; [done|].
  simpl. by apply IH, sound_closeSession.
Qed.

Lemma sound_routeMessage msg sid wid o m :
  sound m → sound (routeMessage msg sid wid o m).
Proof.
  intros Hs. unfold routeMessage.
  destruct (kind msg) as [[|]| | | |b| |[e|]|]; try done; try by apply sound_emit.
  - apply sound_emit. destruct (objects m !! o) as [s|] eqn:Ho; [|done].
    by eapply sound_setObject.
  - destruct (isEmpty e); [done|]. by apply sound_emit.
Qed.

Lemma sound_promoteId msg o s m :
  sound m → objects m !! o = Some s → sound (promoteId msg o s m).
Proof.
  intros Hs Ho. unfold promoteId.
  destruct (session_id msg) as [real|]; [|done].
  destruct (_ && _); [|done].
  apply sound_setIndex. destruct Hs as [St Sa]. split; simpl.
  - intros sid o' Hl. destruct (decide (sid = real)) as [->|Hne].
    + rewrite lookup_insert_eq in Hl. injection Hl as <-.
      rewrite lookup_insert_eq. eauto.
    + rewrite lookup_insert_ne in Hl by done.
      apply lookup_delete_Some in Hl as [Hne' Hl].
      destruct (St sid o' Hl) as (s0 & Hs0 & Hid0).
      destruct (decide (o' = o)) as [->|Hno].
      * rewrite Ho in Hs0. injection Hs0 as <-. done.
      * rewrite lookup_insert_ne by done. eauto.
  - intros o' s0 Ho'. destruct (decide (o' = o)) as [->|Hne].
    + by eapply Sa.
    + rewrite lookup_insert_ne in Ho' by done. by eapply Sa.
Qed.

Lemma sound_handleMessage msg o m : sound m → sound (handleMessage msg o m).
Proof.
  intros Hs. unfold handleMessage. destruct (objects m !! o) as [s|] eqn:Ho; [|done].
  by apply sound_routeMessage, sound_promoteId.
Qed.

Lemma sound_endOfMessages err o m : sound m → sound (endOfMessages err o m).
Proof.
  intros Hs. unfold endOfMessages. destruct (objects m !! o) as [s|] eqn:Ho; [|done].
  set (m1 := match err with
             | Some e => emit _ _ _ (stopConsumer o m)
             | None => stopConsumer o m
             end).
  assert (sound m1 ∧ objects m1 = objects m) as [Hs1 Ho1].
  { unfold m1. destruct err; split; try done.
    - by apply sound_emit, sound_stopConsumer.
    - by apply sound_stopConsumer. }
  destruct (sessions m1 !! sessionId s); [|done].
  apply sound_emit.
  match goal with |- sound (if ?c then _ else _) => destruct c end.
  - apply sound_setIndex, (sound_delete _ (sessionId s)).
    eapply sound_setObject; [done|by rewrite Ho1|done].
  - apply (sound_delete _ (sessionId s)).
    eapply sound_setObject; [done|by rewrite Ho1|done].
Qed.

Lemma sound_canUseTool o t u m : sound m → sound (canUseTool o t u m).
Proof.
  intros Hs. unfold canUseTool.
  destruct (getSessionId o m); [|done]. destruct (objects m !! o); [|done].
  destruct (Permission.canUseTool _ _ _ _ _) as [h r].
  by apply sound_emit, sound_setPermissionHandler.
Qed.

End session_sound.

(** ** Closing sessions *)

Section close_facts.
Import Events SessionManager.
Implicit Types (m : manager) (s : SessionState) (o : nat) (sid wid : jsstring).

Lemma getSession_Some m sid s :
  getSession sid m = Some s ↔
  ∃ o, sessions m !! sid = Some o ∧ objects m !! o = Some s.
Proof.
  unfold getSession. destruct (sessions m !! sid) as [o|]; simpl; [|naive_solver].
  split; [eauto|]. by intros (o' & [= <-] & ?).
Qed.

(** [closeSession] for an id that is not in the table. *)
Lemma closeSession_missing m sid : getSession sid m = None → closeSession sid m = m.
Proof.
  unfold getSession, closeSession. destruct (sessions m !! sid) as [o|]; [|done].
  simpl. by intros ->.
Qed.

(** [closeSession] for a session in the table, part by part. *)
Lemma closeSession_found m sid o s :
  sessions m !! sid = Some o → objects m !! o = Some s →
  let m' := closeSession sid m in
  sessions m' = delete sid (sessions m)
  ∧ objects m'
    = <[o := withInput (InputStream.close (input s)).1 (withStatus closing s)]>
        (objects m)
  ∧ workspaceToSession m'
    = (if bool_decide (workspaceToSession m !! workspaceId s = Some sid)
       then delete (workspaceId s) (workspaceToSession m)
       else workspaceToSession m)
  ∧ permissionHandler m' = Permission.cancelForSession sid (permissionHandler m)
  ∧ consumers m' = consumers m
  ∧ emitted m' = emitted m ++ [mkEvent (SessionClosed (js "user")) sid (workspaceId s)].
Proof.
  intros Hs Ho m'. unfold m', closeSession. rewrite Hs, Ho.
  destruct (InputStream.close (input s)) as [i r] eqn:Hc. cbn [fst].
  cbn [setObject setSessions setPermissionHandler workspaceToSession sessions].
  destruct (bool_decide (workspaceToSession m !! workspaceId s = Some sid)); done.
Qed.

Lemma getSession_closeSession m sid : getSession sid (closeSession sid m) = None.
Proof.
  destruct (getSession sid m) as [s|] eqn:Hg.
  - apply getSession_Some in Hg as (o & Hs & Ho).
    destruct (closeSession_found m sid o s Hs Ho) as (H1 & _).
    unfold getSession. rewrite H1, lookup_delete_eq. done.
  - by rewrite closeSession_missing.
Qed.

Lemma sessions_closeSession m sid :
  sound m → sessions (closeSession sid m) = delete sid (sessions m).
Proof.
  intros Hm. destruct (sessions m !! sid) as [o|] eqn:Hs.
  - destruct (sound_table m Hm sid o Hs) as (s & Ho & _).
    by destruct (closeSession_found m sid o s Hs Ho) as (H1 & _).
  - rewrite closeSession_missing; [by rewrite delete_id|].
    unfold getSession. by rewrite Hs.
Qed.

Lemma closeAll_loop l m k :
  sound m →
  (k ∈ l.*1 ∨ sessions m !! k = None) →
  sessions (foldl (λ m (kv : jsstring * nat), closeSession kv.1 m) m l) !! k = None.
Proof.
  revert m. induction l as [|[k' o] l IH]; intros m Hm Hk.
  { destruct Hk as [Hk|Hk]; [by apply elem_of_nil in Hk | done]. }
  cbn [foldl fst]. apply IH; [by apply sound_closeSession|].
  rewrite sessions_closeSession by done.
  destruct Hk as [Hk|Hk].
  - simpl in Hk. apply elem_of_cons in Hk as [->|Hk]; [|by left].
    right. apply lookup_delete_eq.
  - right. apply lookup_delete_None. by right.
Qed.

Lemma closeAll_sessions m : sound m → sessions (closeAll m) = ∅.
Proof.
  intros Hm. apply map_eq. intros k. rewrite lookup_empty.
  unfold closeAll. apply closeAll_loop; [done|].
  destruct (sessions m !! k) as [o|] eqn:Hk; [left|by right].
  apply list_elem_of_fmap. exists (k, o). split; [done|].
  by apply elem_of_map_to_list.
Qed.

End close_facts.

Section close_claims.
Import Events SessionManager.

(** [X7] Closing a session is idempotent.  After [closeSession] the id is
    not in the table, the session does not count as active and a message
    sent to it is refused with "Session not found"; the call emits one
    [session/closed] event with reason "user" when the session was in the
    table and nothing when it was not, so a second close emits nothing. *)
Theorem closeSession_once (m : manager) (sid msg : jsstring)
    (imgs : option (list Attachment)) (mid : option jsstring) :
  let m' := closeSession sid m in
  closeSession sid m' = m'
  ∧ getSession sid m' = None
  ∧ isSessionActive sid m' = false
  ∧ sendMessage sid msg imgs mid m' = (m', Throws (js "Session not found: " ++ sid))
  ∧ match getSession sid m with
    | Some s =>
        emitted m'
        = emitted m ++ [mkEvent (SessionClosed (js "user")) sid (workspaceId s)]
    | None => m' = m
    end.
Proof.
  intros m'. pose proof (getSession_closeSession m sid) as Hg. fold m' in Hg.
  split; [by apply closeSession_missing|]. split; [done|].
  split; [unfold isSessionActive; by rewrite Hg|]. split.
  - unfold sendMessage. unfold getSession in Hg.
    destruct (sessions m' !! sid) as [o|]; [|done]. simpl in Hg. by rewrite Hg.
  - destruct (getSession sid m) as [s|] eqn:Hs.
    + apply getSession_Some in Hs as (o & Hs & Ho).
      by destruct (closeSession_found m sid o s Hs Ho) as (_ & _ & _ & _ & _ & ?).
    + by apply closeSession_missing.
Qed.

End close_claims.

(** ** Launching sessions *)

Section launch_facts.
Import Events SessionManager.

(** The successful [resumeSession], part by part. *)
Lemma resume_shape now wid sid cw m :
  isSessionActive sid m = false →
  let m1 := (resumeSession now wid sid cw None m).1 in
  sessions m1 = <[sid := allocated m]> (sessions m)
  ∧ objects m1
    = <[allocated m := mkSession sid wid cw (Some (allocated m))
                         InputStream.createInputStream now starting]> (objects m)
  ∧ workspaceToSession m1 = <[wid := sid]> (workspaceToSession m)
  ∧ consumers m1 = {[allocated m]} ∪ consumers m
  ∧ emitted m1 = emitted m.
Proof.
  intros Hg m1. unfold m1, resumeSession. rewrite Hg. cbn.
  by rewrite insert_insert_eq.
Qed.

End launch_facts.

Section launch_claims.
Import Events SessionManager.

(** [X12] [resumeSession] is refused exactly when the table holds a
    session with this id in status "active", and then changes nothing.
    Otherwise it never looks at the workspace: it puts a new session in
    status "starting" under the id, replacing whatever the table held
    there, points the workspace index at it, whatever the index held
    before, and starts its consumer loop; the permission callback of the
    new session reports the resumed id. *)
Theorem resume_registers (now : N) (wid sid cw : jsstring) (m : manager) :
  let r := resumeSession now wid sid cw None m in
  if isSessionActive sid m
  then r = (m, Throws (js "Session " ++ sid ++ js " is already active"))
  else
    r.2 = Returns ()
    ∧ getSession sid r.1
      = Some (mkSession sid wid cw (Some (allocated m))
                InputStream.createInputStream now starting)
    ∧ getSessionForWorkspace wid r.1 = Some sid
    ∧ getSessionId (allocated m) r.1 = Some sid
    ∧ allocated m ∈ consumers r.1
    ∧ (∀ sid', sid' ≠ sid → sessions r.1 !! sid' = sessions m !! sid')
    ∧ (∀ wid', wid' ≠ wid → workspaceToSession r.1 !! wid' = workspaceToSession m !! wid')
    ∧ emitted r.1 = emitted m.
Proof.
  intros r. unfold r, resumeSession. destruct (isSessionActive sid m); [done|].
  cbn [fst snd]. split; [done|]. split.
  { unfold getSession. cbn [startConsumer setObject setIndex setSessions allocate
                             sessions objects].
    rewrite lookup_insert_eq. cbn [mbind option_bind]. by rewrite lookup_insert_eq. }
  split.
  { unfold getSessionForWorkspace. cbn. apply lookup_insert_eq. }
  split.
  { unfold getSessionId. cbn [startConsumer setObject setIndex setSessions allocate
                               resumedAs]. by rewrite lookup_insert_eq. }
  split; [cbn; set_solver|]. split.
  { intros sid' Hne. cbn. by rewrite lookup_insert_ne. }
  split; [|done].
  intros wid' Hne. cbn. by rewrite lookup_insert_ne.
Qed.

Lemma resume_registers_witness :
  let m := newManager (Permission.newPermissionHandler 1000) in
  let r := resumeSession 5 (js "w1") (js "S1") (js "/p") None m in
  r.2 = Returns () ∧ getSessionForWorkspace (js "w1") r.1 = Some (js "S1").
Proof.
  intros m r.
  pose proof (resume_registers 5 (js "w1") (js "S1") (js "/p") m) as H.
  change (isSessionActive (js "S1") m) with false in H.
  destruct H as (H1 & _ & H3 & _). split; [exact H1 | exact H3].
Defined.

(** [X13] A launch that fails because the vendor's [query] throws hands
    the error on and emits nothing.  A failed [startSession] leaves no
    entry under the pending id it made and leaves the workspace index as
    it was.  A failed [resumeSession] leaves no entry under the session
    id and no index entry for the workspace: it removes them even when
    they were there before the call. *)
Theorem failed_launch_cleanup (now : N) (wid sid cw err : jsstring) (m : manager) :
  (activeSessionOf wid m = None →
   let r := startSession now wid cw (Some err) m in
   r.2 = Throws err
   ∧ sessions r.1 = delete (pendingId now) (sessions m)
   ∧ workspaceToSession r.1 = workspaceToSession m
   ∧ emitted r.1 = emitted m)
  ∧ (isSessionActive sid m = false →
     let r := resumeSession now wid sid cw (Some err) m in
     r.2 = Throws err
     ∧ sessions r.1 = delete sid (sessions m)
     ∧ workspaceToSession r.1 = delete wid (workspaceToSession m)
     ∧ emitted r.1 = emitted m).
Proof.
  split.
  - intros Hg r. unfold r, startSession. rewrite Hg. cbn.
    by rewrite delete_insert_eq.
  - intros Hg r. unfold r, resumeSession. rewrite Hg. cbn.
    by rewrite !delete_insert_eq.
Qed.

Lemma failed_launch_cleanup_witness :
  let m := (resumeSession 5 (js "w1") (js "S1") (js "/p") None
              (newManager (Permission.newPermissionHandler 1000))).1 in
  let r := resumeSession 9 (js "w1") (js "S1") (js "/p") (Some (js "spawn failed")) m in
  r.2 = Throws (js "spawn failed")
  ∧ sessions r.1 = delete (js "S1") (sessions m)
  ∧ workspaceToSession r.1 = delete (js "w1") (workspaceToSession m)
  ∧ emitted r.1 = emitted m.
Proof.
  intros m.
  apply (failed_launch_cleanup 9 (js "w1") (js "S1") (js "/p") (js "spawn failed") m).
  vm_compute. reflexivity.
Defined.

(** [X14] Resuming over a session that is still in the table (in a
    status other than "active") leaves the old consumer loop running on
    the old object, which carries the same id.  When that loop ends, its
    cleanup finds the id in the table and removes the entry of the new
    session: the id is no longer known, a [session/closed] event with
    reason "completed" goes out for it, and the new consumer loop is
    still running. *)
Theorem resume_over_live_session (now : N) (wid sid cw : jsstring) (m : manager)
    (o : nat) (s : SessionState) (err : option jsstring) :
  sound m →
  sessions m !! sid = Some o → objects m !! o = Some s →
  status s ≠ active →
  let m1 := (resumeSession now wid sid cw None m).1 in
  let m2 := endOfMessages err o m1 in
  getSession sid m1
  = Some (mkSession sid wid cw (Some (allocated m))
            InputStream.createInputStream now starting)
  ∧ getSession sid m2 = None
  ∧ allocated m ∈ consumers m2
  ∧ emitted m2
    = emitted m
      ++ match err with
         | Some e => [mkEvent (ErrorEvent (js "MESSAGE_PROCESSING_ERROR") e false)
                        sid (workspaceId s)]
         | None => []
         end
      ++ [mkEvent (SessionClosed (js "completed")) sid (workspaceId s)].
Proof.
  intros Hm Hs Ho Hst m1 m2.
  destruct (sound_table m Hm sid o Hs) as (s' & Ho' & Hid).
  assert (s' = s) as -> by congruence.
  pose proof (sound_alloc m Hm o s Ho) as Hlt.
  assert (isSessionActive sid m = false) as Hg.
  { unfold isSessionActive, getSession. rewrite Hs. cbn. rewrite Ho.
    by apply bool_decide_eq_false. }
  pose proof (resume_shape now wid sid cw m Hg) as (E1 & E2 & E3 & E4 & E5).
  fold m1 in E1, E2, E3, E4, E5.
  assert (objects m1 !! o = Some s) as Ho1.
  { rewrite E2, lookup_insert_ne by lia. done. }
  split.
  { unfold getSession. rewrite E1, lookup_insert_eq. cbn.
    by rewrite E2, lookup_insert_eq. }
  assert (sessions (stopConsumer o m1) !! sid = Some (allocated m)) as Hs1.
  { cbn. rewrite E1. apply lookup_insert_eq. }
  unfold m2, endOfMessages. rewrite Ho1, Hid.
  destruct err as [e|]; cbn [emit stopConsumer sessions]; rewrite E1, lookup_insert_eq;
    cbn [setObject setSessions sessions workspaceToSession];
    destruct (bool_decide _); cbn;
    rewrite ?E1, ?E4, ?E5, ?lookup_delete_eq, <- ?app_assoc;
    (split; [unfold getSession; cbn; by rewrite ?E1, lookup_delete_eq|]);
    (split; [set_solver by lia|done]).
Qed.

Lemma resume_over_live_session_witness :
  let m := (resumeSession 5 (js "w1") (js "S1") (js "/p") None
              (newManager (Permission.newPermissionHandler 1000))).1 in
  let m1 := (resumeSession 9 (js "w1") (js "S1") (js "/p") None m).1 in
  getSession (js "S1") (endOfMessages None 0 m1) = None
  ∧ 1 ∈ consumers (endOfMessages None 0 m1).
Proof.
  intros m m1.
  destruct (resume_over_live_session 9 (js "w1") (js "S1") (js "/p") m 0
              (mkSession (js "S1") (js "w1") (js "/p") (Some 0)
                 InputStream.createInputStream 5 starting) None)
    as (_ & H2 & H3 & _).
  - apply sound_resumeSession, sound_new.
  - vm_compute. reflexivity.
  - vm_compute. reflexivity.
  - discriminate.
  - split; [exact H2 | exact H3].
Defined.

End launch_claims.

(** ** Messages to and from a session *)

Section message_facts.
Import Events SessionManager.
Implicit Types (m : manager) (s : SessionState) (msg : SDKMessage) (o : nat).

Lemma withInput_same s : withInput (input s) s = s.
Proof. by destruct s. Qed.

(** One accepted text message. *)
Lemma sendMessage_text sid t mid m o s :
  sessions m !! sid = Some o → objects m !! o = Some s →
  status s = active ∨ status s = starting →
  sendMessage sid t None mid m
  = (setObject o
       (withInput
          (InputStream.step
             (InputStream.Push (mkUserMessage (Text t) mid (sessionId s)))
             (input s)).1 s) m,
     Returns ()).
Proof.
  intros Hs Ho Hst. unfold sendMessage. rewrite Hs, Ho.
  assert (negb (bool_decide (status s = active))
          && negb (bool_decide (status s = starting)) = false) as ->.
  { destruct Hst as [-> | ->]; done. }
  cbn [default readImages InputStream.step].
  by destruct (InputStream.push _ _).
Qed.

(** What one message makes [routeMessage] emit: nothing, or one event,
    which is never [session/closed]. *)
Lemma routeMessage_event msg sid wid o m :
  emitted (routeMessage msg sid wid o m) = emitted m
  ∨ ∃ p, (∀ r, p ≠ SessionClosed r)
         ∧ emitted (routeMessage msg sid wid o m) = emitted m ++ [mkEvent p sid wid].
Proof.
  unfold routeMessage.
  assert (∀ p m', (∀ r, p ≠ SessionClosed r) →
            emitted m' = emitted m →
            emitted (emit p sid wid m') = emitted m
            ∨ ∃ p0, (∀ r, p0 ≠ SessionClosed r)
                    ∧ emitted (emit p sid wid m') = emitted m ++ [mkEvent p0 sid wid])
    as Hemit.
  { intros p m' Hp Hm'. right. exists p. split; [done|]. cbn. by rewrite Hm'. }
  destruct (kind msg) as [[|]| | | |b| |[e|]|]; try (by left);
    try (apply Hemit; done).
  - apply Hemit; [done|]. by destruct (objects m !! o).
  - destruct (isEmpty e); [by left|]. by apply Hemit.
Qed.

(** Messages to a session whose id is not of the pending form, whatever
    ids they carry: each message emits at most one event, under its own
    id if it has one and under the id of the session otherwise. *)
Lemma consume_stable msgs o m s :
  objects m !! o = Some s → isPendingId (sessionId s) = false →
  keeps o m (consume msgs o m)
  ∧ replacements msgs o m = 0
  ∧ ∃ evss, emitted (consume msgs o m) = emitted m ++ concat evss
            ∧ Forall2 (λ msg es,
                         es = []
                         ∨ ∃ p, (∀ r, p ≠ SessionClosed r)
                                ∧ es = [mkEvent p
                                          (default (sessionId s) (session_id msg))
                                          (workspaceId s)])
                msgs evss.
Proof.
  revert m s. induction msgs as [|msg msgs IH]; intros m s Hs Hp.
  { split; [apply keeps_refl|]. split; [done|]. exists [].
    split; [by rewrite app_nil_r|constructor]. }
  destruct (handleMessage_settled msg o m s Hs Hp) as [Hk _].
  assert (He : emitted (handleMessage msg o m) = emitted m
               ∨ ∃ p, (∀ r, p ≠ SessionClosed r)
                      ∧ emitted (handleMessage msg o m)
                        = emitted m ++ [mkEvent p (default (sessionId s) (session_id msg))
                                          (workspaceId s)]).
  { unfold handleMessage. rewrite Hs.
    assert (promoteId msg o s m = m) as ->.
    { unfold promoteId. unfold isPendingId in Hp. rewrite Hp.
      by destruct (session_id msg). }
    apply routeMessage_event. }
  destruct (keeps_object _ _ _ Hk s Hs) as (s1 & Hs1 & Hid1 & Hw1).
  destruct (IH (handleMessage msg o m) s1 Hs1) as (Hk' & Hr & evss & Hevs & Hall);
    [by rewrite Hid1|].
  rewrite Hid1, Hw1 in Hall.
  split; [by eapply keeps_trans|]. split.
  - cbn [replacements]. rewrite Hr, (keeps_idOf _ _ _ _ Hk Hs), (idOf_Some _ _ _ Hs).
    by rewrite bool_decide_eq_true_2.
  - cbn [consume foldl]. fold (consume msgs o (handleMessage msg o m)).
    destruct He as [He|(p & Hp' & He)]; rewrite Hevs, He.
    + exists ([] :: evss). split; [done|]. constructor; [by left|done].
    + eexists ([_] :: evss). rewrite <- app_assoc. split; [done|].
      constructor; [|done]. right. by exists p.
Qed.

End message_facts.

Section message_claims.
Import Events SessionManager.

(** [X19] Text messages sent to a session that is in the table with
    status "active" or "starting" are all accepted and reach the input
    stream of that session as pushes, in the order of the calls, each
    carrying the id the session has; the calls change nothing else: not
    the table, not the workspace index, not the permission requests, and
    they emit no event. *)
Theorem sends_reach_stream (m : manager) (sid : jsstring) (o : nat)
    (s : SessionState) (texts : list (jsstring * option jsstring)) :
  sessions m !! sid = Some o → objects m !! o = Some s →
  status s = active ∨ status s = starting →
  let pushes :=
    map (λ tm, InputStream.Push (mkUserMessage (Text tm.1) tm.2 (sessionId s)))
      texts in
  let r := sendAll sid texts m in
  r.2 = replicate (length texts) (Returns ())
  ∧ objects r.1 = <[o := withInput (InputStream.final pushes (input s)) s]> (objects m)
  ∧ sessions r.1 = sessions m
  ∧ workspaceToSession r.1 = workspaceToSession m
  ∧ permissionHandler r.1 = permissionHandler m
  ∧ emitted r.1 = emitted m.
Proof.
  revert m s. induction texts as [|[t mid] texts IH]; intros m s Hs Ho Hst pushes r.
  { cbn. rewrite withInput_same, insert_id by done. done. }
  unfold r. cbn [sendAll]. rewrite (sendMessage_text sid t mid m o s Hs Ho Hst).
  set (s1 := withInput _ s). set (m1 := setObject o s1 m).
  specialize (IH m1 s1).
  destruct (sendAll sid texts m1) as [m2 rs].
  destruct IH as (I1 & I2 & I3 & I4 & I5 & I6);
    [done | apply lookup_insert_eq | done |].
  cbn [fst snd] in *. split; [by rewrite I1|].
  split; [|done]. rewrite I2. cbn [m1 setObject objects].
  rewrite insert_insert_eq. f_equal.
Qed.

Lemma sends_reach_stream_witness :
  let m := (startSession 17 (js "w1") (js "/p") None
              (newManager (Permission.newPermissionHandler 1000))).1 in
  (sendAll (pendingId 17) [(js "one", None); (js "two", Some (js "u2"))] m).2
  = [Returns (); Returns ()].
Proof.
  intros m.
  apply (sends_reach_stream m (pendingId 17) 0
           (mkSession (pendingId 17) (js "w1") (js "/p") (Some 0)
              InputStream.createInputStream 17 starting)
           [(js "one", None); (js "two", Some (js "u2"))]).
  - vm_compute. reflexivity.
  - vm_compute. reflexivity.
  - by right.
Defined.

(** [X20] A resumed session keeps its id.  Whatever messages the vendor
    sends for it, also messages that carry another session id, the
    session table, the workspace index, the id of the session and the id
    its permission callback reports stay as [resumeSession] left them.
    The events emitted are, message by message and in the order of the
    messages, at most one event per message, which names the workspace of
    the session and, as session id, the id this message carries, if it
    carries one, and the resumed id otherwise. *)
Theorem resumed_session_keeps_id (now : N) (wid sid cw : jsstring) (m : manager)
    (msgs : list SDKMessage) :
  isSessionActive sid m = false → isPendingId sid = false →
  let m1 := (resumeSession now wid sid cw None m).1 in
  let o := allocated m in
  let m2 := consume msgs o m1 in
  sessions m2 = sessions m1
  ∧ workspaceToSession m2 = workspaceToSession m1
  ∧ idOf o m2 = Some sid
  ∧ getSessionId o m2 = Some sid
  ∧ replacements msgs o m1 = 0
  ∧ ∃ evss, emitted m2 = emitted m ++ concat evss
            ∧ Forall2 (λ msg es,
                         es = []
                         ∨ ∃ p, es = [mkEvent p (default sid (session_id msg)) wid])
                msgs evss.
Proof.
  intros Hg Hp m1 o m2.
  destruct (resume_shape now wid sid cw m Hg) as (E1 & E2 & E3 & E4 & E5).
  fold m1 in E1, E2, E3, E4, E5.
  set (s := mkSession sid wid cw (Some o) InputStream.createInputStream now starting).
  assert (objects m1 !! o = Some s) as Ho by (rewrite E2; apply lookup_insert_eq).
  destruct (consume_stable msgs o m1 s Ho Hp) as (Hk & Hr & evss & Hevs & Hall).
  fold m2 in Hk, Hevs.
  split; [apply (keeps_sessions _ _ _ Hk)|].
  split; [apply (keeps_index _ _ _ Hk)|].
  split; [exact (keeps_idOf _ _ _ _ Hk Ho)|].
  split.
  { unfold getSessionId. rewrite (keeps_resumed _ _ _ Hk).
    unfold m1, resumeSession. rewrite Hg. cbn. by rewrite lookup_insert_eq. }
  split; [done|]. exists evss. split; [by rewrite Hevs, E5|].
  eapply Forall2_impl; [exact Hall|]. intros msg es [->|(p & _ & ->)]; eauto.
Qed.

Lemma resumed_session_keeps_id_witness :
  let m := newManager (Permission.newPermissionHandler 1000) in
  let m1 := (resumeSession 5 (js "w1") (js "S1") (js "/p") None m).1 in
  let msgs := [mkMessage (Some (js "S2")) (system true); mkMessage None assistant] in
  idOf 0 (consume msgs 0 m1) = Some (js "S1")
  ∧ getSessionId 0 (consume msgs 0 m1) = Some (js "S1").
Proof.
  intros m m1 msgs.
  destruct (resumed_session_keeps_id 5 (js "w1") (js "S1") (js "/p") m msgs)
    as (_ & _ & H3 & H4 & _).
  - vm_compute. reflexivity.
  - vm_compute. reflexivity.
  - split; [exact H3 | exact H4].
Defined.

End message_claims.

(** ** The [session/closed] event *)

Section closed_facts.
Import Events SessionManager.
Implicit Types (m : manager) (s : SessionState) (o : nat).

(** The end of the consumer loop of an object whose id is not in the
    table. *)
Lemma endOfMessages_absent err o m s :
  objects m !! o = Some s → sessions m !! sessionId s = None →
  sessions (endOfMessages err o m) = sessions m
  ∧ emitted (endOfMessages err o m)
    = emitted m
      ++ match err with
         | Some e => [mkEvent (ErrorEvent (js "MESSAGE_PROCESSING_ERROR") e false)
                        (sessionId s) (workspaceId s)]
         | None => []
         end.
Proof.
  intros Ho Hs. unfold endOfMessages. rewrite Ho.
  destruct err as [e|]; cbn [emit stopConsumer sessions]; rewrite Hs; cbn;
    by rewrite ?app_nil_r.
Qed.

(** The end of the consumer loop of an object whose id is in the table. *)
Lemma endOfMessages_present err o m s o' :
  objects m !! o = Some s → sessions m !! sessionId s = Some o' →
  sessions (endOfMessages err o m) = delete (sessionId s) (sessions m)
  ∧ emitted (endOfMessages err o m)
    = emitted m
      ++ match err with
         | Some e => [mkEvent (ErrorEvent (js "MESSAGE_PROCESSING_ERROR") e false)
                        (sessionId s) (workspaceId s)]
         | None => []
         end
      ++ [mkEvent (SessionClosed (js "completed")) (sessionId s) (workspaceId s)].
Proof.
  intros Ho Hs. unfold endOfMessages. rewrite Ho.
  destruct err as [e|]; cbn [emit stopConsumer sessions]; rewrite Hs;
    cbn [setObject setSessions sessions workspaceToSession];
    destruct (bool_decide _); simpl; by rewrite <- ?app_assoc.
Qed.

Lemma not_closed_concat (msgs : list SDKMessage) (evss : list (list BridgeEvent))
    (sid wid : jsstring) :
  Forall2 (λ msg es,
             es = []
             ∨ ∃ p, (∀ r, p ≠ SessionClosed r)
                    ∧ es = [mkEvent p (default sid (session_id msg)) wid])
    msgs evss →
  Forall (λ ev, ∀ r, payload ev ≠ SessionClosed r) (concat evss).
Proof.
  induction 1 as [|msg es msgs evss H _ IH]; [constructor|].
  cbn [concat]. apply Forall_app. split; [|done].
  destruct H as [->|(p & Hp & ->)]; [constructor|].
  constructor; [|constructor]. done.
Qed.

End closed_facts.

Section closed_claims.
Import Events SessionManager.

(** [X8] A session that is in the table under an id that is not of the
    pending form gets exactly one [session/closed] event, whichever comes
    first.  When the user closes it, the messages that the vendor still
    sends add no [session/closed] event and do not bring the session back
    into the table, and the end of the consumer loop adds at most its
    error event: the one event has reason "user".  When the consumer loop
    ends first, after any messages, the event has reason "completed",
    also after an error, and a later close adds nothing. *)
Theorem one_closed_event (m : manager) (sid : jsstring) (o : nat)
    (s : SessionState) (err : option jsstring) (msgs : list SDKMessage) :
  sessions m !! sid = Some o → objects m !! o = Some s → sessionId s = sid →
  isPendingId sid = false →
  let wid := workspaceId s in
  let failure :=
    match err with
    | Some e => [mkEvent (ErrorEvent (js "MESSAGE_PROCESSING_ERROR") e false) sid wid]
    | None => []
    end in
  let closedFirst := endOfMessages err o (consume msgs o (closeSession sid m)) in
  let endedFirst := closeSession sid (endOfMessages err o (consume msgs o m)) in
  (∃ evs, emitted closedFirst
          = emitted m ++ [mkEvent (SessionClosed (js "user")) sid wid] ++ evs ++ failure
          ∧ Forall (λ ev, ∀ r, payload ev ≠ SessionClosed r) evs)
  ∧ sessions (consume msgs o (closeSession sid m)) = delete sid (sessions m)
  ∧ sessions closedFirst = delete sid (sessions m)
  ∧ (∃ evs, emitted endedFirst
            = emitted m ++ evs ++ failure
              ++ [mkEvent (SessionClosed (js "completed")) sid wid]
            ∧ Forall (λ ev, ∀ r, payload ev ≠ SessionClosed r) evs)
  ∧ sessions endedFirst = delete sid (sessions m).
Proof.
  intros Hs Ho Hid Hp wid failure closedFirst endedFirst.
  (* closed by the user first *)
  destruct (closeSession_found m sid o s Hs Ho) as (C1 & C2 & _ & _ & _ & C6).
  set (m1 := closeSession sid m) in *.
  set (s1 := withInput (InputStream.close (input s)).1 (withStatus closing s)).
  assert (Ho1 : objects m1 !! o = Some s1) by (rewrite C2; apply lookup_insert_eq).
  assert (Hp1 : isPendingId (sessionId s1) = false) by (cbn; by rewrite Hid).
  destruct (consume_stable msgs o m1 s1 Ho1 Hp1) as (K1 & _ & evss1 & E1 & F1).
  destruct (keeps_object _ _ _ K1 s1 Ho1) as (s2 & Ho2 & Hid2 & Hw2).
  cbn [s1 sessionId workspaceId withInput withStatus] in Hid2, Hw2, F1.
  rewrite Hid in Hid2, F1. fold wid in Hw2, F1.
  assert (Hs2 : sessions (consume msgs o m1) !! sessionId s2 = None).
  { rewrite (keeps_sessions _ _ _ K1), C1, Hid2. apply lookup_delete_eq. }
  destruct (endOfMessages_absent err o _ s2 Ho2 Hs2) as [A1 A2].
  rewrite Hid2, Hw2 in A2. fold failure closedFirst in A1, A2.
  (* ended first *)
  assert (Hp0 : isPendingId (sessionId s) = false) by (by rewrite Hid).
  destruct (consume_stable msgs o m s Ho Hp0) as (K0 & _ & evss0 & E0 & F0).
  destruct (keeps_object _ _ _ K0 s Ho) as (s3 & Ho3 & Hid3 & Hw3).
  rewrite Hid in Hid3, F0. fold wid in Hw3, F0.
  assert (Hs3 : sessions (consume msgs o m) !! sessionId s3 = Some o).
  { by rewrite (keeps_sessions _ _ _ K0), Hid3. }
  destruct (endOfMessages_present err o _ s3 o Ho3 Hs3) as [B1 B2].
  rewrite Hid3 in B1. rewrite Hid3, Hw3 in B2. fold failure in B2.
  rewrite (keeps_sessions _ _ _ K0) in B1.
  assert (B3 : endedFirst = endOfMessages err o (consume msgs o m)).
  { apply closeSession_missing. unfold getSession. by rewrite B1, lookup_delete_eq. }
  split.
  { exists (concat evss1). split; [|by eapply not_closed_concat].
    rewrite A2, E1, C6. by rewrite <- !app_assoc. }
  split; [by rewrite (keeps_sessions _ _ _ K1)|].
  split; [by rewrite A1, (keeps_sessions _ _ _ K1)|].
  split.
  { exists (concat evss0). split; [|by eapply not_closed_concat].
    rewrite B3, B2, E0. by rewrite <- !app_assoc. }
  by rewrite B3.
Qed.

Lemma one_closed_event_witness :
  let m := (resumeSession 17 (js "w1") (js "S1") (js "/p") None
              (newManager (Permission.newPermissionHandler 1000))).1 in
  let msgs := [mkMessage (Some (js "S1")) (system true); mkMessage None assistant] in
  sessions (endOfMessages (Some (js "boom")) 0 (consume msgs 0 (closeSession (js "S1") m)))
  = delete (js "S1") (sessions m).
Proof.
  intros m msgs.
  destruct (one_closed_event m (js "S1") 0
              (mkSession (js "S1") (js "w1") (js "/p") (Some 0)
                 InputStream.createInputStream 17 starting)
              (Some (js "boom")) msgs)
    as (_ & _ & H3 & _).
  - vm_compute. reflexivity.
  - vm_compute. reflexivity.
  - reflexivity.
  - vm_compute. reflexivity.
  - exact H3.
Defined.

(** A session closed while its id is still pending comes back: the next
    message of the vendor that carries an id puts it into the table again
    under that id, and the end of the loop closes it a second time. *)
Example closed_while_pending_returns :
  let m := (startSession 17 (js "w1") (js "/p") None
              (newManager (Permission.newPermissionHandler 1000))).1 in
  let m1 := closeSession (pendingId 17) m in
  let m2 := handleMessage (mkMessage (Some (js "S1")) (system true)) 0 m1 in
  let m3 := endOfMessages None 0 m2 in
  getSession (pendingId 17) m1 = None
  ∧ status <$> getSession (js "S1") m2 = Some active
  ∧ emitted m3
    = [mkEvent (SessionClosed (js "user")) (pendingId 17) (js "w1");
       mkEvent SessionStarted (js "S1") (js "w1");
       mkEvent (SessionClosed (js "completed")) (js "S1") (js "w1")].
Proof. vm_compute. done. Qed.

End closed_claims.

(** ** The command loop *)

Section bridge_facts.
Import SessionManager Bridge.
Implicit Types (b : bridge) (i : input) (c : Command) (env : Env).

Lemma withManager_id b : withManager (sessionManager b) b = b.
Proof. by destruct b. Qed.

Lemma getSession_new h id : getSession id (newManager h) = None.
Proof. unfold getSession. simpl. by rewrite lookup_empty. Qed.

Lemma closeSession_new h id : closeSession id (newManager h) = newManager h.
Proof. unfold closeSession. simpl. by rewrite lookup_empty. Qed.

Lemma respond_new ms id d msg u :
  Permission.respond id d msg u (Permission.newPermissionHandler ms)
  = (Permission.newPermissionHandler ms, false).
Proof. unfold Permission.respond. simpl. by rewrite lookup_empty. Qed.

Lemma queryOf_untouched b id : untouched b → queryOf id b = None.
Proof. unfold untouched. intros Hm. unfold queryOf. by rewrite Hm, getSession_new. Qed.

(** Before [initialize] a command either is [initialize] or leaves the
    bridge as it is. *)
Lemma handleCommand_untouched env c b :
  initialized b = false → untouched b →
  (handleCommand env c b).1 = b ∨ ∃ info, c = initialize info.
Proof.
  intros Hi Hm. pose proof Hm as Hm'. unfold untouched in Hm.
  destruct c as [info|wid cw|wid sid cw|sid|sid um dr|sid wid msg imgs mid|sid|sid tid d msg u|sid|sid mdl|osid|sid|sid srv|meth]; [right; eauto|left..]; cbn [handleCommand].
  - unfold handleSessionStart. by rewrite Hi.
  - unfold handleSessionResume. by rewrite Hi.
  - unfold handleSessionClose. cbn [fst]. rewrite Hm, closeSession_new.
    transitivity (withManager (sessionManager b) b); [by rewrite Hm | apply withManager_id].
  - unfold handleRewindFiles. by rewrite queryOf_untouched.
  - unfold handleMessageSend. by rewrite Hi.
  - unfold handleMessageInterrupt. by rewrite Hm, getSession_new.
  - unfold handlePermissionRespond. rewrite Hm. cbn [permissionHandler newManager].
    rewrite respond_new. cbn [fst].
    transitivity (withManager (sessionManager b) b); [by rewrite Hm | apply withManager_id].
  - unfold handleModelList. destruct (isEmpty sid); [done|].
    by rewrite queryOf_untouched.
  - unfold handleModelSet. by rewrite queryOf_untouched.
  - unfold handleCommandList. destruct osid as [id|]; [|done].
    destruct (isEmpty id); [done|]. by rewrite queryOf_untouched.
  - unfold handleMcpStatus. by rewrite queryOf_untouched.
  - unfold handleSetMcpServers. by rewrite queryOf_untouched.
  - done.
Qed.

Lemma handleCommand_initialized env c b :
  initialized b = true → initialized (handleCommand env c b).1 = true.
Proof.
  intros Hi. destruct c as [info|wid cw|wid sid cw|sid|sid um dr|sid wid msg imgs mid|sid|sid tid d msg u|sid|sid mdl|osid|sid|sid srv|meth]; cbn [handleCommand].
  - unfold handleInitialize. by rewrite Hi.
  - unfold handleSessionStart. rewrite Hi. cbn [negb].
    by destruct (startSession _ _ _ _ _) as [m [?|?]].
  - unfold handleSessionResume. rewrite Hi. cbn [negb].
    by destruct (resumeSession _ _ _ _ _ _) as [m [?|?]].
  - done.
  - unfold handleRewindFiles. by destruct (queryOf _ _).
  - unfold handleMessageSend. rewrite Hi. cbn [negb].
    by destruct (sendMessage _ _ _ _ _) as [m [?|?]].
  - unfold handleMessageInterrupt. destruct (getSession _ _) as [s|]; [|done].
    by destruct (query s).
  - unfold handlePermissionRespond. by destruct (Permission.respond _ _ _ _ _).
  - unfold handleModelList. destruct (isEmpty _); [done|]. by destruct (queryOf _ _).
  - unfold handleModelSet. by destruct (queryOf _ _).
  - unfold handleCommandList. destruct osid as [id|]; [|done].
    destruct (isEmpty id); [done|]. by destruct (queryOf _ _).
  - unfold handleMcpStatus. by destruct (queryOf _ _).
  - unfold handleSetMcpServers. by destruct (queryOf _ _).
  - done.
Qed.

Lemma step_initialized i b :
  initialized b = true → initialized (step i b) = true.
Proof.
  intros Hi. destruct i as [id c env|o msg|o e|o t u|n|n]; cbn [step].
  - pose proof (handleCommand_initialized env c b Hi) as H.
    by destruct (handleCommand env c b).
  - by destruct (bool_decide _).
  - by destruct (bool_decide _).
  - by destruct (bool_decide _).
  - done.
  - done.
Qed.

(** Before a successful [initialize] nothing has touched the manager. *)
Lemma step_untouched i b :
  untouched b → initialized (step i b) = false → untouched (step i b).
Proof.
  intros Hm' Hi. pose proof Hm' as Hm. unfold untouched in Hm.
  assert (initialized b = false) as Hb.
  { destruct (initialized b) eqn:E; [|done].
    by rewrite (step_initialized i b E) in Hi. }
  destruct i as [id c env|o msg|o e|o t u|n|n]; cbn [step] in *.
  - destruct (handleCommand_untouched env c b Hb Hm') as [Heq|[info ->]].
    + destruct (handleCommand env c b) as [b' r]. simpl in Heq. by subst b'.
    + cbn [handleCommand] in *. unfold handleInitialize in *.
      rewrite Hb in *. done.
  - unfold untouched in *. rewrite Hm. cbn [consumers newManager].
    rewrite bool_decide_eq_false_2 by set_solver. done.
  - unfold untouched in *. rewrite Hm. cbn [consumers newManager].
    rewrite bool_decide_eq_false_2 by set_solver. done.
  - unfold untouched in *. rewrite Hm. cbn [consumers newManager].
    rewrite bool_decide_eq_false_2 by set_solver. done.
  - unfold untouched in *. rewrite Hm. done.
  - unfold untouched in *. rewrite Hm. done.
Qed.

Lemma run_snoc inputs i b : run (inputs ++ [i]) b = step i (run inputs b).
Proof. unfold run. by rewrite foldl_app. Qed.

Lemma run_untouched inputs :
  initialized (run inputs boot) = false → untouched (run inputs boot).
Proof.
  induction inputs as [|i inputs IH] using rev_ind; [done|].
  rewrite run_snoc. intros Hi. apply step_untouched; [|done].
  apply IH. destruct (initialized (run inputs boot)) eqn:E; [|done].
  by rewrite (step_initialized i _ E) in Hi.
Qed.

End bridge_facts.

Section bridge_claims.
Import SessionManager Bridge.

(** [C4] (amended) Before a successful [initialize], [session/start],
    [session/resume] and [message/send] fail with "Bridge not initialized";
    [message/interrupt], [model/list], [model/set], [mcp/status], [mcp/set]
    and [session/rewind] fail as well, because no session exists yet;
    [permission/respond] answers [{success: false}] and [command/list]
    answers with the empty list, neither with an error. *)
Theorem uninitialized_replies (inputs : list input) (env : Env) :
  let b := run inputs boot in
  let reply c := (handleCommand env c b).2 in
  initialized b = false →
  (∀ wid cw, reply (session_start wid cw) = Error (js "Bridge not initialized"))
  ∧ (∀ wid sid cw,
       reply (session_resume wid sid cw) = Error (js "Bridge not initialized"))
  ∧ (∀ sid wid msg imgs mid,
       reply (message_send sid wid msg imgs mid) = Error (js "Bridge not initialized"))
  ∧ (∀ sid, reply (message_interrupt sid) = Error (js "Session not found: " ++ sid))
  ∧ (∀ sid, isError (reply (model_list sid)) = true)
  ∧ (∀ sid mdl, reply (model_set sid mdl)
                = Error (js "Session not found or not active: " ++ sid))
  ∧ (∀ sid, reply (mcp_status sid)
            = Error (js "Session not found or inactive: " ++ sid))
  ∧ (∀ sid srv, reply (mcp_set sid srv)
                = Error (js "Session not found or inactive: " ++ sid))
  ∧ (∀ sid um dr, reply (session_rewind sid um dr)
                  = Error (js "Session not found or inactive: " ++ sid))
  ∧ (∀ sid tid d msg u,
       reply (permission_respond sid tid d msg u) = Result (Success false))
  ∧ (∀ osid, reply (command_list osid) = Result (Commands [])).
Proof.
  intros b reply Hi. pose proof (run_untouched inputs Hi) as Hm.
  fold b in Hm. pose proof Hm as Hm'. unfold untouched in Hm'.
  unfold reply. cbn [handleCommand].
  split; [intros; unfold handleSessionStart; by rewrite Hi|].
  split; [intros; unfold handleSessionResume; by rewrite Hi|].
  split; [intros; unfold handleMessageSend; by rewrite Hi|].
  split; [intros; unfold handleMessageInterrupt; by rewrite Hm', getSession_new|].
  split.
  { intros sid. unfold handleModelList. destruct (isEmpty sid); [done|].
    by rewrite queryOf_untouched. }
  split; [intros; unfold handleModelSet; by rewrite queryOf_untouched|].
  split; [intros; unfold handleMcpStatus; by rewrite queryOf_untouched|].
  split; [intros; unfold handleSetMcpServers; by rewrite queryOf_untouched|].
  split; [intros; unfold handleRewindFiles; by rewrite queryOf_untouched|].
  split.
  { intros. unfold handlePermissionRespond. rewrite Hm'.
    cbn [permissionHandler newManager]. by rewrite respond_new. }
  intros [id|]; unfold handleCommandList; [|done].
  destruct (isEmpty id); [done|]. by rewrite queryOf_untouched.
Qed.

Lemma uninitialized_replies_witness :
  let b := run [CommandLine 1 (session_close (js "S1")) (mkEnv 0 None);
                TimerFires 0] boot in
  (handleCommand (mkEnv 5 None) (message_interrupt (js "S1")) b).2
  = Error (js "Session not found: " ++ js "S1").
Proof.
  intros b.
  apply (uninitialized_replies
           [CommandLine 1 (session_close (js "S1")) (mkEnv 0 None); TimerFires 0]
           (mkEnv 5 None)).
  vm_compute. reflexivity.
Defined.

(** [C4] as stated fails: before [initialize], [permission/respond] and
    [command/list] are answered with a result, not with an error. *)
Lemma respond_before_initialize :
  (handleCommand (mkEnv 0 None)
     (permission_respond (js "S1") (js "T1") Permission.allow None None) boot).2
  = Result (Success false)
  ∧ (handleCommand (mkEnv 0 None) (command_list (Some (js "S1"))) boot).2
    = Result (Commands []).
Proof. split; vm_compute; reflexivity. Qed.

Example respond_from_other_session :
  let b := run [CommandLine 1 (initialize (mkClientInfo (js "ui") (js "1"))) (mkEnv 0 None);
                CommandLine 2 (session_start (js "w1") (js "/p")) (mkEnv 7 None);
                VendorMessage 0 (mkMessage (Some (js "S1")) (system true));
                VendorCanUseTool 0 (js "bash") (js "T1")] boot in
  Permission.sessionId
    <$> Permission.pending (permissionHandler (sessionManager b)) !! js "T1"
  = Some (js "S1")
  ∧ (handleCommand (mkEnv 9 None)
       (permission_respond (js "elsewhere") (js "T1") Permission.deny None None) b).2
    = Result (Success true).
Proof. vm_compute. done. Qed.

End bridge_claims.

Section session_claims.
Import SessionManager Bridge.
Implicit Types (m : manager) (s : SessionState).

Lemma activeSessionOf_Some wid m sid :
  activeSessionOf wid m = Some sid ↔
  workspaceToSession m !! wid = Some sid ∧ sid ≠ []
  ∧ ∃ s, getSession sid m = Some s ∧ status s = active.
Proof.
  unfold activeSessionOf. destruct (workspaceToSession m !! wid) as [id|]; [|naive_solver].
  destruct (isEmpty id) eqn:E.
  { apply isEmpty_true in E. naive_solver. }
  apply isEmpty_false in E.
  destruct (getSession id m) as [s|] eqn:Hs.
  - destruct (bool_decide (status s = active)) eqn:Hb.
    + apply bool_decide_eq_true in Hb. split.
      * intros [= <-]. eauto.
      * intros ([= <-] & _). done.
    + apply bool_decide_eq_false in Hb. split; [done|].
      intros ([= <-] & _ & s' & Hs' & Ha). congruence.
  - split; [done|]. intros ([= <-] & _ & s' & Hs' & _). congruence.
Qed.

(** [C1] (amended) Starting a session for a workspace is rejected exactly
    when the index names for the workspace, by an id that is not empty, a
    session that is in the table with status Active; the error names that
    session and the manager is left as it is.  Otherwise, a session of the workspace that is still
    Starting included, the start is accepted: it returns the id
    [pending-<now>], made from the clock, and puts a new session object of
    the workspace, in status Starting, into the table under that id.
    Every table entry under another id, every session object that existed
    and the index stay as they are; an entry that was already under the
    returned id, made by a start in the same millisecond, is replaced by
    the new one. *)
Theorem start_guard (now : N) (wid cw : jsstring) (m : manager) :
  let started := startSession now wid cw None m in
  let fresh :=
    mkSession (pendingId now) wid cw (Some (allocated m))
      InputStream.createInputStream now starting in
  (∃ sid s,
      workspaceToSession m !! wid = Some sid ∧ sid ≠ []
      ∧ getSession sid m = Some s ∧ status s = active
      ∧ started = (m, Throws (js "Workspace " ++ wid
                              ++ js " already has an active session: " ++ sid)))
  ∨ ((¬ ∃ sid s, workspaceToSession m !! wid = Some sid ∧ sid ≠ []
                 ∧ getSession sid m = Some s ∧ status s = active)
     ∧ started.2 = Returns (pendingId now)
     ∧ getSession (pendingId now) started.1 = Some fresh
     ∧ sessions started.1 = <[pendingId now := allocated m]> (sessions m)
     ∧ objects started.1 = <[allocated m := fresh]> (objects m)
     ∧ (∀ sid, sid ≠ pendingId now → sessions started.1 !! sid = sessions m !! sid)
     ∧ (∀ o s, objects m !! o = Some s → o < allocated m →
               objects started.1 !! o = Some s)
     ∧ workspaceToSession started.1 = workspaceToSession m).
Proof.
  intros started fresh. unfold started, startSession.
  destruct (activeSessionOf wid m) as [sid|] eqn:E.
  - left. apply activeSessionOf_Some in E as (H1 & H2 & s & H3 & H4).
    exists sid, s. done.
  - right. split.
    + intros (sid & s & H1 & H2 & H3 & H4).
      assert (activeSessionOf wid m = Some sid) as H; [|congruence].
      apply activeSessionOf_Some. eauto.
    + cbn [fst snd]. split; [done|]. split.
      { unfold getSession. simpl. rewrite lookup_insert_eq. simpl.
        by rewrite lookup_insert_eq. }
      split; [done|]. split.
      { cbn. by rewrite insert_insert_eq. }
      split.
      { intros sid Hne. cbn. by rewrite lookup_insert_ne. }
      split; [|done].
      intros o s Ho Hlt. cbn. rewrite !lookup_insert_ne by lia. done.
Qed.

Lemma start_guard_witness :
  let m := (startSession 1 (js "w1") (js "/p") None
              (newManager (Permission.newPermissionHandler 1000))).1 in
  let started := startSession 2 (js "w1") (js "/q") None m in
  started.2 = Returns (pendingId 2)
  ∧ sessions started.1 !! pendingId 1 = Some 0
  ∧ objects started.1 !! 0 = objects m !! 0.
Proof.
  intros m started.
  destruct (start_guard 2 (js "w1") (js "/q") m)
    as [(sid & s & H1 & _)|(_ & H2 & _ & _ & _ & H6 & H7 & _)].
  - vm_compute in H1. discriminate.
  - split; [exact H2|]. unfold started. split.
    + rewrite (H6 (pendingId 1)); [vm_compute; reflexivity | vm_compute; discriminate].
    + apply (H7 0 (mkSession (pendingId 1) (js "w1") (js "/p") (Some 0)
                     InputStream.createInputStream 1 starting));
        [vm_compute; reflexivity | vm_compute; lia].
Defined.

(** [C1] as stated fails: a second start for a workspace whose session is
    still Starting is accepted, the workspace then has two Starting
    sessions, and both become Active. *)
Lemma two_sessions_one_workspace :
  let b := run [CommandLine 1 (initialize (mkClientInfo (js "ui") (js "1"))) (mkEnv 0 None);
                CommandLine 2 (session_start (js "w1") (js "/p")) (mkEnv 1 None);
                CommandLine 3 (session_start (js "w1") (js "/p")) (mkEnv 2 None)] boot in
  let b' := run [VendorMessage 0 (mkMessage (Some (js "S1")) (system true));
                 VendorMessage 1 (mkMessage (Some (js "S2")) (system true))] b in
  responses b !! 2 = Some (3%N, Result (SessionId (pendingId 2)))
  ∧ status <$> getSession (pendingId 1) (sessionManager b) = Some starting
  ∧ status <$> getSession (pendingId 2) (sessionManager b) = Some starting
  ∧ length (liveSessions (js "w1") (sessionManager b)) = 2
  ∧ status <$> getSession (js "S1") (sessionManager b') = Some active
  ∧ status <$> getSession (js "S2") (sessionManager b') = Some active
  ∧ length (liveSessions (js "w1") (sessionManager b')) = 2.
Proof. vm_compute. done. Qed.

(** Two starts in the same millisecond are given the same pending id: the
    table then holds the second session only, while the first keeps its
    consumer loop. *)
Example same_millisecond_start :
  let m0 := newManager (Permission.newPermissionHandler 1000) in
  let m1 := (startSession 7 (js "w1") (js "/p") None m0).1 in
  let r := startSession 7 (js "w2") (js "/q") None m1 in
  r.2 = Returns (pendingId 7)
  ∧ workspaceId <$> getSession (pendingId 7) m1 = Some (js "w1")
  ∧ workspaceId <$> getSession (pendingId 7) r.1 = Some (js "w2")
  ∧ size (sessions r.1) = 1
  ∧ 0 ∈ consumers r.1.
Proof. vm_compute. repeat split; try done. Qed.

End session_claims.

(** ** Reachable states of the bridge *)

Section bridge_sound.
Import Events SessionManager Bridge.
Implicit Types (b : bridge) (m : manager) (s : SessionState).

Lemma sound_handleCommand env c b :
  sound (sessionManager b) → sound (sessionManager (handleCommand env c b).1).
Proof.
  intros Hs.
  destruct c as [info|wid cw|wid sid cw|sid|sid um dr|sid wid msg imgs mid|sid
                |sid tid d msg u|sid|sid mdl|osid|sid|sid srv|meth];
    cbn [handleCommand].
  - unfold handleInitialize. by destruct (initialized b).
  - unfold handleSessionStart. destruct (negb _); [done|].
    pose proof (sound_startSession (now env) wid cw (queryThrows env) _ Hs) as H.
    by destruct (startSession _ _ _ _ _) as [m [?|?]].
  - unfold handleSessionResume. destruct (negb _); [done|].
    pose proof (sound_resumeSession (now env) wid sid cw (queryThrows env) _ Hs) as H.
    by destruct (resumeSession _ _ _ _ _ _) as [m [?|?]].
  - by apply sound_closeSession.
  - unfold handleRewindFiles. by destruct (queryOf _ _).
  - unfold handleMessageSend. destruct (negb _); [done|].
    pose proof (sound_sendMessage sid msg imgs mid _ Hs) as H.
    by destruct (sendMessage _ _ _ _ _) as [m [?|?]].
  - unfold handleMessageInterrupt. destruct (getSession _ _) as [s|]; [|done].
    by destruct (query s).
  - unfold handlePermissionRespond. destruct (Permission.respond _ _ _ _ _).
    by apply sound_setPermissionHandler.
  - unfold handleModelList. destruct (isEmpty _); [done|]. by destruct (queryOf _ _).
  - unfold handleModelSet. by destruct (queryOf _ _).
  - unfold handleCommandList. destruct osid as [id|]; [|done].
    destruct (isEmpty id); [done|]. by destruct (queryOf _ _).
  - unfold handleMcpStatus. by destruct (queryOf _ _).
  - unfold handleSetMcpServers. by destruct (queryOf _ _).
  - done.
Qed.

Lemma sound_step i b : sound (sessionManager b) → sound (sessionManager (step i b)).
Proof.
  intros Hs. destruct i as [id c env|o msg|o e|o t u|n|n]; cbn [step].
  - pose proof (sound_handleCommand env c b Hs) as H.
    by destruct (handleCommand env c b).
  - destruct (bool_decide _); [|done]. by apply sound_handleMessage.
  - destruct (bool_decide _); [|done]. by apply sound_endOfMessages.
  - destruct (bool_decide _); [|done]. by apply sound_canUseTool.
  - by apply sound_setPermissionHandler.
  - by apply sound_setPermissionHandler.
Qed.

Lemma sound_run inputs b :
  sound (sessionManager b) → sound (sessionManager (run inputs b)).
Proof.
  revert b. induction inputs as [|i inputs IH]; intros b Hs; [done|].
  simpl. by apply IH, sound_step.
Qed.

End bridge_sound.

Section bridge_extras.
Import Events SessionManager Bridge.

(** [X6] Whatever commands and vendor calls the bridge has seen, the
    session table is keyed by the current id of each session: a lookup by
    id gives a session that carries this id, so a stale key never leads to
    a session that has moved on. *)
Theorem table_keyed_by_id (inputs : list input) (sid : jsstring) (s : SessionState) :
  getSession sid (sessionManager (run inputs boot)) = Some s →
  sessionId s = sid.
Proof.
  intros Hg. pose proof (sound_run inputs boot (sound_new _)) as Hs.
  unfold getSession in Hg.
  destruct (sessions _ !! sid) as [o|] eqn:Ho; [|done]. simpl in Hg.
  destruct (sound_table _ Hs sid o Ho) as (s0 & Hs0 & Hid). congruence.
Qed.

Lemma table_keyed_by_id_witness :
  sessionId (mkSession (js "S1") (js "w1") (js "/p") (Some 0)
               InputStream.createInputStream 7 active) = js "S1".
Proof.
  apply (table_keyed_by_id
           [CommandLine 1 (initialize (mkClientInfo (js "ui") (js "1"))) (mkEnv 0 None);
            CommandLine 2 (session_start (js "w1") (js "/p")) (mkEnv 7 None);
            VendorMessage 0 (mkMessage (Some (js "S1")) (system true))]).
  vm_compute. reflexivity.
Defined.

End bridge_extras.

(** ** The permission table as the bridge drives it *)

Section bridge_permissions.
Import Events SessionManager Bridge.
Implicit Types (b : bridge) (m : manager) (s : SessionState).

Lemma handler_startSession now wid cw qt m :
  permissionHandler (startSession now wid cw qt m).1 = permissionHandler m.
Proof. unfold startSession. destruct (activeSessionOf wid m); [done|]. by destruct qt. Qed.

Lemma handler_resumeSession now wid sid cw qt m :
  permissionHandler (resumeSession now wid sid cw qt m).1 = permissionHandler m.
Proof. unfold resumeSession. destruct (isSessionActive sid m); [done|]. by destruct qt. Qed.

Lemma handler_sendMessage sid msg imgs mid m :
  permissionHandler (sendMessage sid msg imgs mid m).1 = permissionHandler m.
Proof.
  unfold sendMessage. destruct (sessions m !! sid) as [o|]; [|done].
  destruct (objects m !! o) as [s|]; [|done].
  destruct (_ && _); [done|]. destruct (readImages _); [|done].
  by destruct (InputStream.push _ _).
Qed.

Lemma handler_routeMessage msg sid wid o m :
  permissionHandler (routeMessage msg sid wid o m) = permissionHandler m.
Proof.
  unfold routeMessage. destruct (kind msg) as [[]| | | |?| |[e|]|]; try done.
  - by destruct (objects m !! o).
  - by destruct (isEmpty e).
Qed.

Lemma handler_promoteId msg o s m :
  permissionHandler (promoteId msg o s m) = permissionHandler m.
Proof.
  unfold promoteId. destruct (session_id msg); [|done]. by destruct (_ && _).
Qed.

Lemma handler_handleMessage msg o m :
  permissionHandler (handleMessage msg o m) = permissionHandler m.
Proof.
  unfold handleMessage. destruct (objects m !! o) as [s|]; [|done].
  by rewrite handler_routeMessage, handler_promoteId.
Qed.

Lemma handler_endOfMessages err o m :
  permissionHandler (endOfMessages err o m) = permissionHandler m.
Proof.
  unfold endOfMessages. destruct (objects m !! o) as [s|]; [|done].
  destruct err; cbn [emit stopConsumer sessions];
    (destruct (sessions m !! sessionId s); [|done]);
    by destruct (bool_decide _).
Qed.

Lemma handler_closeSession sid m :
  permissionHandler (closeSession sid m) = permissionHandler m
  ∨ permissionHandler (closeSession sid m)
    = Permission.cancelForSession sid (permissionHandler m).
Proof.
  destruct (getSession sid m) as [s|] eqn:Hg.
  - apply getSession_Some in Hg as (o & Hs & Ho). right.
    by destruct (closeSession_found m sid o s Hs Ho) as (_ & _ & _ & ? & _).
  - left. by rewrite closeSession_missing.
Qed.

(** The handler after [g] is the handler before after some of its own
    methods, none of them a new request. *)
Lemma applyAll_app acts1 acts2 h :
  Permission.applyAll (acts1 ++ acts2) h
  = Permission.applyAll acts2 (Permission.applyAll acts1 h).
Proof. apply foldl_app. Qed.

Lemma handler_closeAll_loop l m :
  ∃ acts,
    permissionHandler (foldl (λ m (kv : jsstring * nat), closeSession kv.1 m) m l)
    = Permission.applyAll acts (permissionHandler m)
    ∧ Permission.registered acts = [].
Proof.
  revert m. induction l as [|[k o] l IH]; intros m; [by exists []|].
  cbn [foldl fst]. destruct (IH (closeSession k m)) as (acts & -> & Hr).
  destruct (handler_closeSession k m) as [-> | ->].
  - by exists acts.
  - exists (Permission.CancelForSession k :: acts). done.
Qed.

Lemma handler_handleCommand env c b :
  ∃ acts,
    permissionHandler (sessionManager (handleCommand env c b).1)
    = Permission.applyAll acts (permissionHandler (sessionManager b))
    ∧ Permission.registered acts = [].
Proof.
  destruct c as [info|wid cw|wid sid cw|sid|sid um dr|sid wid msg imgs mid|sid
                |sid tid d msg u|sid|sid mdl|osid|sid|sid srv|meth];
    cbn [handleCommand].
  - exists []. unfold handleInitialize. by destruct (initialized b).
  - exists []. unfold handleSessionStart. destruct (negb _); [done|].
    pose proof (handler_startSession (now env) wid cw (queryThrows env)
                  (sessionManager b)) as H.
    by destruct (startSession _ _ _ _ _) as [m [?|?]].
  - exists []. unfold handleSessionResume. destruct (negb _); [done|].
    pose proof (handler_resumeSession (now env) wid sid cw (queryThrows env)
                  (sessionManager b)) as H.
    by destruct (resumeSession _ _ _ _ _ _) as [m [?|?]].
  - unfold handleSessionClose. cbn [fst withManager sessionManager].
    destruct (handler_closeSession sid (sessionManager b)) as [-> | ->].
    + by exists [].
    + by exists [Permission.CancelForSession sid].
  - exists []. unfold handleRewindFiles. by destruct (queryOf _ _).
  - exists []. unfold handleMessageSend. destruct (negb _); [done|].
    pose proof (handler_sendMessage sid msg imgs mid (sessionManager b)) as H.
    by destruct (sendMessage _ _ _ _ _) as [m [?|?]].
  - exists []. unfold handleMessageInterrupt.
    destruct (getSession _ _) as [s|]; [|done]. by destruct (query s).
  - exists [Permission.Respond tid d msg u]. unfold handlePermissionRespond.
    cbn [Permission.applyAll foldl Permission.apply Permission.registered].
    by destruct (Permission.respond _ _ _ _ _).
  - exists []. unfold handleModelList. destruct (isEmpty _); [done|].
    by destruct (queryOf _ _).
  - exists []. unfold handleModelSet. by destruct (queryOf _ _).
  - exists []. unfold handleCommandList. destruct osid as [id|]; [|done].
    destruct (isEmpty id); [done|]. by destruct (queryOf _ _).
  - exists []. unfold handleMcpStatus. by destruct (queryOf _ _).
  - exists []. unfold handleSetMcpServers. by destruct (queryOf _ _).
  - by exists [].
Qed.

Lemma handler_step i b :
  ∃ acts,
    permissionHandler (sessionManager (step i b))
    = Permission.applyAll acts (permissionHandler (sessionManager b))
    ∧ Permission.registered acts `sublist_of` toolUseIds [i].
Proof.
  destruct i as [id c env|o msg|o e|o t u|n|n]; cbn [step toolUseIds].
  - destruct (handler_handleCommand env c b) as (acts & H & Hr).
    exists acts. rewrite Hr. split; [|done].
    by destruct (handleCommand env c b).
  - exists []. split; [|done]. destruct (bool_decide _); [|done].
    apply handler_handleMessage.
  - exists []. split; [|done]. destruct (bool_decide _); [|done].
    apply handler_endOfMessages.
  - destruct (bool_decide _); [|exists []; split; [done|apply sublist_nil_l]].
    cbn [withManager sessionManager]. unfold canUseTool.
    destruct (getSessionId o (sessionManager b)) as [sid|];
      [|exists []; split; [done|apply sublist_nil_l]].
    destruct (objects (sessionManager b) !! o) as [s|];
      [|exists []; split; [done|apply sublist_nil_l]].
    exists [Permission.CanUseTool sid (workspaceId s) t u]. split; [|done].
    cbn [Permission.applyAll foldl Permission.apply].
    by destruct (Permission.canUseTool _ _ _ _ _).
  - by exists [Permission.Timeout n].
  - by exists [Permission.Abort n].
Qed.

Lemma toolUseIds_cons i inputs :
  toolUseIds (i :: inputs) = toolUseIds [i] ++ toolUseIds inputs.
Proof. by destruct i. Qed.

Lemma handler_run inputs b :
  ∃ acts,
    permissionHandler (sessionManager (run inputs b))
    = Permission.applyAll acts (permissionHandler (sessionManager b))
    ∧ Permission.registered acts `sublist_of` toolUseIds inputs.
Proof.
  revert b. induction inputs as [|i inputs IH]; intros b; [by exists []|].
  cbn [run foldl]. fold (run inputs (step i b)).
  destruct (IH (step i b)) as (acts2 & -> & H2).
  destruct (handler_step i b) as (acts1 & -> & H1).
  exists (acts1 ++ acts2). rewrite applyAll_app. split; [done|].
  rewrite registered_app, toolUseIds_cons. by apply sublist_app.
Qed.

End bridge_permissions.

(** ** Shutdown, responses and initialization *)

Section bridge_more_facts.
Import Events SessionManager Bridge.
Implicit Types (b : bridge) (m : manager) (s : SessionState).

Lemma cancelAll_empty h :
  Permission.wf h → Permission.pending (Permission.cancelAll h) = ∅.
Proof.
  intros Hwf. apply map_eq. intros k. rewrite lookup_empty.
  destruct (Permission.pending h !! k) as [v|] eqn:Hk.
  - set (g := Permission.cancelEntry (js "Bridge shutting down")).
    apply (cancel_loop_hits (js "Bridge shutting down") g k v); try done.
    + intros; by right.
    + apply NoDup_fst_map_to_list.
    + intros k' v'. apply elem_of_map_to_list.
    + by apply elem_of_map_to_list.
  - exact (absent_apply Permission.CancelAll h k Hwf Hk eq_refl).
Qed.

Lemma unregistered acts id :
  Permission.registered acts = [] →
  Forall (λ a, Permission.registers id a = false) acts.
Proof.
  induction acts as [|a acts IH]; intros Hr; [done|].
  destruct a; try done; constructor; auto.
Qed.

Lemma handleCommand_frame env c b :
  responses (handleCommand env c b).1 = responses b
  ∧ (initialized b = true → clientInfo_ (handleCommand env c b).1 = clientInfo_ b).
Proof.
  destruct c as [info|wid cw|wid sid cw|sid|sid um dr|sid wid msg imgs mid|sid
                |sid tid d msg u|sid|sid mdl|osid|sid|sid srv|meth];
    cbn [handleCommand].
  - unfold handleInitialize. destruct (initialized b); [done|]. by split.
  - unfold handleSessionStart. destruct (negb _); [done|].
    by destruct (startSession _ _ _ _ _) as [m [?|?]].
  - unfold handleSessionResume. destruct (negb _); [done|].
    by destruct (resumeSession _ _ _ _ _ _) as [m [?|?]].
  - done.
  - unfold handleRewindFiles. by destruct (queryOf _ _).
  - unfold handleMessageSend. destruct (negb _); [done|].
    by destruct (sendMessage _ _ _ _ _) as [m [?|?]].
  - unfold handleMessageInterrupt. destruct (getSession _ _) as [s|]; [|done].
    by destruct (query s).
  - unfold handlePermissionRespond. by destruct (Permission.respond _ _ _ _ _).
  - unfold handleModelList. destruct (isEmpty _); [done|]. by destruct (queryOf _ _).
  - unfold handleModelSet. by destruct (queryOf _ _).
  - unfold handleCommandList. destruct osid as [id|]; [|done].
    destruct (isEmpty id); [done|]. by destruct (queryOf _ _).
  - unfold handleMcpStatus. by destruct (queryOf _ _).
  - unfold handleSetMcpServers. by destruct (queryOf _ _).
  - done.
Qed.

Lemma step_responses i b :
  (responses (step i b)).*1 = (responses b).*1 ++ commandIds [i].
Proof.
  destruct i as [id c env|o msg|o e|o t u|n|n]; cbn [step commandIds];
    rewrite ?app_nil_r; try done; try by destruct (bool_decide _).
  destruct (handleCommand_frame env c b) as [H _].
  destruct (handleCommand env c b) as [b' r]. cbn [responses fst] in *.
  by rewrite fmap_app, H.
Qed.

Lemma commandIds_cons i inputs :
  commandIds (i :: inputs) = commandIds [i] ++ commandIds inputs.
Proof. by destruct i. Qed.

Lemma run_responses inputs b :
  (responses (run inputs b)).*1 = (responses b).*1 ++ commandIds inputs.
Proof.
  revert b. induction inputs as [|i inputs IH]; intros b; [by rewrite app_nil_r|].
  cbn [run foldl]. fold (run inputs (step i b)).
  by rewrite IH, step_responses, (commandIds_cons i inputs), app_assoc.
Qed.

Lemma step_clientInfo i b :
  initialized b = true → clientInfo_ (step i b) = clientInfo_ b.
Proof.
  intros Hi. destruct i as [id c env|o msg|o e|o t u|n|n]; cbn [step];
    try done; try by destruct (bool_decide _).
  destruct (handleCommand_frame env c b) as [_ H]. specialize (H Hi).
  by destruct (handleCommand env c b).
Qed.

Lemma run_initialized inputs b :
  initialized b = true →
  initialized (run inputs b) = true ∧ clientInfo_ (run inputs b) = clientInfo_ b.
Proof.
  revert b. induction inputs as [|i inputs IH]; intros b Hi; [done|].
  cbn [run foldl]. fold (run inputs (step i b)).
  destruct (IH (step i b) (step_initialized i b Hi)) as [H1 H2].
  split; [done|]. by rewrite H2, step_clientInfo.
Qed.

End bridge_more_facts.

Section bridge_more.
Import Events SessionManager Bridge.

(** [X9] After [shutdown], whatever the bridge has been through, the
    session table is empty and no permission request is pending.  When the
    vendor never used a tool-use id twice, no timer is left armed either
    and every promise the permission callback ever returned has been
    settled exactly once. *)
Theorem shutdown_clears (inputs : list input) :
  let m := sessionManager (shutdown (run inputs boot)) in
  let h := permissionHandler m in
  sessions m = ∅
  ∧ Permission.pending h = ∅
  ∧ (NoDup (toolUseIds inputs) →
     Permission.timers h = ∅
     ∧ ∀ n, n < Permission.requests h → ∃ s, Permission.settlements h n = [s]).
Proof.
  intros m h.
  set (m0 := sessionManager (run inputs boot)).
  destruct (handler_run inputs boot) as (acts & Hacts & Hsub). fold m0 in Hacts.
  cbn [boot sessionManager newManager permissionHandler] in Hacts.
  set (h0 := Permission.newPermissionHandler Permission.DEFAULT_PERMISSION_TIMEOUT_MS)
    in Hacts.
  set (m1 := setPermissionHandler (Permission.cancelAll (permissionHandler m0)) m0).
  assert (sound m1) as Hs1.
  { apply sound_setPermissionHandler, sound_run, sound_new. }
  assert (m = closeAll m1) as Hm by done.
  destruct (handler_closeAll_loop (map_to_list (sessions m1)) m1) as (acts' & Hh & Hr).
  fold (closeAll m1) in Hh. rewrite <- Hm in Hh. fold h in Hh.
  cbn [m1 setPermissionHandler permissionHandler] in Hh.
  assert (Permission.wf (permissionHandler m0)) as Hwf0.
  { rewrite Hacts. apply wf_applyAll, wf_new. }
  assert (Permission.wf (Permission.cancelAll (permissionHandler m0))) as Hwf1.
  { exact (wf_apply Permission.CancelAll _ Hwf0). }
  assert (Permission.pending h = ∅) as Hp.
  { apply map_eq. intros k. rewrite lookup_empty, Hh.
    apply absent_applyAll; [done| |by apply unregistered].
    by rewrite cancelAll_empty. }
  split; [rewrite Hm; by apply closeAll_sessions|]. split; [done|].
  intros Hnd.
  assert (h = Permission.applyAll (acts ++ Permission.CancelAll :: acts') h0) as Hall.
  { rewrite Hh, Hacts, applyAll_app. done. }
  assert (Permission.registered (acts ++ Permission.CancelAll :: acts')
          = Permission.registered acts) as Hreg.
  { rewrite registered_app. cbn [Permission.registered]. by rewrite Hr, app_nil_r. }
  assert (Permission.tidy h (Permission.registered acts)) as Ht.
  { rewrite Hall, <- Hreg, <- (app_nil_r (Permission.registered _)).
    apply tidy_applyAll; [apply wf_new | apply tidy_new |].
    rewrite app_nil_r, Hreg. by eapply sublist_NoDup. }
  split.
  - apply map_eq. intros n. rewrite lookup_empty.
    destruct (Permission.timers h !! n) as [t|] eqn:Hn; [|done].
    destruct (Permission.tidy_timer h _ Ht n t Hn) as (e & He & _).
    by rewrite Hp, lookup_empty in He.
  - intros n Hn.
    destruct (Permission.tidy_promise h _ Ht n Hn) as [(id & e & He & _)|Hs]; [|done].
    by rewrite Hp, lookup_empty in He.
Qed.

Lemma shutdown_clears_witness :
  let inputs :=
    [CommandLine 1 (initialize (mkClientInfo (js "app") (js "1.0"))) (mkEnv 0 None);
     CommandLine 2 (session_start (js "w1") (js "/p")) (mkEnv 17 None);
     VendorCanUseTool 0 (js "bash") (js "T1")] in
  let h := permissionHandler (sessionManager (shutdown (run inputs boot))) in
  sessions (sessionManager (shutdown (run inputs boot))) = ∅
  ∧ Permission.timers h = ∅.
Proof.
  intros inputs h.
  destruct (shutdown_clears inputs) as (H1 & _ & H3).
  destruct H3 as [H4 _].
  - apply (bool_decide_unpack _). vm_compute. exact I.
  - split; [exact H1 | exact H4].
Defined.

(** [X11] [initialize] succeeds once.  The first [initialize] answers
    with the capabilities and records the client; from then on the bridge
    stays initialized, the recorded client never changes, and every later
    [initialize] is answered with "Bridge already initialized" and changes
    nothing else. *)
Theorem initialize_once (before after : list input) (id id' : N)
    (info info' : ClientInfo) (env env' : Env) :
  let b := run before boot in
  let b1 := step (CommandLine id (initialize info) env) b in
  let b2 := run after b1 in
  initialized b = false →
  responses b1 = responses b ++ [(id, Result (Capabilities capabilities))]
  ∧ sessionManager b1 = sessionManager b
  ∧ initialized b2 = true
  ∧ clientInfo_ b2 = info
  ∧ step (CommandLine id' (initialize info') env') b2
    = mkBridge true info (sessionManager b2)
        (responses b2 ++ [(id', Error (js "Bridge already initialized"))]).
Proof.
  intros b b1 b2 Hi.
  assert (b1 = mkBridge true info (sessionManager b)
                 (responses b ++ [(id, Result (Capabilities capabilities))])) as E1.
  { unfold b1. cbn [step handleCommand]. unfold handleInitialize. by rewrite Hi. }
  destruct (run_initialized after b1) as [H1 H2]; [by rewrite E1|].
  fold b2 in H1, H2. rewrite E1 in H2. cbn [clientInfo_] in H2.
  split; [by rewrite E1|]. split; [by rewrite E1|]. split; [done|]. split; [done|].
  cbn [step handleCommand]. unfold handleInitialize. rewrite H1.
  cbn [initialized clientInfo_ sessionManager responses]. by rewrite H1, H2.
Qed.

Lemma initialize_once_witness :
  let info := mkClientInfo (js "app") (js "1.0") in
  let b2 := run [CommandLine 1 (initialize info) (mkEnv 0 None);
                 CommandLine 2 (session_start (js "w1") (js "/p")) (mkEnv 17 None)]
              boot in
  initialized b2 = true ∧ clientInfo_ b2 = info.
Proof.
  intros info b2.
  destruct (initialize_once []
              [CommandLine 2 (session_start (js "w1") (js "/p")) (mkEnv 17 None)]
              1 3 info (mkClientInfo (js "other") (js "2.0"))
              (mkEnv 0 None) (mkEnv 0 None))
    as (_ & _ & H3 & H4 & _).
  - vm_compute. reflexivity.
  - split; [exact H3 | exact H4].
Defined.

End bridge_more.

(** ** [permission/respond] and the pending id, through the bridge *)

Section bridge_respond.
Import Events SessionManager Bridge.

Lemma run_wf inputs :
  Permission.wf (permissionHandler (sessionManager (run inputs boot))).
Proof.
  destruct (handler_run inputs boot) as (acts & -> & _).
  apply wf_applyAll, wf_new.
Qed.

Lemma run_timeoutMs inputs :
  Permission.timeoutMs (permissionHandler (sessionManager (run inputs boot)))
  = Permission.DEFAULT_PERMISSION_TIMEOUT_MS.
Proof.
  destruct (handler_run inputs boot) as (acts & -> & _).
  by rewrite timeoutMs_applyAll by apply wf_new.
Qed.

Lemma setPermissionHandler_same m : setPermissionHandler (permissionHandler m) m = m.
Proof. by destruct m. Qed.

(** [C9] [permission/respond] resolves by the tool-use id alone.  In
    every state the bridge can reach, the session id of the command
    changes neither the reply nor the state.  For a tool-use id with an
    entry, whichever session owns it and whatever session id the command
    names, the reply is [{success: true}], the entry is removed, its timer
    is cleared and its promise, not called before, is resolved with the
    decision of the command; nothing else in the bridge changes.  For a
    tool-use id without an entry the reply is [{success: false}] and
    nothing changes. *)
Theorem respond_ignores_session (inputs : list input) (env : Env)
    (sid sid' tid : jsstring) (d : Permission.Decision) (msg : option jsstring)
    (u : option (list Permission.PermissionUpdate)) :
  let b := run inputs boot in
  let h := permissionHandler (sessionManager b) in
  let r := handleCommand env (permission_respond sid tid d msg u) b in
  let h' := permissionHandler (sessionManager r.1) in
  let answer :=
    Permission.Resolve
      match d with
      | Permission.allow => Permission.Allow u tid
      | Permission.deny =>
          Permission.Deny (default (js "Permission denied by user") msg) tid
      end in
  r = handleCommand env (permission_respond sid' tid d msg u) b
  ∧ match Permission.pending h !! tid with
    | Some e =>
        r.2 = Result (Success true)
        ∧ r.1 = withManager (setPermissionHandler h' (sessionManager b)) b
        ∧ Permission.pending h' !! tid = None
        ∧ (∀ id, id ≠ tid → Permission.pending h' !! id = Permission.pending h !! id)
        ∧ Permission.timers h !! Permission.timeoutId e
          = Some (Permission.mkTimer tid Permission.DEFAULT_PERMISSION_TIMEOUT_MS)
        ∧ Permission.timers h' !! Permission.timeoutId e = None
        ∧ Permission.settlements h (Permission.promise e) = []
        ∧ Permission.settlements h' (Permission.promise e) = [answer]
    | None => r = (b, Result (Success false))
    end.
Proof.
  intros b h r h' answer. split; [done|].
  pose proof (run_wf inputs) as Hwf. fold b h in Hwf.
  pose proof (run_timeoutMs inputs) as Hms. fold b h in Hms.
  destruct (Permission.pending h !! tid) as [e|] eqn:He.
  - destruct (Permission.wf_entry h Hwf tid e He) as (H1 & H2 & H3 & H4 & H5).
    rewrite Hms in H3.
    pose proof (respond_removes h tid d msg u e Hwf He) as Hrm.
    assert (Hr : r = (withManager
                        (setPermissionHandler (Permission.respond tid d msg u h).1
                           (sessionManager b)) b,
                      Result (Success true))).
    { unfold r. cbn [handleCommand]. unfold handlePermissionRespond. fold h.
      unfold Permission.respond. rewrite He. done. }
    assert (Hh' : h' = (Permission.respond tid d msg u h).1).
    { unfold h'. by rewrite Hr. }
    split; [by rewrite Hr|]. split; [by rewrite Hh', Hr|].
    rewrite Hh'.
    split; [rewrite (Permission.rm_pending _ _ _ _ _ Hrm); apply lookup_delete_eq|].
    split.
    { intros id Hne. rewrite (Permission.rm_pending _ _ _ _ _ Hrm).
      by rewrite lookup_delete_ne. }
    split; [done|]. split.
    { unfold Permission.respond. rewrite He. destruct d; simpl; apply lookup_delete_eq. }
    split; [done|].
    unfold Permission.settlements at 1.
    rewrite (Permission.rm_calls _ _ _ _ _ Hrm), lookup_insert_eq. cbn.
    by rewrite H5.
  - unfold r. cbn [handleCommand]. unfold handlePermissionRespond. fold h.
    unfold Permission.respond. rewrite He. unfold h.
    by rewrite setPermissionHandler_same, withManager_id.
Qed.

(** [C7] as stated fails.  A permission request made while the id of the
    session is still pending is recorded under the pending id and stays
    recorded under it after the replacement: closing the session under
    its new id does not find the request, which stays pending with its
    promise uncalled.  A vendor id that has the pending form itself is
    replaced a second time.  And in the UI, after two starts for one
    workspace, the event of the first session leaves its thread listed
    under the pending id. *)
Lemma stale_pending_permission :
  let b := run [CommandLine 1 (initialize (mkClientInfo (js "ui") (js "1"))) (mkEnv 0 None);
                CommandLine 2 (session_start (js "w1") (js "/p")) (mkEnv 17 None);
                VendorCanUseTool 0 (js "bash") (js "T1");
                VendorMessage 0 (mkMessage (Some (js "S1")) (system true))] boot in
  let b' := step (CommandLine 3 (session_close (js "S1")) (mkEnv 20 None)) b in
  let m := (startSession 17 (js "w1") (js "/p") None
              (newManager (Permission.newPermissionHandler 1000))).1 in
  idOf 0 (sessionManager b) = Some (js "S1")
  ∧ Permission.sessionId
      <$> Permission.pending (permissionHandler (sessionManager b)) !! js "T1"
    = Some (pendingId 17)
  ∧ getSession (js "S1") (sessionManager b') = None
  ∧ Permission.sessionId
      <$> Permission.pending (permissionHandler (sessionManager b')) !! js "T1"
    = Some (pendingId 17)
  ∧ Permission.settlements (permissionHandler (sessionManager b')) 0 = []
  ∧ replacements [mkMessage (Some (js "pending-x")) (system true);
                  mkMessage (Some (js "S1")) assistant] 0 m = 2
  ∧ Threads.threadIds
      (Threads.state
         (Threads.onSessionStarted (js "w1") (js "S1")
            (Threads.sessionRequested (js "w1") (js "pending-2")
               (Threads.sessionRequested (js "w1") (js "pending-1")
                  (Threads.mkHook Threads.initialState ∅ ∅)))))
      (js "w1")
    = [js "S1"; js "pending-1"].
Proof. vm_compute. done. Qed.

End bridge_respond.

(** ** The UI side of the promotion *)

Section thread_facts.
Import Threads.
Implicit Types (h : hook) (wid P R : jsstring).

Lemma moveKey_from {V : Type} (from to : jsstring) (t : gmap jsstring V) :
  from ≠ to → moveKey object from to t !! from = None.
Proof.
  intros Hne. unfold moveKey. destruct (t !! from) eqn:E; [|done]. cbn [object].
  apply lookup_delete_eq.
Qed.

Lemma setActive_items s wid t :
  itemsByThread (threadReducer s (setActiveThreadId wid t)) = itemsByThread s.
Proof. done. Qed.

Lemma setActive_threads s wid t :
  threadsByWorkspace (threadReducer s (setActiveThreadId wid t))
  = threadsByWorkspace s.
Proof. done. Qed.

Lemma setActive_status s wid t k :
  k ≠ t →
  threadStatusById (threadReducer s (setActiveThreadId wid (Some t))) !! k
  = threadStatusById s !! k.
Proof.
  intros Hne. cbn [threadReducer threadStatusById].
  destruct (isEmpty t); [done|]. by rewrite lookup_insert_ne.
Qed.

Lemma setActive_active s wid t :
  activeThreadIdByWorkspace (threadReducer s (setActiveThreadId wid (Some t))) !! wid
  = Some t.
Proof. cbn [threadReducer activeThreadIdByWorkspace assign]. apply lookup_insert_eq. Qed.

(** [X21] When [session/started] arrives for a workspace whose pending id is
    [P], the thread is moved from [P] to the id [R] of the event: the ref
    names [R], the items are under [R], the tables keyed by thread and the
    thread list have nothing under [P], and [R] is the active thread.  The
    same event a second time moves nothing. *)
Lemma session_started_rekeys h wid P R :
  pendingSessionByWorkspace h !! wid = Some P → P ≠ [] → P ≠ R →
  let h1 := onSessionStarted wid R h in
  pendingSessionByWorkspace h1 !! wid = Some R
  ∧ itemsByThread (state h1) !! P = None
  ∧ itemsByThread (state h1) !! R
    = Some (default [] (itemsByThread (state h) !! P))
  ∧ threadStatusById (state h1) !! P = None
  ∧ Forall (λ t, id t ≠ P) (default [] (threadsByWorkspace (state h1) !! wid))
  ∧ activeThreadIdByWorkspace (state h1) !! wid = Some R
  ∧ pendingSessionByWorkspace (onSessionStarted wid R h1)
    = pendingSessionByWorkspace h1
  ∧ itemsByThread (state (onSessionStarted wid R h1)) = itemsByThread (state h1).
Proof.
  intros Hp Hne Hdiff h1.
  assert (Hh1 : h1 = mkHook
            (threadReducer (threadReducer (state h) (migrateThread wid P R))
               (setActiveThreadId wid (Some R)))
            (<[wid := R]> (pendingSessionByWorkspace h))
            ({[R]} ∪ loadedThreads h)).
  { unfold h1, onSessionStarted. rewrite Hp.
    apply isEmpty_false in Hne as ->. rewrite bool_decide_eq_false_2 by done.
    done. }
  set (st := state h) in *.
  assert (Hitems : itemsByThread (threadReducer st (migrateThread wid P R))
                   = <[R := default [] (itemsByThread st !! P)]>
                       (delete P (itemsByThread st))).
  { cbn [threadReducer]. by rewrite bool_decide_eq_false_2. }
  assert (Hstatus : threadStatusById (threadReducer st (migrateThread wid P R))
                    = moveKey object P R (threadStatusById st)).
  { cbn [threadReducer]. by rewrite bool_decide_eq_false_2. }
  assert (Hthreads : threadsByWorkspace (threadReducer st (migrateThread wid P R)) !! wid
                     = Some (map (λ thread, if bool_decide (Threads.id thread = P)
                                            then mkThread R (name thread) else thread)
                               (default [] (threadsByWorkspace st !! wid)))).
  { cbn [threadReducer]. rewrite bool_decide_eq_false_2 by done.
    cbn [threadsByWorkspace]. apply lookup_insert_eq. }
  rewrite Hh1. cbn [state pendingSessionByWorkspace].
  split; [apply lookup_insert_eq|].
  split.
  { rewrite setActive_items, Hitems.
    rewrite lookup_insert_ne by done. apply lookup_delete_eq. }
  split.
  { rewrite setActive_items, Hitems. apply lookup_insert_eq. }
  split.
  { rewrite setActive_status by done. rewrite Hstatus. by apply moveKey_from. }
  split.
  { rewrite setActive_threads, Hthreads.
    cbn [default from_option id].
    apply Forall_forall. intros t Ht. apply list_elem_of_fmap in Ht as (t0 & -> & _).
    destruct (bool_decide (Threads.id t0 = P)) eqn:E; simpl.
    - done.
    - by apply bool_decide_eq_false in E. }
  split; [apply setActive_active|].
  unfold onSessionStarted. cbn [pendingSessionByWorkspace dispatch state].
  rewrite lookup_insert_eq.
  rewrite (bool_decide_eq_true_2 (R = R)) by done. rewrite andb_false_r.
  cbn [pendingSessionByWorkspace dispatch state]. split; [done|].
  rewrite setActive_items.
  cbn [threadReducer]. destruct (existsb _ _); done.
Qed.

Lemma session_started_rekeys_witness :
  let h := sessionRequested (js "w1") (js "pending-17") (mkHook initialState ∅ ∅) in
  let h1 := onSessionStarted (js "w1") (js "S1") h in
  pendingSessionByWorkspace h1 !! js "w1" = Some (js "S1")
  ∧ itemsByThread (state h1) !! js "pending-17" = None.
Proof.
  intros h h1.
  destruct (session_started_rekeys h (js "w1") (js "pending-17") (js "S1"))
    as (H1 & H2 & _).
  - vm_compute. reflexivity.
  - discriminate.
  - discriminate.
  - split; [exact H1 | exact H2].
Defined.

Example session_started_example :
  let h := sessionRequested (js "w1") (js "pending-17")
             (mkHook initialState ∅ ∅) in
  let h1 := onSessionStarted (js "w1") (js "S1") h in
  (id <$> default [] (threadsByWorkspace (state h1) !! js "w1")) = [js "S1"]
  ∧ activeThreadIdByWorkspace (state h1) !! js "w1" = Some (js "S1")
  ∧ threadStatusById (state h1) !! js "pending-17" = None.
Proof. vm_compute. done. Qed.

End thread_facts.

(** ** The thread list of a workspace *)

Section thread_list_facts.
Import Threads.
Implicit Types (s : ThreadState) (wid : jsstring).

Lemma existsb_ids (l : list ThreadSummary) t :
  existsb (λ thread, bool_decide (id thread = t)) l = true ↔ t ∈ id <$> l.
Proof.
  rewrite existsb_exists, list_elem_of_fmap. split.
  - intros (x & Hin & Hx). apply bool_decide_eq_true in Hx.
    exists x. split; [done|]. by apply list_elem_of_In.
  - intros (x & -> & Hin). exists x. split; [by apply list_elem_of_In|].
    by apply bool_decide_eq_true.
Qed.

Lemma ensureThread_listed s wid t :
  t ∈ threadIds s wid → threadReducer s (ensureThread wid t) = s.
Proof.
  intros Hin. cbn [threadReducer]. apply existsb_ids in Hin.
  unfold threadIds in *. by rewrite Hin.
Qed.

Lemma ensureThread_new s wid t :
  t ∉ threadIds s wid →
  threadIds (threadReducer s (ensureThread wid t)) wid = t :: threadIds s wid
  ∧ ∀ w, w ≠ wid → threadIds (threadReducer s (ensureThread wid t)) w = threadIds s w.
Proof.
  intros Hin. cbn [threadReducer].
  destruct (existsb _ _) eqn:E; [by apply existsb_ids in E|].
  unfold threadIds. cbn [threadsByWorkspace]. split.
  - by rewrite lookup_insert_eq.
  - intros w Hw. by rewrite lookup_insert_ne.
Qed.

Lemma migrateThread_ids s wid from to :
  from ≠ to →
  threadIds (threadReducer s (migrateThread wid from to)) wid
  = (λ i, if bool_decide (i = from) then to else i) <$> threadIds s wid
  ∧ ∀ w, w ≠ wid → threadIds (threadReducer s (migrateThread wid from to)) w
                   = threadIds s w.
Proof.
  intros Hne. cbn [threadReducer]. rewrite bool_decide_eq_false_2 by done.
  unfold threadIds. cbn [threadsByWorkspace]. split.
  - rewrite lookup_insert_eq. cbn [default from_option Datatypes.id].
    rewrite <- !list_fmap_compose. apply list_fmap_ext. intros _ x _. cbn.
    by destruct (bool_decide (id x = from)).
  - intros w Hw. by rewrite lookup_insert_ne.
Qed.

Lemma removeThread_ids s wid t :
  threadIds (threadReducer s (removeThread wid t)) wid
  = filter (λ i, i ≠ t) (threadIds s wid)
  ∧ ∀ w, w ≠ wid → threadIds (threadReducer s (removeThread wid t)) w = threadIds s w.
Proof.
  cbn [threadReducer]. unfold threadIds. cbn [threadsByWorkspace]. split.
  - rewrite lookup_insert_eq. cbn [default from_option Datatypes.id].
    induction (default [] (threadsByWorkspace s !! wid)) as [|x l IH]; [done|].
    rewrite fmap_cons, !filter_cons. cbn.
    destruct (decide (id x ≠ t)); cbn; by rewrite IH.
  - intros w Hw. by rewrite lookup_insert_ne.
Qed.

End thread_list_facts.

Section thread_list_claims.
Import Threads.

(** [X22] No action of the reducer modelled here lists a thread twice.
    If the ids in the list of a workspace are pairwise different, they
    still are after [ensureThread], which adds an id only when it is not
    listed and is therefore idempotent, after [removeThread] and after
    the actions on the status; they still are after [migrateThread],
    provided the new id is not already listed for the workspace of the
    action. *)
Theorem thread_ids_stay_unique (s : ThreadState) (a : ThreadAction) (w : jsstring) :
  NoDup (threadIds s w) →
  (∀ from to, a = migrateThread w from to → from ≠ to → to ∉ threadIds s w) →
  NoDup (threadIds (threadReducer s a) w)
  ∧ (∀ wid t, a = ensureThread wid t →
       t ∈ threadIds (threadReducer s a) wid
       ∧ threadReducer (threadReducer s a) a = threadReducer s a).
Proof.
  intros Hnd Hto. split.
  - destruct a as [wid t|wid t|wid from to|wid t|t p ts|t turn|t r|t u];
      try done.
    + destruct (decide (t ∈ threadIds s wid)) as [Hin|Hin].
      { by rewrite ensureThread_listed. }
      destruct (ensureThread_new s wid t Hin) as [H1 H2].
      destruct (decide (w = wid)) as [->|Hw].
      * rewrite H1. by apply NoDup_cons.
      * by rewrite H2.
    + destruct (decide (from = to)) as [->|Hne].
      { cbn [threadReducer]. by rewrite bool_decide_eq_true_2. }
      destruct (migrateThread_ids s wid from to Hne) as [H1 H2].
      destruct (decide (w = wid)) as [->|Hw]; [|by rewrite H2].
      rewrite H1. apply NoDup_fmap_2_strong; [|done].
      intros x y Hx Hy. specialize (Hto from to eq_refl Hne).
      repeat case_bool_decide; intros Heq; subst; try done; by destruct Hto.
    + destruct (removeThread_ids s wid t) as [H1 H2].
      destruct (decide (w = wid)) as [->|Hw]; [|by rewrite H2].
      rewrite H1. by apply NoDup_filter.
  - intros wid t ->.
    destruct (decide (t ∈ threadIds s wid)) as [Hin|Hin].
    + by rewrite !ensureThread_listed.
    + destruct (ensureThread_new s wid t Hin) as [H1 _].
      assert (t ∈ threadIds (threadReducer s (ensureThread wid t)) wid) as Hin'.
      { rewrite H1. left. }
      split; [done|]. by apply ensureThread_listed.
Qed.

Lemma thread_ids_stay_unique_witness :
  let s := threadReducer initialState (ensureThread (js "w1") (js "pending-17")) in
  NoDup (threadIds (threadReducer s (migrateThread (js "w1") (js "pending-17") (js "S1")))
           (js "w1")).
Proof.
  intros s.
  apply (thread_ids_stay_unique s (migrateThread (js "w1") (js "pending-17") (js "S1"))
           (js "w1")).
  - apply (bool_decide_unpack _). vm_compute. exact I.
  - intros from to [= <- <-] _. apply (bool_decide_unpack _). vm_compute. exact I.
Defined.

(** Two starts for one workspace before the first [session/started]: the
    ref holds the second pending id only, so the event of the first
    session moves the thread of the second, and the thread of the first
    stays listed under its pending id. *)
Example two_starts_stale_thread :
  let h := sessionRequested (js "w1") (js "pending-2")
             (sessionRequested (js "w1") (js "pending-1")
                (mkHook initialState ∅ ∅)) in
  let h1 := onSessionStarted (js "w1") (js "S1") h in
  threadIds (state h1) (js "w1") = [js "S1"; js "pending-1"].
Proof. vm_compute. done. Qed.

End thread_list_claims.

(** ** The processing clock of a thread *)

Section thread_clock_facts.
Import Threads.
Implicit Types (s : ThreadState) (tid : jsstring) (st : ThreadStatus).

(** The thread is marked as processing since [t0]. *)
Lemma quiet_keeps_clock s tid t0 a :
  quiet tid a = true → t0 ≠ 0%N →
  (∃ st, threadStatusById s !! tid = Some st
         ∧ isProcessing st = true ∧ processingStartedAt st = Some t0) →
  ∃ st, threadStatusById (threadReducer s a) !! tid = Some st
        ∧ isProcessing st = true ∧ processingStartedAt st = Some t0.
Proof.
  intros Hq Ht0 (st & Hst & Hp & Hs).
  apply N.eqb_neq in Ht0.
  destruct a as [wid t|wid t|wid from to|wid t|t p ts|t turn|t r|t u];
    cbn [threadReducer threadStatusById quiet] in *.
  - destruct t as [t|]; [|eauto]. destruct (isEmpty t); [eauto|].
    destruct (decide (t = tid)) as [->|Hne].
    + rewrite lookup_insert_eq, Hst. cbn. rewrite Hp, Hs. eauto.
    + rewrite lookup_insert_ne by done. eauto.
  - apply negb_true_iff, bool_decide_eq_false in Hq.
    destruct (existsb _ _); [eauto|]. cbn [threadStatusById].
    rewrite lookup_insert_ne by done. eauto.
  - apply andb_true_iff in Hq as [H1 H2].
    apply negb_true_iff, bool_decide_eq_false in H1.
    apply negb_true_iff, bool_decide_eq_false in H2.
    destruct (bool_decide (from = to)); [eauto|]. cbn [threadStatusById].
    unfold moveKey. destruct (threadStatusById s !! from); [|eauto]. cbn [object].
    rewrite lookup_delete_ne, lookup_insert_ne by done. eauto.
  - apply negb_true_iff, bool_decide_eq_false in Hq.
    rewrite lookup_delete_ne by done. eauto.
  - destruct (decide (t = tid)) as [->|Hne].
    + rewrite bool_decide_eq_true_2 in Hq by done.
      destruct p; [|done].
      rewrite lookup_insert_eq, Hst. cbn. rewrite Hp, Hs. cbn. rewrite Ht0. cbn.
      eauto.
    + rewrite lookup_insert_ne by done. eauto.
  - eauto.
  - destruct (decide (t = tid)) as [->|Hne].
    + rewrite lookup_insert_eq, Hst. cbn. rewrite Hp, Hs. eauto.
    + rewrite lookup_insert_ne by done. eauto.
  - destruct (decide (t = tid)) as [->|Hne].
    + rewrite lookup_insert_eq, Hst. cbn. rewrite Hp, Hs. eauto.
    + rewrite lookup_insert_ne by done. eauto.
Qed.

Lemma quiet_keep_clock s tid t0 (acts : list ThreadAction) :
  Forall (λ a, quiet tid a = true) acts → t0 ≠ 0%N →
  (∃ st, threadStatusById s !! tid = Some st
         ∧ isProcessing st = true ∧ processingStartedAt st = Some t0) →
  ∃ st, threadStatusById (foldl threadReducer s acts) !! tid = Some st
        ∧ isProcessing st = true ∧ processingStartedAt st = Some t0.
Proof.
  intros Hq Ht0. revert s. induction Hq as [|a acts Ha _ IH]; intros s Hs; [done|].
  cbn [foldl]. apply IH. by apply quiet_keeps_clock.
Qed.

End thread_clock_facts.

Section thread_clock_claims.
Import Threads.

(** [X23] The duration of a turn is measured from its first start mark.
    When a thread that is not processing is marked as processing at a
    time [t0] other than 0, it stays marked with start time [t0] over
    further start marks (every delta sends one), over changes of the
    unread and reviewing flags, of the active thread and turn, and over
    actions on other threads.  The stop mark at time [t1] then records
    the duration [max(0, t1 - t0)] and clears the start time, and a
    second stop mark leaves the recorded duration as it is. *)
Theorem processing_duration (s : ThreadState) (tid : jsstring) (t0 t1 t2 : N)
    (mid : list ThreadAction) :
  default false (isProcessing <$> threadStatusById s !! tid) = false →
  t0 ≠ 0%N →
  Forall (λ a, quiet tid a = true) mid →
  let s1 := threadReducer s (markProcessing tid true t0) in
  let s2 := foldl threadReducer s1 mid in
  let s3 := threadReducer s2 (markProcessing tid false t1) in
  let s4 := threadReducer s3 (markProcessing tid false t2) in
  (∃ st, threadStatusById s2 !! tid = Some st
         ∧ isProcessing st = true ∧ processingStartedAt st = Some t0)
  ∧ (∃ st, threadStatusById s3 !! tid = Some st
           ∧ isProcessing st = false ∧ processingStartedAt st = None
           ∧ lastDurationMs st = Some (N.max 0 (t1 - t0)))
  ∧ (∃ st, threadStatusById s4 !! tid = Some st
           ∧ isProcessing st = false ∧ processingStartedAt st = None
           ∧ lastDurationMs st = Some (N.max 0 (t1 - t0))).
Proof.
  intros Hidle Ht0 Hmid s1 s2 s3 s4.
  assert (∃ st, threadStatusById s1 !! tid = Some st
                ∧ isProcessing st = true ∧ processingStartedAt st = Some t0) as H1.
  { unfold s1. cbn [threadReducer threadStatusById]. rewrite lookup_insert_eq.
    rewrite Hidle. cbn. eauto. }
  pose proof (quiet_keep_clock s1 tid t0 mid Hmid Ht0 H1) as H2. fold s2 in H2.
  split; [done|]. destruct H2 as (st & Hst & Hp & Hs).
  assert (threadStatusById s3 !! tid
          = Some (mkStatus false (hasUnread st) (isReviewing st) None
                    (Some (N.max 0 (t1 - t0))))) as H3.
  { unfold s3. cbn [threadReducer threadStatusById]. rewrite lookup_insert_eq, Hst.
    cbn. rewrite Hp, Hs. cbn. apply N.eqb_neq in Ht0 as ->. done. }
  split; [eauto 6|].
  unfold s4. cbn [threadReducer threadStatusById]. rewrite lookup_insert_eq, H3.
  cbn. eauto 6.
Qed.

Lemma processing_duration_witness :
  let s3 :=
    threadReducer
      (foldl threadReducer
         (threadReducer initialState (markProcessing (js "T") true 100))
         [markProcessing (js "T") true 180; markUnread (js "T") true])
      (markProcessing (js "T") false 250) in
  ∃ st, threadStatusById s3 !! js "T" = Some st
        ∧ isProcessing st = false ∧ processingStartedAt st = None
        ∧ lastDurationMs st = Some (N.max 0 (250 - 100)).
Proof.
  intros s3.
  apply (proj1 (proj2 (processing_duration initialState (js "T") 100 250 300
           [markProcessing (js "T") true 180; markUnread (js "T") true]
           eq_refl ltac:(discriminate) ltac:(repeat constructor)))).
Defined.

End thread_clock_claims.

